(** * The local camera search index of verkcli

    A shallow embedding of [internal/cli/cameras_index.go] (index path
    derivation, index rebuild, label patch, query construction, status,
    search, fetch of the inventory, build command) and of the code that it
    relies on: [pickString], the extraction of the cameras of a response
    and the listing of cameras, and the configuration with its profiles;
    with the properties of the index that its specification states, and
    more properties of this code. *)

From Stdlib Require Import ZArith Ascii String DecimalString DecimalPos.
From stdpp Require Import base option list gmap sorting.

Local Open Scope Z_scope.

(** ** Go strings

    Go strings are byte sequences that the code below reads rune by rune
    ([for _, r := range s], [strings.ToLower], [strings.TrimSpace],
    [strings.Fields]).  A string is modelled as the list of its code
    points; this is exact for valid UTF-8 text, which is what JSON decoding
    produces. *)

Definition rune := Z.
Definition gostring := list rune.

Definition rune_of_ascii (c : ascii) : rune := Z.of_N (N_of_ascii c).

(** [go "abc"] is the Go string literal ["abc"] (ASCII literals only). *)
Fixpoint go (s : string) : gostring :=
  match s with
  | EmptyString => []
  | String c s' => rune_of_ascii c :: go s'
  end.

Definition in_range (lo hi r : rune) : bool := (lo <=? r) && (r <=? hi).

(** [r >= 'a' && r <= 'z'] and [r >= '0' && r <= '9']. *)
Definition is_lower_az (r : rune) : bool := in_range 97 122 r.
Definition is_digit_09 (r : rune) : bool := in_range 48 57 r.

(** [unicode.IsSpace]: the White_Space property of Unicode. *)
Definition unicode_IsSpace (r : rune) : bool :=
  in_range 9 13 r || (r =? 32) || (r =? 0x85) || (r =? 0xA0) || (r =? 0x1680)
  || in_range 0x2000 0x200A r || (r =? 0x2028) || (r =? 0x2029)
  || (r =? 0x202F) || (r =? 0x205F) || (r =? 0x3000).

(** [unicode.ToLower].  The ASCII and Latin-1 capitals are listed, and the
    two capitals outside ASCII whose lower case is an ASCII letter: U+0130
    (capital I with dot above, lower case [i]) and U+212A (Kelvin sign,
    lower case [k]).  The functions of this file look at a lowered rune only
    to ask whether it is in [a-z0-9._-]; no other entry of Go's case table
    yields such a rune, so the other entries are left out. *)
Definition unicode_ToLower (r : rune) : rune :=
  if in_range 65 90 r then r + 32
  else if r =? 0x130 then 105
  else if r =? 0x212A then 107
  else if in_range 0xC0 0xDE r && negb (r =? 0xD7) then r + 32
  else r.

(** [strings.ToLower]. *)
Definition ToLower (s : gostring) : gostring := map unicode_ToLower s.

(** [strings.TrimLeftFunc] / [strings.TrimRightFunc]. *)
Fixpoint TrimLeftFunc (f : rune -> bool) (s : gostring) : gostring :=
  match s with
  | [] => []
  | r :: s' => if f r then TrimLeftFunc f s' else s
  end.

Definition TrimRightFunc (f : rune -> bool) (s : gostring) : gostring :=
  rev (TrimLeftFunc f (rev s)).

Definition TrimFunc (f : rune -> bool) (s : gostring) : gostring :=
  TrimRightFunc f (TrimLeftFunc f s).

(** [strings.TrimSpace]. *)
Definition TrimSpace (s : gostring) : gostring := TrimFunc unicode_IsSpace s.

(** [strings.Trim(s, cutset)]. *)
Definition Trim (s cutset : gostring) : gostring :=
  TrimFunc (fun r => bool_decide (r ∈ cutset)) s.

(** The first token of [ts] gets [r] in front (the word being read goes on). *)
Definition push_rune (r : rune) (ts : list gostring) : list gostring :=
  match ts with
  | [] => [[r]]
  | t :: ts' => (r :: t) :: ts'
  end.

(** [strings.Fields]: the maximal runs of runes that are not white space. *)
Fixpoint Fields (s : gostring) : list gostring :=
  match s with
  | [] => []
  | r :: s' =>
      if unicode_IsSpace r then Fields s'
      else match s' with
           | [] => [[r]]
           | r' :: _ =>
               if unicode_IsSpace r' then [r] :: Fields s'
               else push_rune r (Fields s')
           end
  end.

(** [strings.Join]. *)
Fixpoint Join (elems : list gostring) (sep : gostring) : gostring :=
  match elems with
  | [] => []
  | [e] => e
  | e :: rest => e ++ sep ++ Join rest sep
  end.

(** Go functions that return [(T, error)]. *)
Inductive result (A : Type) : Type :=
  | Ok (a : A)
  | Err (msg : string).
Arguments Ok {A} a.
Arguments Err {A} msg.

Definition is_err {A} (r : result A) : bool :=
  match r with Ok _ => false | Err _ => true end.

(** ** Query construction *)

Module Query.

(** The rune written to the builder for the rune [r] of the lowered query. *)
Definition token_rune (r : rune) : rune :=
  if is_lower_az r then r
  else if is_digit_09 r then r
  else 32.

Definition tokenizeQuery (q : gostring) : list gostring :=
  let q := ToLower q in
  let b := map token_rune q in
  let parts := Fields b in
  parts.

Definition camerasSearchStopwords : gset gostring :=
  list_to_set (go <$> [
    "a"; "an"; "and"; "are"; "at"; "by"; "for"; "from";
    "in"; "into"; "is"; "near"; "of"; "on"; "or"; "the"; "to"; "with";
    "camera"; "cameras"
  ]%string).

Definition is_stopword (t : gostring) : bool :=
  bool_decide (t ∈ camerasSearchStopwords).

(** The filter loop of [buildFTSQuery].  [keep := toks[:0]] shares the
    backing array of [toks]: [append(keep, t)] writes [t] at index
    [len(keep)] of that array.  [arr] is the array, [i] the index the
    [range] reads next, [k] the length of [keep], [n] the iterations left. *)
Fixpoint keep_loop (n i k : nat) (arr : list gostring) : nat * list gostring :=
  match n with
  | O => (k, arr)
  | S n' =>
      match arr !! i with
      | None => (k, arr)
      | Some t =>
          if is_stopword t then keep_loop n' (S i) k arr
          else keep_loop n' (S i) (S k) (<[k := t]> arr)
      end
  end.

(** The second loop: [terms = append(terms, t+"*")], empty tokens skipped. *)
Fixpoint prefix_terms (keep : list gostring) : list gostring :=
  match keep with
  | [] => []
  | t :: rest =>
      match t with
      | [] => prefix_terms rest
      | _ => (t ++ go "*") :: prefix_terms rest
      end
  end.

Definition no_tokens : string := "query has no searchable tokens".

Definition buildFTSQuery (q : gostring) : result gostring :=
  let toks := tokenizeQuery q in
  let '(k, arr) := keep_loop (length toks) 0 0 toks in
  let keep := take k arr in
  let keep :=
    if (length keep =? 0)%nat then take (length toks) arr else keep in
  if (length keep =? 0)%nat then Err no_tokens
  else
    let terms := prefix_terms keep in
    if (length terms =? 0)%nat then Err no_tokens
    else Ok (Join terms (go " AND ")).

End Query.

(** ** Field extraction from raw records *)

(** A JSON number, decoded to [float64].  [pickString] asks whether the
    number is integral ([t == float64(int64(t))]) and prints [int64(t)] in
    base 10 when it is, and [strconv.FormatFloat(t, 'f', -1, 64)] when it is
    not; the second text is carried by the value. *)
Inductive float64 : Type :=
  | FIntegral (i : Z)
  | FFraction (text : gostring).

(** The dynamic values ([any]) of a decoded record, by the cases of the type
    switch of [pickString].  [AStringer] carries what [String()] returns;
    [AOther] is any value of another type (nil, slices, nested objects). *)
Inductive any : Type :=
  | AString (s : gostring)
  | AStringer (text : gostring)
  | AFloat64 (t : float64)
  | ABool (b : bool)
  | AOther.

(** [strconv.FormatInt(i, 10)]. *)
Definition FormatInt (i : Z) : gostring :=
  go (NilEmpty.string_of_int (Z.to_int i)).

(** The arm of the type switch taken for [v], if any. *)
Definition stringOf (v : any) : option gostring :=
  match v with
  | AString t => Some t
  | AStringer text => Some text
  | AFloat64 (FIntegral i) => Some (FormatInt i)
  | AFloat64 (FFraction text) => Some text
  | ABool b => Some (if b then go "true" else go "false")
  | AOther => None
  end.

Fixpoint pickString (m : gmap gostring any) (keys : list gostring) : gostring :=
  match keys with
  | [] => []
  | k :: keys' =>
      match m !! k with
      | Some v =>
          match stringOf v with
          | Some s => s
          | None => pickString m keys'
          end
      | None => pickString m keys'
      end
  end.

Fixpoint firstNonEmpty (vs : list gostring) : gostring :=
  match vs with
  | [] => []
  | v :: vs' =>
      match TrimSpace v with
      | [] => firstNonEmpty vs'
      | _ => v
      end
  end.

(** ** Index path derivation *)

Module Path.

Definition slash : rune := 47.

(** The elements of a path between its separators. *)
Fixpoint split_path (s : gostring) : list gostring :=
  match s with
  | [] => [[]]
  | r :: s' =>
      if r =? slash then [] :: split_path s'
      else push_rune r (split_path s')
  end.

Definition dot : gostring := go ".".
Definition dotdot : gostring := go "..".

(** One element read by [filepath.Clean]; [out] holds the elements kept so
    far, last one first. *)
Definition clean_step (rooted : bool) (out : list gostring) (e : gostring)
  : list gostring :=
  if bool_decide (e = []) then out
  else if bool_decide (e = dot) then out
  else if bool_decide (e = dotdot) then
    match out with
    | top :: out' =>
        if bool_decide (top = dotdot) then e :: out else out'
    | [] => if rooted then out else [e]
    end
  else e :: out.

Definition is_rooted (s : gostring) : bool :=
  match s with
  | r :: _ => r =? slash
  | [] => false
  end.

Definition render (rooted : bool) (out : list gostring) : gostring :=
  match rooted, out with
  | true, _ => slash :: Join (rev out) [slash]
  | false, [] => dot
  | false, _ => Join (rev out) [slash]
  end.

(** [filepath.Clean] on a Unix path: empty and [.] elements go, [..] removes
    the element before it, [..] at the root goes, and the empty path is
    [.]. *)
Definition Clean (s : gostring) : gostring :=
  render (is_rooted s) (fold_left (clean_step (is_rooted s)) (split_path s) []).

(** [filepath.Join]: empty elements are ignored, the rest is joined with the
    separator and cleaned; no element at all gives the empty string. *)
Definition drop_empty (elem : list gostring) : list gostring :=
  filter (fun e => e ≠ []) elem.

Definition filepath_Join (elem : list gostring) : gostring :=
  match drop_empty elem with
  | [] => []
  | es => Clean (Join es [slash])
  end.

Definition sanitize_rune (r : rune) : rune :=
  if is_lower_az r then r
  else if is_digit_09 r then r
  else if (r =? 46) || (r =? 45) || (r =? 95) then r
  else 95.

Definition sanitizePathComponent (s : gostring) : gostring :=
  let s := TrimSpace s in
  match s with
  | [] => go "unknown"
  | _ =>
      let s := ToLower s in
      let out := map sanitize_rune s in
      let out := Trim out (go "_") in
      match out with
      | [] => go "unknown"
      | _ => out
      end
  end.

(** The fields of [Config] and [rootFlags] that the index reads. *)
Record Config : Type := { BaseURL : gostring; OrgID : gostring }.
Record rootFlags : Type := { Profile : gostring }.

(** What the path derivation reads from outside the program. *)
Record Env : Type := {
  (* os.UserCacheDir() *)
  UserCacheDir : result gostring;
  (* url.Parse(s) followed by .Host; None when parsing fails *)
  url_Parse_Host : gostring -> option gostring;
  (* envFirst of VERKCLI_PROFILE and VERKADA_PROFILE, default empty *)
  env_profile : gostring;
  (* CurrentProfile of the loaded config file; None when
     resolveConfigPath or loadConfig fails *)
  config_current_profile : option gostring
}.

Definition selectedProfileNameFromConfig (env : Env) (rf : rootFlags) : gostring :=
  match config_current_profile env with
  | None => firstNonEmpty [Profile rf; env_profile env; go "default"]
  | Some current =>
      firstNonEmpty [Profile rf; env_profile env; current; go "default"]
  end.

(** The host that names the partition, before it is sanitized. *)
Definition index_host (env : Env) (cfg : Config) : gostring :=
  match TrimSpace (BaseURL cfg) with
  | [] => go "unknown"
  | _ =>
      match url_Parse_Host env (BaseURL cfg) with
      | Some h =>
          match TrimSpace h with
          | [] => go "unknown"
          | _ => h
          end
      | None => go "unknown"
      end
  end.

Definition camerasIndexPath (env : Env) (rf : rootFlags) (cfg : Config)
  : result gostring :=
  match UserCacheDir env with
  | Err e => Err e
  | Ok cacheDir =>
      let host := sanitizePathComponent (index_host env cfg) in
      let org := sanitizePathComponent (firstNonEmpty [OrgID cfg; go "no-org"]) in
      let profile := selectedProfileNameFromConfig env rf in
      let profile := sanitizePathComponent (firstNonEmpty [profile; go "default"]) in
      let dir :=
        filepath_Join [cacheDir; go "verkcli"; go "index"; host; org; profile] in
      Ok (filepath_Join [dir; go "cameras.sqlite"])
  end.

End Path.

(** ** The index store *)

Module Index.

Import Path.

Record CameraRow : Type := {
  cam_name : gostring;
  cam_site : gostring;
  cam_model : gostring;
  cam_serial : gostring;
  cam_status : gostring;
  cam_timezone : gostring;
  cam_updated_at : Z;
  cam_raw_json : gostring
}.

Record LabelRow : Type := {
  lbl_label : gostring;
  lbl_updated_at : Z
}.

Record FtsRow : Type := {
  fts_camera_id : gostring;
  fts_name : gostring;
  fts_site : gostring;
  fts_label : gostring;
  fts_model : gostring;
  fts_serial : gostring;
  fts_status : gostring;
  fts_timezone : gostring
}.

(** The four tables of [initCamerasIndexSchema].  [meta], [cameras] and
    [labels] have a primary key and are maps from it; the FTS5 table
    [cameras_fts] has none and is the list of its rows in rowid order. *)
Record DB : Type := {
  cameras : gmap gostring CameraRow;
  labels : gmap gostring LabelRow;
  cameras_fts : list FtsRow;
  meta : gmap gostring gostring
}.

Definition empty_db : DB :=
  {| cameras := ∅; labels := ∅; cameras_fts := []; meta := ∅ |}.

(** The index file at the index path: [None] when there is no such file. *)
Definition Store : Type := option DB.

(** The rows found in the store; a file or table not yet created has none. *)
Definition tables_of (st : Store) : DB := default empty_db st.

(** The SQL statements of the file. *)
Inductive stmt : Type :=
  | CreateTableIfNotExists (name : string)
  | DeleteFromCameras
  | DeleteFromLabels
  | DeleteFromCamerasFts
  | UpsertMeta (key value : gostring)
  | InsertCamera (id : gostring) (row : CameraRow)
  | InsertLabel (id : gostring) (row : LabelRow)
  | InsertCamerasFts (row : FtsRow)
  | DeleteLabelWhere (id : gostring)
  | UpsertLabel (id : gostring) (row : LabelRow)
  | DeleteCamerasFtsWhere (id : gostring)
  | InsertCamerasFtsSelect (newLabel id : gostring).

Definition with_cameras (db : DB) (m : gmap gostring CameraRow) : DB :=
  {| cameras := m; labels := labels db;
     cameras_fts := cameras_fts db; meta := meta db |}.
Definition with_labels (db : DB) (m : gmap gostring LabelRow) : DB :=
  {| cameras := cameras db; labels := m;
     cameras_fts := cameras_fts db; meta := meta db |}.
Definition with_cameras_fts (db : DB) (l : list FtsRow) : DB :=
  {| cameras := cameras db; labels := labels db;
     cameras_fts := l; meta := meta db |}.
Definition with_meta (db : DB) (m : gmap gostring gostring) : DB :=
  {| cameras := cameras db; labels := labels db;
     cameras_fts := cameras_fts db; meta := m |}.

(** The shadow row that [INSERT INTO cameras_fts ... SELECT ... FROM cameras]
    makes of a camera row. *)
Definition fts_of_camera (id newLabel : gostring) (c : CameraRow) : FtsRow :=
  {| fts_camera_id := id; fts_name := cam_name c; fts_site := cam_site c;
     fts_label := newLabel; fts_model := cam_model c;
     fts_serial := cam_serial c; fts_status := cam_status c;
     fts_timezone := cam_timezone c |}.

(** What a statement does to the tables.  A plain [INSERT] into a table with
    a primary key fails when the key is taken. *)
Definition sql_exec (s : stmt) (db : DB) : result DB :=
  match s with
  | CreateTableIfNotExists _ => Ok db
  | DeleteFromCameras => Ok (with_cameras db ∅)
  | DeleteFromLabels => Ok (with_labels db ∅)
  | DeleteFromCamerasFts => Ok (with_cameras_fts db [])
  | UpsertMeta key value => Ok (with_meta db (<[key := value]> (meta db)))
  | InsertCamera id row =>
      match cameras db !! id with
      | Some _ => Err "UNIQUE constraint failed: cameras.camera_id"
      | None => Ok (with_cameras db (<[id := row]> (cameras db)))
      end
  | InsertLabel id row =>
      match labels db !! id with
      | Some _ => Err "UNIQUE constraint failed: labels.camera_id"
      | None => Ok (with_labels db (<[id := row]> (labels db)))
      end
  | InsertCamerasFts row => Ok (with_cameras_fts db (cameras_fts db ++ [row]))
  | DeleteLabelWhere id => Ok (with_labels db (delete id (labels db)))
  | UpsertLabel id row => Ok (with_labels db (<[id := row]> (labels db)))
  | DeleteCamerasFtsWhere id =>
      Ok (with_cameras_fts db
            (filter (fun r => fts_camera_id r ≠ id) (cameras_fts db)))
  | InsertCamerasFtsSelect newLabel id =>
      match cameras db !! id with
      | Some c =>
          Ok (with_cameras_fts db
                (cameras_fts db ++ [fts_of_camera id newLabel c]))
      | None => Ok db
      end
  end.

(** What one call of [rebuildCamerasIndex] or [tryUpdateIndexLabel] meets
    outside the program.  The calls made to the database are counted, and
    any of them may fail (a lost file, a full disk, a busy database): a call
    that fails returns an error and leaves the tables as they are, and the
    calls after it may go through.  Besides that a statement fails when it
    breaks a primary key, and a pragma when SQLite does not know it. *)
Record World : Type := {
  (* time.Now().UTC().Unix() *)
  now : Z;
  (* whether os.MkdirAll succeeds *)
  MkdirAll_ok : bool;
  (* whether os.Stat fails on a file that exists *)
  Stat_fails : bool;
  (* json.Marshal *)
  json_Marshal : gmap gostring any -> result gostring;
  (* what selectedProfileNameFromConfig reads *)
  path_env : Env;
  (* whether SQLite accepts the pragmas *)
  pragmas_ok : bool;
  (* the calls that fail, by their number on the connection *)
  db_fails : nat -> bool
}.

(** The call number [n] goes through. *)
Definition db_ok (w : World) (n : nat) : bool := negb (db_fails w n).

(** The database is up until the call number [n]: no call fails before it,
    nor does it. *)
Definition db_up (w : World) (n : nat) : bool :=
  forallb (db_ok w) (seq 0 (S n)).

(** The connection: the tables as the connection sees them (inside a
    transaction, the uncommitted ones) and the number of calls made. *)
Record Conn : Type := { tables : DB; calls : nat }.

(** A computation on the connection that may return an error. *)
Definition DBM (A : Type) : Type := Conn -> result A * Conn.

Definition dbm_ret {A} (a : A) : DBM A := fun c => (Ok a, c).

Definition dbm_bind {A B} (m : DBM A) (k : A -> DBM B) : DBM B :=
  fun c =>
    match m c with
    | (Ok a, c') => k a c'
    | (Err e, c') => (Err e, c')
    end.

Notation "m1 ;; m2" := (dbm_bind m1 (fun _ => m2))
  (at level 100, m2 at level 200, right associativity).
Notation "x <- m1 ;; m2" := (dbm_bind m1 (fun x => m2))
  (at level 100, m1 at next level, m2 at level 200, right associativity).

(** [_, _ = f()]: the error is dropped and the code goes on. *)
Definition ignore_error {A} (m : DBM A) : DBM unit :=
  fun c => (Ok tt, snd (m c)).

(** [if err != nil { return err }] on a plain Go result. *)
Definition lift {A} (r : result A) : DBM A := fun c => (r, c).

Definition db_down : string := "database is not available".

(** One call to the database that acts on the tables by [f]. *)
Definition db_call (w : World) (f : DB -> result DB) : DBM unit :=
  fun c =>
    let n := S (calls c) in
    if db_ok w (calls c) then
      match f (tables c) with
      | Ok db => (Ok tt, {| tables := db; calls := n |})
      | Err e => (Err e, {| tables := tables c; calls := n |})
      end
    else (Err db_down, {| tables := tables c; calls := n |}).

(** [db.Exec], [tx.Exec] and [stmt.Exec]. *)
Definition Exec (w : World) (s : stmt) : DBM unit := db_call w (sql_exec s).
(** [sql.Open], [db.Begin], [tx.Prepare], [tx.Commit]: calls that may fail
    and leave the tables of the connection as they are. *)
Definition Open (w : World) : DBM unit := db_call w Ok.
Definition Begin (w : World) : DBM unit := db_call w Ok.
Definition Prepare (w : World) : DBM unit := db_call w Ok.
Definition Commit (w : World) : DBM unit := db_call w Ok.

(** [db.Exec] of a pragma: it changes no row, and fails when SQLite does not
    know it. *)
Definition Pragma (w : World) : DBM unit :=
  db_call w (fun db => if pragmas_ok w then Ok db else Err "unknown pragma").

Definition initCamerasIndexSchema (w : World) : DBM unit :=
  ignore_error (Pragma w) ;;
  ignore_error (Pragma w) ;;
  Exec w (CreateTableIfNotExists "meta") ;;
  Exec w (CreateTableIfNotExists "cameras") ;;
  Exec w (CreateTableIfNotExists "labels") ;;
  Exec w (CreateTableIfNotExists "cameras_fts").

Definition camerasIndexSchemaVersion : Z := 1.

Definition id_keys : list gostring :=
  go <$> ["camera_id"; "cameraId"; "cameraID"; "id"]%string.

(** The [camera_id] of a raw record. *)
Definition camera_id_of (c : gmap gostring any) : gostring :=
  pickString c id_keys.

Definition camera_row (now : Z) (raw : gostring) (c : gmap gostring any)
  : CameraRow :=
  {| cam_name := pickString c (go <$> ["name"; "device_name"; "deviceName"]%string);
     cam_site := pickString c (go <$> ["site"; "site_name"; "siteName"]%string);
     cam_model := pickString c (go <$> ["model"; "device_model"; "deviceModel"]%string);
     cam_serial := pickString c (go <$> ["serial"; "serial_number"; "serialNumber"]%string);
     cam_status := pickString c (go <$> ["status"; "camera_status"; "cameraStatus"]%string);
     cam_timezone := pickString c (go <$> ["timezone"; "time_zone"; "timeZone"]%string);
     cam_updated_at := now;
     cam_raw_json := raw |}.

(** [labels[id]], the empty string when the key is absent or the map nil. *)
Definition label_for (labels : gmap gostring gostring) (id : gostring) : gostring :=
  TrimSpace (default [] (labels !! id)).

(** The loop over [cams] of [rebuildCamerasIndex]. *)
Fixpoint insert_cams (w : World) (labels : gmap gostring gostring)
    (cams : list (gmap gostring any)) : DBM unit :=
  match cams with
  | [] => dbm_ret tt
  | c :: rest =>
      let id := camera_id_of c in
      match TrimSpace id with
      | [] => insert_cams w labels rest
      | _ =>
          raw <- lift (json_Marshal w c) ;;
          let row := camera_row (now w) raw c in
          Exec w (InsertCamera id row) ;;
          let label := label_for labels id in
          match label with
          | [] => dbm_ret tt
          | _ => Exec w (InsertLabel id {| lbl_label := label; lbl_updated_at := now w |})
          end ;;
          Exec w (InsertCamerasFts (fts_of_camera id label row)) ;;
          insert_cams w labels rest
      end
  end.

(** The statements of [rebuildCamerasIndex] between [db.Begin] and
    [tx.Commit]. *)
Definition rebuild_tx (w : World) (rf : rootFlags) (cfg : Config)
    (cams : list (gmap gostring any)) (labels : gmap gostring gostring)
  : DBM unit :=
  Exec w DeleteFromCameras ;;
  Exec w DeleteFromLabels ;;
  Exec w DeleteFromCamerasFts ;;
  Exec w (UpsertMeta (go "schema_version") (FormatInt camerasIndexSchemaVersion)) ;;
  Exec w (UpsertMeta (go "built_at") (FormatInt (now w))) ;;
  Exec w (UpsertMeta (go "base_url") (BaseURL cfg)) ;;
  Exec w (UpsertMeta (go "org_id") (OrgID cfg)) ;;
  Exec w (UpsertMeta (go "profile") (selectedProfileNameFromConfig (path_env w) rf)) ;;
  Prepare w ;;
  Prepare w ;;
  Prepare w ;;
  insert_cams w labels cams.

(** What a call leaves: the index file, the error returned, and the number
    of calls made to the database. *)
Record Outcome : Type := {
  store : Store;
  error : option string;
  db_calls : nat
}.

Definition rebuildCamerasIndex (w : World) (rf : rootFlags) (cfg : Config)
    (cams : list (gmap gostring any)) (labels : gmap gostring gostring)
    (st : Store) : Outcome :=
  if negb (MkdirAll_ok w) then
    {| store := st; error := Some "mkdir failed"%string; db_calls := 0 |}
  else
    match Open w {| tables := tables_of st; calls := 0 |} with
    | (Err e, c) => {| store := st; error := Some e; db_calls := calls c |}
    | (Ok _, c) =>
        match (initCamerasIndexSchema w ;; Begin w) c with
        | (Err e, c1) =>
            {| store := Some (tables c1); error := Some e; db_calls := calls c1 |}
        | (Ok _, c1) =>
            (* defer tx.Rollback(): without a commit the file keeps the
               tables it had at db.Begin *)
            match (rebuild_tx w rf cfg cams labels ;; Commit w) c1 with
            | (Err e, c2) =>
                {| store := Some (tables c1); error := Some e; db_calls := calls c2 |}
            | (Ok _, c2) =>
                {| store := Some (tables c2); error := None; db_calls := calls c2 |}
            end
        end
    end.

(** The statements of [tryUpdateIndexLabel] between [db.Begin] and the end;
    [label] is [None] for the nil pointer. *)
Definition patch_tx (w : World) (cameraID : gostring) (label : option gostring)
  : DBM unit :=
  match label with
  | None => ignore_error (Exec w (DeleteLabelWhere cameraID))
  | Some l =>
      match TrimSpace l with
      | [] => ignore_error (Exec w (DeleteLabelWhere cameraID))
      | _ =>
          ignore_error
            (Exec w (UpsertLabel cameraID
                       {| lbl_label := TrimSpace l; lbl_updated_at := now w |}))
      end
  end ;;
  ignore_error (Exec w (DeleteCamerasFtsWhere cameraID)) ;;
  let newLabel := match label with Some l => TrimSpace l | None => [] end in
  ignore_error (Exec w (InsertCamerasFtsSelect newLabel cameraID)) ;;
  Commit w.

Definition tryUpdateIndexLabel (w : World) (cameraID : gostring)
    (label : option gostring) (st : Store) : Store :=
  match TrimSpace cameraID with
  | [] => st
  | _ =>
      match st with
      | None => st
      | Some db =>
          if Stat_fails w then st
          else
            match (Open w ;; initCamerasIndexSchema w ;; Begin w)
                    {| tables := db; calls := 0 |} with
            | (Err _, _) => st
            | (Ok _, c1) =>
                match patch_tx w cameraID label c1 with
                | (Ok _, c2) => Some (tables c2)
                | (Err _, _) => Some (tables c1)
                end
            end
      end
  end.

End Index.

(** ** More of the Go library *)

(** [a < b] on Go strings: the order of the bytes, which on valid UTF-8 is
    the order of the code points. *)
Fixpoint string_lt (a b : gostring) : bool :=
  match a, b with
  | _, [] => false
  | [], _ :: _ => true
  | x :: a', y :: b' => (x <? y) || ((x =? y) && string_lt a' b')
  end.

(** [strings.HasPrefix] and [strings.Contains]. *)
Fixpoint HasPrefix (s prefix : gostring) : bool :=
  match prefix, s with
  | [], _ => true
  | p :: prefix', c :: s' => (c =? p) && HasPrefix s' prefix'
  | _ :: _, [] => false
  end.

Fixpoint Contains (s substr : gostring) : bool :=
  HasPrefix s substr
  || match s with
     | [] => false
     | _ :: s' => Contains s' substr
     end.

Definition maxUint64 : Z := 2 ^ 64 - 1.

Definition ErrSyntax : string := "invalid syntax".
Definition ErrRange : string := "value out of range".

(** The loop of [strconv.ParseUint(s, 10, 64)]: [n] is the number read so
    far.  A rune that is not a digit is a syntax error; a number above
    [maxUint64] is a range error, returned at the digit that overflows, the
    rest of the string unread. *)
Fixpoint ParseUint_loop (s : gostring) (n : Z) : Z * option string :=
  match s with
  | [] => (n, None)
  | c :: s' =>
      if is_digit_09 c then
        if n >=? maxUint64 / 10 + 1 then (maxUint64, Some ErrRange)
        else
          let n1 := n * 10 + (c - 48) in
          if n1 >? maxUint64 then (maxUint64, Some ErrRange)
          else ParseUint_loop s' n1
      else (0, Some ErrSyntax)
  end.

Definition ParseUint (s : gostring) : Z * option string :=
  match s with
  | [] => (0, Some ErrSyntax)
  | _ => ParseUint_loop s 0
  end.

(** [strconv.ParseInt(s, 10, 64)]: the value and the error.  The value is 0
    with a syntax error and the nearest [int64] with a range error. *)
Definition ParseInt (s : gostring) : Z * option string :=
  match s with
  | [] => (0, Some ErrSyntax)
  | c :: s' =>
      let neg := c =? 45 in
      let s1 := if (c =? 43) || (c =? 45) then s' else s in
      let '(un, err) := ParseUint s1 in
      if bool_decide (err = Some ErrSyntax) then (0, err)
      else
        let cutoff := 2 ^ 63 in
        if negb neg && (un >=? cutoff) then (cutoff - 1, Some ErrRange)
        else if neg && (un >? cutoff) then (- cutoff, Some ErrRange)
        else ((if neg then - un else un), None)
  end.

(** [strconv.Atoi] where [int] has 64 bits: its fast path for short strings
    returns what [ParseInt(s, 10, 0)] returns. *)
Definition Atoi (s : gostring) : Z * option string := ParseInt s.

(** ** The status of the index *)

Module Status.

Import Index.

(** [camerasIndexStatus]. *)
Record camerasIndexStatus : Type := {
  Exists : bool;
  Path : gostring;
  SchemaVersion : Z;
  BuiltAt : Z;
  CameraCount : Z;
  BaseURL : gostring;
  OrgID : gostring;
  Profile : gostring
}.

(** The error of [os.Stat] on a path that names no file: the one that
    [errors.Is(err, os.ErrNotExist)] recognizes. *)
Definition ErrNotExist : string := "file does not exist".

(** Another error of [os.Stat], on a file that exists. *)
Definition ErrStat : string := "stat failed".

(** [db.QueryRow(...).Scan(&v)] with its error dropped: a read of the tables
    that leaves [v] at its zero value [zero] when the call fails. *)
Definition QueryRow {A} (w : World) (zero : A) (read : DB -> A) (c : Conn)
  : A * Conn :=
  (if db_ok w (calls c) then read (tables c) else zero,
   {| tables := tables c; calls := S (calls c) |}).

(** The closure [getMeta]: a key without a row leaves [v] empty. *)
Definition getMeta (w : World) (key : gostring) : Conn -> gostring * Conn :=
  QueryRow w [] (fun db => default [] (meta db !! key)).

(** [SELECT COUNT(1) FROM cameras]. *)
Definition count_cameras (w : World) : Conn -> Z * Conn :=
  QueryRow w 0 (fun db => Z.of_nat (size (cameras db))).

Definition readCamerasIndexStatus (w : World) (path : gostring) (st : Store)
  : camerasIndexStatus * option string :=
  let s := {| Exists := false; Path := path; SchemaVersion := 0; BuiltAt := 0;
              CameraCount := 0; BaseURL := []; OrgID := []; Profile := [] |} in
  match st with
  | None => (s, Some ErrNotExist)
  | Some db =>
      if Stat_fails w then (s, Some ErrStat)
      else
        let s := {| Exists := true; Path := path; SchemaVersion := 0;
                    BuiltAt := 0; CameraCount := 0;
                    BaseURL := []; OrgID := []; Profile := [] |} in
        match Open w {| tables := db; calls := 0 |} with
        | (Err e, _) => (s, Some e)
        | (Ok _, c) =>
            match initCamerasIndexSchema w c with
            | (Err e, _) => (s, Some e)
            | (Ok _, c) =>
                let '(schema_version, c) := getMeta w (go "schema_version") c in
                let '(built_at, c) := getMeta w (go "built_at") c in
                let '(base_url, c) := getMeta w (go "base_url") c in
                let '(org_id, c) := getMeta w (go "org_id") c in
                let '(profile, c) := getMeta w (go "profile") c in
                let '(count, _) := count_cameras w c in
                ({| Exists := true; Path := path;
                    SchemaVersion := fst (Atoi schema_version);
                    BuiltAt := fst (ParseInt built_at);
                    CameraCount := count;
                    BaseURL := base_url; OrgID := org_id; Profile := profile |},
                 None)
            end
        end
  end.

End Status.

(** ** The search in the index *)

Module Search.

Import Query Index.

(** [camerasIndexSearchResult]. *)
Record camerasIndexSearchResult : Type := {
  CameraID : gostring;
  Rank : float64;
  Camera : gmap gostring any
}.

(** What a search meets besides the database calls of [World]: the FTS5
    engine of SQLite and the JSON decoder. *)
Record Engine : Type := {
  (* the rows of cameras_fts that MATCH the expression, each with its
     bm25 rank, in the order of ORDER BY rank ASC; an error when SQLite
     refuses the expression *)
  fts5_match : list FtsRow -> gostring -> result (list (FtsRow * float64));
  (* json.Unmarshal of raw_json into a map[string]any *)
  json_Unmarshal : gostring -> option (gmap gostring any)
}.

(** [JOIN cameras c ON c.camera_id = cameras_fts.camera_id]: the columns
    selected for the matching rows that have a camera row. *)
Definition join_cameras (db : DB) (rows : list (FtsRow * float64))
  : list (gostring * gostring * float64) :=
  omap (fun '(r, rank) =>
          c ← cameras db !! fts_camera_id r;
          Some (cam_raw_json c, fts_camera_id r, rank)) rows.

(** [db.Query] of the search statement, with [LIMIT ?]. *)
Definition db_Query (w : World) (e : Engine) (fts : gostring) (limit : Z)
  : DBM (list (gostring * gostring * float64)) :=
  fun c =>
    let c' := {| tables := tables c; calls := S (calls c) |} in
    if db_ok w (calls c) then
      match fts5_match e (cameras_fts (tables c)) fts with
      | Ok rows => (Ok (take (Z.to_nat limit) (join_cameras (tables c) rows)), c')
      | Err msg => (Err msg, c')
      end
    else (Err db_down, c').

(** The loop over [rows.Next()]: [n] is the number of calls made; a row
    that the database cannot deliver ends the loop with the error of
    [rows.Err()], a row whose [raw_json] does not decode is skipped. *)
Fixpoint read_rows (w : World) (e : Engine)
    (rows : list (gostring * gostring * float64)) (n : nat)
    (out : list camerasIndexSearchResult)
  : list camerasIndexSearchResult * option string :=
  match rows with
  | [] => (out, None)
  | (raw, cameraID, rank) :: rest =>
      if db_ok w n then
        match json_Unmarshal e raw with
        | None => read_rows w e rest (S n) out
        | Some cam =>
            read_rows w e rest (S n)
              (out ++ [{| CameraID := cameraID; Rank := rank; Camera := cam |}])
        end
      else (out, Some db_down)
  end.

(** The limit that the statement gets. *)
Definition clamp_limit (limit : Z) : Z :=
  let limit := if limit <=? 0 then 20 else limit in
  if limit >? 500 then 500 else limit.

Definition searchCamerasIndex (w : World) (e : Engine) (query : gostring)
    (limit : Z) (st : Store)
  : list camerasIndexSearchResult * option string :=
  match st with
  | None => ([], Some Status.ErrNotExist)
  | Some db =>
      if Stat_fails w then ([], Some Status.ErrStat)
      else
        let limit := clamp_limit limit in
        match buildFTSQuery query with
        | Err msg => ([], Some msg)
        | Ok fts =>
            match (Open w;; initCamerasIndexSchema w;; db_Query w e fts limit)
                    {| tables := db; calls := 0 |} with
            | (Err msg, _) => ([], Some msg)
            | (Ok rows, c) => read_rows w e rows (calls c) []
            end
        end
  end.

End Search.

(** ** The pages of the inventory *)

Module Listing.

Import Index.

(** What [json.Unmarshal] stores in an [any]. *)
#[warnings="-register-all"]
Inductive jvalue : Type :=
  | JNull
  | JBool (b : bool)
  | JNumber (t : float64)
  | JString (s : gostring)
  | JArray (arr : list jvalue)
  | JObject (m : gmap gostring jvalue).

(** A decoded value as the type switch of [pickString] sees it. *)
Definition to_any (v : jvalue) : any :=
  match v with
  | JString s => AString s
  | JNumber t => AFloat64 t
  | JBool b => ABool b
  | JNull | JArray _ | JObject _ => AOther
  end.

(** A decoded object as [pickString] reads it. *)
Definition fields (m : gmap gostring jvalue) : gmap gostring any := to_any <$> m.

(** [json.Unmarshal(body, &v)] for [v] of type [any]. *)
Definition Decoder : Type := gostring -> result jvalue.

Definition coerceMapSlice (arr : list jvalue) : list (gmap gostring jvalue) :=
  omap (fun it => match it with JObject m => Some m | _ => None end) arr.

(** [t[k].([]any)]. *)
Definition array_at (t : gmap gostring jvalue) (k : gostring)
  : option (list jvalue) :=
  match t !! k with
  | Some (JArray arr) => Some arr
  | _ => None
  end.

(** The loop over the envelope keys. *)
Fixpoint first_array (t : gmap gostring jvalue) (keys : list gostring)
  : option (list jvalue) :=
  match keys with
  | [] => None
  | k :: keys' =>
      match array_at t k with
      | Some arr => Some arr
      | None => first_array t keys'
      end
  end.

(** The values of [t] that are arrays. *)
Definition arrays_of (t : gmap gostring jvalue) : list (list jvalue) :=
  omap (fun kv => match snd kv with JArray arr => Some arr | _ => None end)
       (map_to_list t).

Definition extractDeviceArray (decode : Decoder) (body : gostring)
  : result (list (gmap gostring jvalue)) :=
  match decode body with
  | Err e => Err e
  | Ok (JArray t) => Ok (coerceMapSlice t)
  | Ok (JObject t) =>
      match first_array t (go <$> ["cameras"; "devices"; "data"; "results"]%string) with
      | Some arr => Ok (coerceMapSlice arr)
      | None =>
          (* the result of the loop over the fields does not depend on the
             order in which the map is ranged over *)
          match arrays_of t with
          | [] => Err "no device array found in response"
          | [only] => Ok (coerceMapSlice only)
          | _ => Err "ambiguous response: multiple arrays present"
          end
      end
  | Ok _ => Err "unexpected JSON shape"
  end.

(** The name of a JSON value in the text of a [json.UnmarshalTypeError]. *)
Definition json_kind (v : jvalue) : string :=
  match v with
  | JNull => "null"
  | JBool _ => "bool"
  | JNumber _ => "number"
  | JString _ => "string"
  | JArray _ => "array"
  | JObject _ => "object"
  end.

(** [json.Unmarshal(body, &m)] for [m] of type [map[string]any]: [null]
    leaves the map nil, a value that is not an object is an error, which
    names what the value is. *)
Definition decode_object (decode : Decoder) (body : gostring)
  : result (gmap gostring jvalue) :=
  match decode body with
  | Err e => Err e
  | Ok (JObject m) => Ok m
  | Ok JNull => Ok ∅
  | Ok v =>
      Err ("json: cannot unmarshal " ++ json_kind v
           ++ " into Go value of type map[string]interface {}")
  end.

Definition token_keys : list gostring :=
  go <$> ["next_page_token"; "nextPageToken"; "next_page"; "nextPage"]%string.

Definition extractCamerasAndNextToken (decode : Decoder) (body : gostring)
  : result (list (gmap gostring jvalue) * gostring) :=
  match decode_object decode body with
  | Err e => Err e
  | Ok m =>
      match array_at m (go "cameras") with
      | Some arr => Ok (coerceMapSlice arr, pickString (fields m) token_keys)
      | None =>
          match array_at m (go "devices") with
          | Some arr => Ok (coerceMapSlice arr, pickString (fields m) token_keys)
          | None => Err "missing cameras array"
          end
      end
  end.

(** [looksLikeHTML]. *)
Definition looksLikeHTML (contentType body : gostring) : bool :=
  let ct := ToLower contentType in
  if Contains ct (go "text/html") || Contains ct (go "application/xhtml") then true
  else
    let trim := TrimSpace body in
    match trim with
    | [] => false
    | _ =>
        let s := ToLower trim in
        HasPrefix s (go "<!doctype html") || HasPrefix s (go "<html")
        || Contains s (go "<title>verkada</title>")
    end.

(** [doCamerasDevicesRequest]: the answer to the [n]-th request, made with
    the page token [next] and the page size [pageSize]: the body and the
    status, or an error. *)
Definition Server : Type := nat -> gostring -> Z -> result (gostring * Z).

Definition html_error : string :=
  "received HTML instead of camera JSON (check --base-url is https://api(.eu|.au).verkada.com and auth headers x-api-key / x-verkada-auth)".

Definition status_error (status : Z) : string :=
  "request failed with status " ++ NilEmpty.string_of_int (Z.to_int status).

(** The loop of [fetchAllCameras], for at most [fuel] requests: [None] when
    the loop goes on after them. *)
Fixpoint fetch_pages (fuel : nat) (server : Server) (decode : Decoder)
    (n : nat) (next : gostring) (pageSize : Z)
    (agg : list (gmap gostring jvalue))
  : option (result (list (gmap gostring jvalue))) :=
  match fuel with
  | O => None
  | S fuel' =>
      match server n next pageSize with
      | Err e => Some (Err e)
      | Ok (b, status) =>
          if looksLikeHTML [] b then Some (Err html_error)
          else if status >=? 400 then Some (Err (status_error status))
          else
            match extractCamerasAndNextToken decode b with
            | Err e => Some (Err e)
            | Ok (cams, token) =>
                let agg := agg ++ cams in
                match TrimSpace token with
                | [] => Some (Ok agg)
                | _ => fetch_pages fuel' server decode (S n) token pageSize agg
                end
            end
      end
  end.

(** The page size that the requests are made with. *)
Definition clamp_pageSize (pageSize : Z) : Z :=
  let pageSize := if pageSize <=? 0 then 200 else pageSize in
  if pageSize >? 200 then 200 else pageSize.

(** The [less] function that [fetchAllCameras] gives to [sort.Slice], on
    records as [pickString] reads them, and on decoded objects. *)
Definition less (a b : gmap gostring any) : bool :=
  string_lt (camera_id_of a) (camera_id_of b).

Definition less_id (a b : gmap gostring jvalue) : bool :=
  less (fields a) (fields b).

Section Fetch.

(** [sort.Slice(agg, less)]: the order it leaves among records that are not
    less than one another is not fixed by its contract. *)
Variable sort_Slice :
  list (gmap gostring jvalue) ->
  (gmap gostring jvalue -> gmap gostring jvalue -> bool) ->
  list (gmap gostring jvalue).

Definition fetchAllCameras (fuel : nat) (server : Server) (decode : Decoder)
    (pageSize : Z) : option (result (list (gmap gostring jvalue))) :=
  let pageSize := clamp_pageSize pageSize in
  match fetch_pages fuel server decode 0 [] pageSize [] with
  | None => None
  | Some (Err e) => Some (Err e)
  | Some (Ok agg) => Some (Ok (sort_Slice agg less_id))
  end.

End Fetch.

End Listing.

(** ** The build command *)

Module Build.

Import Path Index Listing.

Section Command.

Variable sort_Slice :
  list (gmap gostring jvalue) ->
  (gmap gostring jvalue -> gmap gostring jvalue -> bool) ->
  list (gmap gostring jvalue).

(** The [RunE] of [newCamerasIndexBuildCmd], once [effectiveConfig] has
    returned [cfg]; [labels] is [cfg.Labels.Cameras], empty when there is
    none.  [None] when the fetch goes on after [fuel] requests. *)
Definition newCamerasIndexBuildCmd (w : World) (fuel : nat) (server : Server)
    (decode : Decoder) (rf : rootFlags) (cfg : Config)
    (labels : gmap gostring gostring) (pageSize : Z) (st : Store)
  : option Outcome :=
  match camerasIndexPath (path_env w) rf cfg with
  | Err e => Some {| store := st; error := Some e; db_calls := 0 |}
  | Ok _ =>
      match fetchAllCameras sort_Slice fuel server decode pageSize with
      | None => None
      | Some (Err e) => Some {| store := st; error := Some e; db_calls := 0 |}
      | Some (Ok cams) =>
          Some (rebuildCamerasIndex w rf cfg (fields <$> cams) labels st)
      end
  end.

End Command.

End Build.

(** ** The listing of cameras *)

Module Table.

Import Index Listing.

(** The UTF-8 bytes of a rune, for the code points of valid text. *)
Definition utf8 (r : rune) : list Z :=
  if r <? 0x80 then [r]
  else if r <? 0x800 then [0xC0 + r / 64; 0x80 + r mod 64]
  else if r <? 0x10000 then
    [0xE0 + r / 4096; 0x80 + (r / 64) mod 64; 0x80 + r mod 64]
  else
    [0xF0 + r / 262144; 0x80 + (r / 4096) mod 64;
     0x80 + (r / 64) mod 64; 0x80 + r mod 64].

(** The bytes of a Go string: what [len(s)] counts and [s[:n]] cuts. *)
Definition bytes_of (s : gostring) : list Z := s ≫= utf8.

(** [trunc]: the result is given by its bytes, since [s[:n]] may cut a rune
    of several bytes. *)
Definition trunc (s : gostring) (n : Z) : list Z :=
  let s := bytes_of (TrimSpace s) in
  if n <=? 0 then []
  else if Z.of_nat (length s) <=? n then s
  else if n <=? 1 then take (Z.to_nat n) s
  else if n <=? 3 then take (Z.to_nat n) s
  else take (Z.to_nat (n - 3)) s ++ bytes_of (go "...").

Section Filter.

(** [strings.ToLower] with the whole case table of Unicode. *)
Variable strings_ToLower : gostring -> gostring.

(** [labels.Cameras[id]]: [labels] is empty for a nil pointer or map. *)
Definition keeps (cameraID q : gostring) (labels : gmap gostring gostring)
    (c : gmap gostring jvalue) : bool :=
  let id := pickString (fields c) id_keys in
  let name := pickString (fields c) (go <$> ["name"; "device_name"; "deviceName"]%string) in
  let site := pickString (fields c) (go <$> ["site"; "site_name"; "siteName"]%string) in
  let label := default [] (labels !! id) in
  if negb (bool_decide (cameraID = [])) && negb (bool_decide (id = cameraID))
  then false
  else
    match q with
    | [] => true
    | _ =>
        let hay := strings_ToLower (Join [id; name; site; label] (go " ")) in
        Contains hay q
    end.

Definition filterCameras (cams : list (gmap gostring jvalue))
    (cameraID q : gostring) (labels : gmap gostring gostring)
  : list (gmap gostring jvalue) :=
  let cameraID := TrimSpace cameraID in
  let q := strings_ToLower (TrimSpace q) in
  match cameraID, q with
  | [], [] => cams
  | _, _ => List.filter (keeps cameraID q labels) cams
  end.

End Filter.

End Table.

(** ** The configuration *)

Module Cfg.

Record AuthConfig : Type := {
  APIKey : gostring;
  Token : gostring;
  TokenAcquiredAt : Z
}.

(** [LocalLabels]; a nil map is [None]. *)
Record LocalLabels : Type := { Cameras : option (gmap gostring gostring) }.

(** [Config] with all its fields; a nil map or pointer is [None]. *)
Record Config : Type := {
  BaseURL : gostring;
  OrgID : gostring;
  Auth : AuthConfig;
  Headers : option (gmap gostring gostring);
  Labels : option LocalLabels
}.

(** [ConfigFile]; its legacy fields [BaseURL], [Auth] and [Headers] are
    named apart from those of [Config]. *)
Record ConfigFile : Type := {
  CurrentProfile : gostring;
  Profiles : option (gmap gostring Config);
  LegacyBaseURL : gostring;
  LegacyAuth : option AuthConfig;
  LegacyHeaders : option (gmap gostring gostring)
}.

(** The flags of [rootFlags] that the configuration reads. *)
Record rootFlags : Type := {
  Profile : gostring;
  FlagBaseURL : gostring;
  FlagOrgID : gostring;
  FlagAPIKey : gostring;
  FlagToken : gostring
}.

(** [strings.TrimSpace(s) != ""]. *)
Definition not_blank (s : gostring) : bool :=
  match TrimSpace s with
  | [] => false
  | _ => true
  end.

(** [envFirst]: [env] holds the variables that are set. *)
Fixpoint envFirst (env : gmap gostring gostring) (def : gostring)
    (keys : list gostring) : gostring :=
  match keys with
  | [] => def
  | k :: keys' =>
      match env !! k with
      | Some v => v
      | None => envFirst env def keys'
      end
  end.

(** The loop of [normalizeConfigFile] over the profiles. *)
Definition ensure_maps (p : Config) : Config :=
  {| BaseURL := BaseURL p; OrgID := OrgID p; Auth := Auth p;
     Headers := Some (default ∅ (Headers p));
     Labels :=
       match Labels p with
       | None => Some {| Cameras := Some ∅ |}
       | Some l => Some {| Cameras := Some (default ∅ (Cameras l)) |}
       end |}.

Section Normalize.

(** [for name := range cfg.Profiles { ...; break }]: a name of the map,
    which one is not fixed. *)
Variable range_first : gmap gostring Config -> gostring.

Definition normalizeConfigFile (cfg : ConfigFile) : ConfigFile :=
  let profiles := default ∅ (Profiles cfg) in
  let legacyHasData :=
    not_blank (LegacyBaseURL cfg)
    || match LegacyAuth cfg with
       | Some a => not_blank (APIKey a) || not_blank (Token a)
       | None => false
       end
    || bool_decide (LegacyHeaders cfg ≠ None) in
  let profiles :=
    if legacyHasData then
      match profiles !! go "default" with
      | Some _ => profiles
      | None =>
          <[go "default" :=
              {| BaseURL := LegacyBaseURL cfg; OrgID := [];
                 Auth := default {| APIKey := []; Token := []; TokenAcquiredAt := 0 |}
                           (LegacyAuth cfg);
                 Headers := Some (default ∅ (LegacyHeaders cfg));
                 Labels := None |}]> profiles
      end
    else profiles in
  let current :=
    if legacyHasData && negb (not_blank (CurrentProfile cfg)) then go "default"
    else CurrentProfile cfg in
  let profiles := ensure_maps <$> profiles in
  let current :=
    if negb (not_blank current) && (0 <? Z.of_nat (size profiles)) then
      match profiles !! go "default" with
      | Some _ => go "default"
      | None => range_first profiles
      end
    else current in
  {| CurrentProfile := current; Profiles := Some profiles;
     LegacyBaseURL := LegacyBaseURL cfg; LegacyAuth := LegacyAuth cfg;
     LegacyHeaders := LegacyHeaders cfg |}.

(** [loadConfig], of the file as [os.ReadFile] and [json.Unmarshal] give
    it. *)
Definition loadConfig (decoded : result ConfigFile) : result ConfigFile :=
  match decoded with
  | Err e => Err e
  | Ok cfg => Ok (normalizeConfigFile cfg)
  end.

Definition profile_keys : list gostring :=
  go <$> ["VERKCLI_PROFILE"; "VERKADA_PROFILE"]%string.

Definition base_url_keys : list gostring :=
  go <$> ["VERKCLI_BASE_URL"; "VERKADA_BASE_URL"]%string.
Definition org_id_keys : list gostring :=
  go <$> ["VERKCLI_ORG_ID"; "VERKADA_ORG_ID"]%string.
Definition api_key_keys : list gostring :=
  go <$> ["VERKCLI_API_KEY"; "VERKADA_API_KEY"]%string.
Definition auth_token_keys : list gostring :=
  go <$> ["VERKCLI_TOKEN"; "VERKADA_TOKEN"]%string.

(** [if v != "" { field = v }]. *)
Definition override (v field : gostring) : gostring :=
  match v with
  | [] => field
  | _ => v
  end.

(** [effectiveProfileConfig]: [decoded] is the configuration file at the
    path of [resolveConfigPath], or the error met on the way to it. *)
Definition effectiveProfileConfig (env : gmap gostring gostring)
    (decoded : result ConfigFile) (rf : rootFlags)
  : result (gostring * Config) :=
  match loadConfig decoded with
  | Err e => Err e
  | Ok cf =>
      let profileName :=
        firstNonEmpty [Profile rf; envFirst env [] profile_keys;
                       CurrentProfile cf; go "default"] in
      match default ∅ (Profiles cf) !! profileName with
      | None => Err "profile not found"
      | Some profile =>
          let baseURL :=
            override (envFirst env [] base_url_keys) (BaseURL profile) in
          let orgID :=
            override (envFirst env [] org_id_keys) (OrgID profile) in
          let apiKey :=
            override (envFirst env [] api_key_keys) (APIKey (Auth profile)) in
          let token :=
            override (envFirst env [] auth_token_keys) (Token (Auth profile)) in
          let baseURL := override (FlagBaseURL rf) baseURL in
          let orgID := override (FlagOrgID rf) orgID in
          let apiKey := override (FlagAPIKey rf) apiKey in
          let token := override (FlagToken rf) token in
          match baseURL with
          | [] => Err "base URL is empty (set in config, VERKCLI_BASE_URL / VERKADA_BASE_URL, or --base-url)"
          | _ =>
              Ok (profileName,
                  {| BaseURL := baseURL; OrgID := orgID;
                     Auth := {| APIKey := apiKey; Token := token;
                                TokenAcquiredAt := TokenAcquiredAt (Auth profile) |};
                     Headers := Some (default ∅ (Headers profile));
                     Labels := Labels profile |})
          end
      end
  end.

End Normalize.

(** What [selectedProfileNameFromConfig] reads of the same environment and
    the same file: it loads the file once more, and the range over the
    profiles in this load, [range_first'], is another one than that of the
    load of [effectiveProfileConfig]. *)
Definition index_env (range_first' : gmap gostring Config -> gostring)
    (env : gmap gostring gostring)
    (decoded : result ConfigFile) (cacheDir : result gostring)
    (host : gostring -> option gostring) : Path.Env :=
  {| Path.UserCacheDir := cacheDir;
     Path.url_Parse_Host := host;
     Path.env_profile := envFirst env [] profile_keys;
     Path.config_current_profile :=
       match loadConfig range_first' decoded with
       | Ok cf => Some (CurrentProfile cf)
       | Err _ => None
       end |}.

End Cfg.

(** * Properties

    First the definitions that the properties of the index are stated
    with, then the proofs. *)

Import Query Path Index.

(** ** Tokens and queries *)

(** The runes that tokens are made of. *)
Definition is_token_rune (r : rune) : bool := is_lower_az r || is_digit_09 r.

(** Whether [s] begins inside a field of [strings.Fields]. *)
Definition starts_word (s : gostring) : bool :=
  match s with
  | r :: _ => negb (unicode_IsSpace r)
  | [] => false
  end.

(** What the tokenizer writes for the rune [r] of the query. *)
Definition norm (r : rune) : rune := token_rune (unicode_ToLower r).

(** The runes that end a token: those that are not, once lowered, an ASCII
    lower-case letter or digit. *)
Definition is_separator (r : rune) : bool :=
  negb (is_token_rune (unicode_ToLower r)).

(** Every maximal run of runes of the class [sep] is replaced by one
    space. *)
Fixpoint squeeze (sep : rune -> bool) (s : gostring) : gostring :=
  match s with
  | [] => []
  | r :: s' =>
      if sep r then
        match s' with
        | [] => [32]
        | r' :: _ => if sep r' then squeeze sep s' else 32 :: squeeze sep s'
        end
      else r :: squeeze sep s'
  end.

(** The ASCII letters and digits. *)
Definition is_ascii_alnum (r : rune) : bool :=
  in_range 65 90 r || is_lower_az r || is_digit_09 r.

(** The two capitals outside ASCII that [unicode.ToLower] takes to an ASCII
    letter. *)
Definition lowers_into_ascii (r : rune) : bool := (r =? 0x130) || (r =? 0x212A).

(** The runes that are not ASCII letters or digits, the two capitals that
    lower to an ASCII letter apart: punctuation, spaces, symbols, and the
    letters and digits of other scripts. *)
Definition is_punctuation (r : rune) : bool :=
  negb (is_ascii_alnum r) && negb (lowers_into_ascii r).

(** A token: not empty, ASCII lower-case letters and digits only. *)
Definition is_token (t : gostring) : Prop :=
  t ≠ [] /\ Forall (fun r => is_token_rune r = true) t.

(** The tokens that the filter loop keeps. *)
Definition searchable (t : gostring) : Prop := is_stopword t = false.

Global Instance searchable_dec t : Decision (searchable t).
Proof. unfold searchable. apply _. Defined.

(** The terms that a query is built from: the tokens that are not
    stopwords, or all tokens when every one is a stopword. *)
Definition search_tokens (q : gostring) : list gostring :=
  match filter searchable (tokenizeQuery q) with
  | [] => tokenizeQuery q
  | kept => kept
  end.

(** The prefix term of a token. *)
Definition star (t : gostring) : gostring := t ++ go "*".

(** ** Field extraction *)

(** The text that [pickString] returns for the key [k], when [m] holds a
    value of a printable type under it. *)
Definition text_at (m : gmap gostring any) (k : gostring) : option gostring :=
  m !! k ≫= stringOf.

(** The extraction as the specification words it: the candidate keys in
    order, the first value that is not empty. *)
Fixpoint first_non_empty_value (m : gmap gostring any) (keys : list gostring)
  : gostring :=
  match keys with
  | [] => []
  | k :: keys' =>
      match text_at m k with
      | Some (r :: s) => r :: s
      | _ => first_non_empty_value m keys'
      end
  end.

(** A record with an empty [name] and a [device_name]. *)
Definition lobby_record : gmap gostring any :=
  {[ go "name" := AString []; go "device_name" := AString (go "Lobby") ]}.

(** The candidate keys of the name of a camera. *)
Definition name_keys : list gostring :=
  go <$> ["name"; "device_name"; "deviceName"]%string.

(** ** Paths *)

(** The runes of [a-z0-9._-]. *)
Definition is_path_rune (r : rune) : bool :=
  is_lower_az r || is_digit_09 r || (r =? 46) || (r =? 45) || (r =? 95).

Definition underscore : rune := 95.

(** What [sanitizePathComponent] promises of a path component. *)
Record sanitized (c : gostring) : Prop := {
  sanitized_nonempty : c ≠ [];
  sanitized_runes : Forall (fun r => is_path_rune r = true) c;
  sanitized_head : forall r t, c = r :: t -> r ≠ underscore;
  sanitized_last : forall t r, c = t ++ [r] -> r ≠ underscore
}.

Definition no_slash (e : gostring) : Prop := slash ∉ e.

(** An element that [filepath.Clean] keeps where it is. *)
Definition plain (e : gostring) : Prop := e ≠ [] /\ e ≠ dot /\ e ≠ dotdot.

(** The elements kept by [filepath.Clean]: plain ones over a run of [..]
    that only a path that is not rooted can have. *)
Definition clean_stack (rooted : bool) (out : list gostring) : Prop :=
  exists tops dots,
    out = tops ++ dots /\ Forall plain tops /\ Forall (fun e => e = dotdot) dots
    /\ (rooted = true -> dots = []).

(** The elements that [filepath.Clean] keeps of [s], last one first. *)
Definition stack_of (s : gostring) : list gostring :=
  fold_left (clean_step (is_rooted s)) (split_path s) [].

(** The elements of the path above the partition. *)
Definition index_root (cacheDir : gostring) : gostring :=
  Join (drop_empty [cacheDir; go "verkcli"; go "index"]) [slash].

(** The path of the index of the partition [(host, org, profile)], for
    sanitized names that are not [.] or [..]. *)
Definition partition_path (cacheDir host org profile : gostring) : gostring :=
  render (is_rooted (index_root cacheDir))
    (go "cameras.sqlite" :: profile :: org :: host
       :: stack_of (index_root cacheDir)).

(** The names of the partition of an index: host, organisation, profile,
    each one sanitized. *)
Definition index_components (env : Env) (rf : rootFlags) (cfg : Config)
  : gostring * gostring * gostring :=
  (sanitizePathComponent (index_host env cfg),
   sanitizePathComponent (firstNonEmpty [OrgID cfg; go "no-org"]),
   sanitizePathComponent
     (firstNonEmpty [selectedProfileNameFromConfig env rf; go "default"])).

(** No name of the partition is [.] or [..]. *)
Definition no_dots (c : gostring * gostring * gostring) : Prop :=
  let '(h, o, p) := c in
  h ≠ dot /\ h ≠ dotdot /\ o ≠ dot /\ o ≠ dotdot /\ p ≠ dot /\ p ≠ dotdot.

Definition all_sanitized (c : gostring * gostring * gostring) : Prop :=
  let '(h, o, p) := c in sanitized h /\ sanitized o /\ sanitized p.

(** ** The index store *)

(** A computation that leaves the rows of the connection as they are. *)
Definition keeps_tables {A} (m : DBM A) : Prop :=
  forall c r c', m c = (r, c') -> tables c' = tables c.

(** The records that are indexed: those whose [camera_id] is not blank. *)
Definition has_id (c : gmap gostring any) : Prop :=
  TrimSpace (camera_id_of c) ≠ [].

Global Instance has_id_dec c : Decision (has_id c).
Proof. unfold has_id. apply _. Defined.

Definition indexed (cams : list (gmap gostring any))
  : list (gmap gostring any) :=
  filter has_id cams.

(** The rows that a rebuild makes of the record [c]. *)
Definition raw_json_of (w : World) (c : gmap gostring any) : gostring :=
  match json_Marshal w c with
  | Ok raw => raw
  | Err _ => []
  end.

Definition camera_entry (w : World) (c : gmap gostring any)
  : gostring * CameraRow :=
  (camera_id_of c, camera_row (now w) (raw_json_of w c) c).

Definition label_entry (w : World) (lbls : gmap gostring gostring)
    (c : gmap gostring any) : option (gostring * LabelRow) :=
  match label_for lbls (camera_id_of c) with
  | [] => None
  | l => Some (camera_id_of c, {| lbl_label := l; lbl_updated_at := now w |})
  end.

Definition shadow_entry (w : World) (lbls : gmap gostring gostring)
    (c : gmap gostring any) : FtsRow :=
  fts_of_camera (camera_id_of c) (label_for lbls (camera_id_of c))
    (camera_row (now w) (raw_json_of w c) c).

(** The tables that reflect the input of a rebuild: a camera row and a
    shadow row for every indexed record, a label row for every one of them
    that has a label, and the metadata of this build over the old ones. *)
Definition rebuilt (w : World) (rf : rootFlags) (cfg : Config)
    (cams : list (gmap gostring any)) (lbls : gmap gostring gostring)
    (old : DB) : DB :=
  {| cameras := list_to_map (camera_entry w <$> indexed cams);
     labels := list_to_map (omap (label_entry w lbls) (indexed cams));
     cameras_fts := shadow_entry w lbls <$> indexed cams;
     meta :=
       <[go "profile" := selectedProfileNameFromConfig (path_env w) rf]>
       (<[go "org_id" := OrgID cfg]>
       (<[go "base_url" := BaseURL cfg]>
       (<[go "built_at" := FormatInt (now w)]>
       (<[go "schema_version" := FormatInt camerasIndexSchemaVersion]>
          (meta old))))) |}.

(** The text that a patch leaves as label: blank and nil remove the label. *)
Definition patch_label (label : option gostring) : gostring :=
  match label with
  | Some l => TrimSpace l
  | None => []
  end.

(** The tables after the three statements of a patch. *)
Definition patched (w : World) (cameraID : gostring) (label : option gostring)
    (db : DB) : DB :=
  {| cameras := cameras db;
     labels :=
       match patch_label label with
       | [] => delete cameraID (labels db)
       | l => <[cameraID := {| lbl_label := l; lbl_updated_at := now w |}]> (labels db)
       end;
     cameras_fts :=
       filter (fun r => fts_camera_id r ≠ cameraID) (cameras_fts db)
       ++ match cameras db !! cameraID with
          | Some c => [fts_of_camera cameraID (patch_label label) c]
          | None => []
          end;
     meta := meta db |}.

(** The tables after a patch of which statements have failed: [l], [d] and
    [i] tell whether the statement of the label row, the DELETE and the
    INSERT of the shadow row went through. *)
Definition patched_by (l d i : bool) (w : World) (cameraID : gostring)
    (label : option gostring) (db : DB) : DB :=
  {| cameras := cameras db;
     labels := if l then labels (patched w cameraID label db) else labels db;
     cameras_fts :=
       (if d then filter (fun r => fts_camera_id r ≠ cameraID) (cameras_fts db)
        else cameras_fts db)
       ++ (if i then
             match cameras db !! cameraID with
             | Some c => [fts_of_camera cameraID (patch_label label) c]
             | None => []
             end
           else []);
     meta := meta db |}.

(** The statement that sets or removes the label row. *)
Definition label_stmt (w : World) (cameraID : gostring) (label : option gostring)
  : stmt :=
  match patch_label label with
  | [] => DeleteLabelWhere cameraID
  | l => UpsertLabel cameraID {| lbl_label := l; lbl_updated_at := now w |}
  end.

(** The label that the labels table holds for a camera, empty without a row. *)
Definition stored_label (db : DB) (id : gostring) : gostring :=
  match labels db !! id with
  | Some l => lbl_label l
  | None => []
  end.

(** The cameras that have a shadow row. *)
Definition shadow_ids (db : DB) : gset gostring :=
  list_to_set (fts_camera_id <$> cameras_fts db).

(** The shadow table has the cameras of the cameras table, and every shadow
    row the label of the labels table. *)
Definition shadow_consistent (db : DB) : Prop :=
  shadow_ids db = dom (cameras db)
  /\ forall r, r ∈ cameras_fts db -> fts_label r = stored_label db (fts_camera_id r).

(** The shadow rows, by camera and label. *)
Definition shadow_labels (st : Store) : list (gostring * gostring) :=
  (fun r => (fts_camera_id r, fts_label r)) <$> cameras_fts (tables_of st).

(** ** What a rebuild depends on *)

(** The rows of the three tables that a rebuild empties. *)
Definition same_rows (a b : DB) : Prop :=
  cameras a = cameras b /\ labels a = labels b /\ cameras_fts a = cameras_fts b.

(** Any two tables. *)
Definition any_rows (a b : DB) : Prop := True.

(** [f] gives the same error on tables related by [P], or tables related by
    [Q]. *)
Definition respects (P Q : DB -> DB -> Prop) (f : DB -> result DB) : Prop :=
  forall a b, P a b ->
    match f a, f b with
    | Ok a', Ok b' => Q a' b'
    | Err e, Err e' => e = e'
    | _, _ => False
    end.

(** A computation that, run at the same call over tables related by [P],
    returns the same result after the same calls, and leaves tables related
    by [Q] when it returns no error. *)
Definition blind (P Q : DB -> DB -> Prop) {A} (m : DBM A) : Prop :=
  forall c c', calls c = calls c' -> P (tables c) (tables c') ->
    fst (m c) = fst (m c')
    /\ calls (snd (m c)) = calls (snd (m c'))
    /\ (is_err (fst (m c)) = false -> Q (tables (snd (m c))) (tables (snd (m c')))).

(** What [sort.Slice] leaves: no record is less than one before it. *)
Definition sorted_by_id (l : list (gmap gostring any)) : Prop :=
  StronglySorted (fun a b => Listing.less b a = false) l.

(** One shadow row for a camera at most. *)
Definition shadow_rows_unique (db : DB) : Prop :=
  NoDup (fts_camera_id <$> cameras_fts db).

(** Whether a patch is committed: the camera id is not blank, [os.Stat]
    finds the file, and the calls at whose error the patch returns go
    through: [sql.Open], the call 0, the four statements of the schema, the
    calls 3 to 6 (the two pragmas before them may fail), [db.Begin], the
    call 7, and [tx.Commit], the call 11. *)
Definition patch_commits (w : World) (cameraID : gostring) : bool :=
  bool_decide (TrimSpace cameraID ≠ []) && negb (Stat_fails w)
  && forallb (db_ok w) [0; 3; 4; 5; 6; 7; 11]%nat.

(** The three statements of a patch, whose errors are dropped, go through:
    the statement of the label row is the call 8, the DELETE and the INSERT
    of the shadow row are the calls 9 and 10. *)
Definition patch_statements_run (w : World) : bool :=
  forallb (db_ok w) [8; 9; 10]%nat.

(** No statement of the patch fails in a transaction that is committed. *)
Definition patch_whole (w : World) (cameraID : gostring) : bool :=
  negb (patch_commits w cameraID) || patch_statements_run w.

(** ** Numbers and status *)

(** The number that the digits [s] make after the number [n]. *)
Definition digits_value (n : Z) (s : gostring) : Z :=
  fold_left (fun a r => a * 10 + (r - 48)) s n.

(** What a status reads from tables that can be read: the metadata parsed,
    and the number of camera rows. *)
Definition status_of (path : gostring) (db : DB) : Status.camerasIndexStatus :=
  let text key := default [] (meta db !! go key) in
  {| Status.Exists := true; Status.Path := path;
     Status.SchemaVersion := fst (Atoi (text "schema_version"%string));
     Status.BuiltAt := fst (ParseInt (text "built_at"%string));
     Status.CameraCount := Z.of_nat (size (cameras db));
     Status.BaseURL := text "base_url"%string;
     Status.OrgID := text "org_id"%string;
     Status.Profile := text "profile"%string |}.

(** ** The expression given to MATCH *)

(** The runes of a MATCH expression: those of the tokens, the star of a
    prefix term, and the runes of [" AND "]. *)
Definition is_match_rune (r : rune) : bool :=
  is_token_rune r || bool_decide (r ∈ go "* AND").

(** ** Blank strings *)

(** A string of white space only. *)
Definition blank (v : gostring) : Prop := TrimSpace v = [].

(** ** Pages and listings *)

(** The envelope keys of [extractDeviceArray]. *)
Definition envelope_keys : list gostring :=
  go <$> ["cameras"; "devices"; "data"; "results"]%string.

(** The requests that [fetchAllCameras] can make: the first one without a
    page token, the later ones with a token that is not blank. *)
Definition is_request (n : nat) (next : gostring) : Prop :=
  match n with
  | O => next = []
  | S _ => TrimSpace next ≠ []
  end.

(** A server that answers every request with a page and a token for the
    next one. *)
Definition endless (server : Listing.Server) (decode : Listing.Decoder)
    (pageSize : Z) : Prop :=
  forall n next, exists b status cams token,
    server n next pageSize = Ok (b, status)
    /\ Listing.looksLikeHTML [] b = false
    /\ status < 400
    /\ Listing.extractCamerasAndNextToken decode b = Ok (cams, token)
    /\ TrimSpace token ≠ [].

(** What [sort.Slice] promises of the list [l] sorted by [less_id]: the same
    records, none less than one before it. *)
Definition sorts (sort_Slice :
    list (gmap gostring Listing.jvalue) ->
    (gmap gostring Listing.jvalue -> gmap gostring Listing.jvalue -> bool) ->
    list (gmap gostring Listing.jvalue))
    (l : list (gmap gostring Listing.jvalue)) : Prop :=
  sort_Slice l Listing.less_id ≡ₚ l
  /\ StronglySorted (fun a b => Listing.less_id b a = false)
       (sort_Slice l Listing.less_id).

(** The records of all pages, in the order of the pages. *)
Definition fetched (fuel : nat) (server : Listing.Server)
    (decode : Listing.Decoder) (pageSize : Z)
  : option (result (list (gmap gostring Listing.jvalue))) :=
  Listing.fetch_pages fuel server decode 0 [] (Listing.clamp_pageSize pageSize) [].

(** ** Configuration files *)

(** A profile as [normalizeConfigFile] leaves it: no map is nil. *)
Definition has_maps (p : Cfg.Config) : Prop :=
  Cfg.Headers p ≠ None
  /\ exists cams, Cfg.Labels p = Some {| Cfg.Cameras := Some cams |}.

(** Whether the legacy fields of a file hold data. *)
Definition legacy_data (cfg : Cfg.ConfigFile) : Prop :=
  Cfg.not_blank (Cfg.LegacyBaseURL cfg) = true
  \/ (exists a, Cfg.LegacyAuth cfg = Some a
        /\ (Cfg.not_blank (Cfg.APIKey a) = true
            \/ Cfg.not_blank (Cfg.Token a) = true))
  \/ Cfg.LegacyHeaders cfg ≠ None.

(** The name of the profile does not hang on the order in which the
    profiles are ranged over: the flag or the environment gives it, or the
    file names its current profile, or holds legacy data or a profile
    [default], which [normalizeConfigFile] makes the current one. *)
Definition profile_named (env : gmap gostring gostring)
    (decoded : result Cfg.ConfigFile) (rf : Cfg.rootFlags) : Prop :=
  ¬ blank (Cfg.Profile rf)
  \/ ¬ blank (Cfg.envFirst env [] Cfg.profile_keys)
  \/ match decoded with
     | Ok cfg =>
         Cfg.not_blank (Cfg.CurrentProfile cfg) = true
         \/ legacy_data cfg
         \/ is_Some (default ∅ (Cfg.Profiles cfg) !! go "default")
     | Err _ => True
     end.

(** ** Sample inputs *)

Definition test_env : Env :=
  {| UserCacheDir := Ok (go "/home/u/.cache");
     url_Parse_Host := fun _ => Some (go "api.verkada.com");
     env_profile := [];
     config_current_profile := None |}.

Definition default_flags : rootFlags := {| Profile := go "default" |}.

(** Two configurations whose organization ids differ by case only. *)
Definition cfg_upper : Config :=
  {| BaseURL := go "https://api.verkada.com"; OrgID := go "ORG" |}.
Definition cfg_lower : Config :=
  {| BaseURL := go "https://api.verkada.com"; OrgID := go "org" |}.

(** A raw record with string fields. *)
Definition record_of (fields : list (string * string)) : gmap gostring any :=
  list_to_map ((fun kv => (go kv.1, AString (go kv.2))) <$> fields).

(** The records of the tests of the index, and one without an id. *)
Definition cam_1 : gmap gostring any :=
  record_of [("camera_id", "cam-1"); ("name", "North Door");
             ("site", "Cathedral"); ("model", "D40"); ("serial", "S1");
             ("status", "online")]%string.
Definition cam_2 : gmap gostring any :=
  record_of [("camera_id", "cam-2"); ("name", "Lobby"); ("site", "HQ");
             ("model", "D40"); ("serial", "S2"); ("status", "online")]%string.
Definition cam_without_id : gmap gostring any :=
  record_of [("camera_id", "  "); ("name", "Spare")]%string.
Definition cam_without_id_again : gmap gostring any :=
  record_of [("camera_id", "  "); ("name", "Attic")]%string.
Definition cam_1_again : gmap gostring any :=
  record_of [("cameraId", "cam-1"); ("name", "South Door")]%string.

Definition front_desk : gmap gostring gostring :=
  {[ go "cam-2" := go "Front desk" ]}.

(** A world in which one call to the database fails, the call number [n],
    and every other call succeeds. *)
Definition world_failing_at (n : nat) : World :=
  {| now := 1700000000;
     MkdirAll_ok := true;
     Stat_fails := false;
     json_Marshal := fun _ => Ok (go "{}");
     path_env := test_env;
     pragmas_ok := true;
     db_fails := Nat.eqb n |}.

(** A world in which every call succeeds. *)
Definition calm_world : World :=
  {| now := 1700000000;
     MkdirAll_ok := true;
     Stat_fails := false;
     json_Marshal := fun _ => Ok (go "{}");
     path_env := test_env;
     pragmas_ok := true;
     db_fails := fun _ => false |}.

(** Two cameras as the inventory gives them, by their id only. *)
Definition camera_a : gmap gostring Listing.jvalue :=
  {[ go "id" := Listing.JString (go "cam-1") ]}.
Definition camera_b : gmap gostring Listing.jvalue :=
  {[ go "id" := Listing.JString (go "cam-2") ]}.

(** Five bodies: an inventory in two pages (1, 2), the same inventory in two
    other pages (3, 5), and a listing without envelope key (4). *)
Definition sample_decoder : Listing.Decoder := fun body =>
  if bool_decide (body = go "1") then
    Ok (Listing.JObject
          {[ go "cameras" :=
               Listing.JArray [Listing.JObject camera_b; Listing.JNull];
             go "next_page_token" := Listing.JString (go "p2") ]})
  else if bool_decide (body = go "2") then
    Ok (Listing.JObject
          {[ go "devices" := Listing.JArray [Listing.JObject camera_a] ]})
  else if bool_decide (body = go "3") then
    Ok (Listing.JObject
          {[ go "cameras" := Listing.JArray [Listing.JObject camera_a];
             go "nextPageToken" := Listing.JString (go "next") ]})
  else if bool_decide (body = go "4") then
    Ok (Listing.JObject
          {[ go "items" :=
               Listing.JArray [Listing.JString (go "x"); Listing.JObject camera_b];
             go "count" := Listing.JNumber (FIntegral 1) ]})
  else if bool_decide (body = go "5") then
    Ok (Listing.JObject
          {[ go "cameras" := Listing.JArray [Listing.JObject camera_b] ]})
  else Err "unexpected end of JSON input".

Definition server_1 : Listing.Server := fun n next pageSize =>
  match next with
  | [] => Ok (go "1", 200)
  | _ => Ok (go "2", 200)
  end.

Definition server_2 : Listing.Server := fun n next pageSize =>
  match next with
  | [] => Ok (go "3", 200)
  | _ => Ok (go "5", 200)
  end.

(** A server that refuses the page sizes that are never asked for. *)
Definition server_strict : Listing.Server := fun n next pageSize =>
  if (pageSize <? 1) || (200 <? pageSize) then Err "bad page size"
  else server_1 n next pageSize.

(** A server that gives the same page and token for ever. *)
Definition server_loop : Listing.Server :=
  fun n next pageSize => Ok (go "3", 200).

(** Sorting by insertion, for [sort.Slice]. *)
Fixpoint insert_by {A} (less : A -> A -> bool) (x : A) (l : list A) : list A :=
  match l with
  | [] => [x]
  | y :: l' => if less x y then x :: l else y :: insert_by less x l'
  end.

Definition insertion_sort {A} (l : list A) (less : A -> A -> bool) : list A :=
  foldr (insert_by less) [] l.

(** The first name of a map of profiles, for [range]. *)
Definition first_name (m : gmap gostring Cfg.Config) : gostring :=
  match map_to_list m with
  | (k, _) :: _ => k
  | [] => []
  end.

(** The last name of a map of profiles, for another [range]. *)
Definition last_name (m : gmap gostring Cfg.Config) : gostring :=
  match reverse (map_to_list m) with
  | (k, _) :: _ => k
  | [] => []
  end.

(** A configuration file with two profiles, none of them named as the
    current one. *)
Definition two_profiles_file : Cfg.ConfigFile :=
  let profile (url : string) :=
    {| Cfg.BaseURL := go url; Cfg.OrgID := [];
       Cfg.Auth := {| Cfg.APIKey := []; Cfg.Token := []; Cfg.TokenAcquiredAt := 0 |};
       Cfg.Headers := None; Cfg.Labels := None |} in
  {| Cfg.CurrentProfile := [];
     Cfg.Profiles :=
       Some {[ go "home" := profile "https://api.verkada.com"%string;
               go "work" := profile "https://api.eu.verkada.com"%string ]};
     Cfg.LegacyBaseURL := []; Cfg.LegacyAuth := None; Cfg.LegacyHeaders := None |}.

Definition no_flags : Cfg.rootFlags :=
  {| Cfg.Profile := []; Cfg.FlagBaseURL := []; Cfg.FlagOrgID := [];
     Cfg.FlagAPIKey := []; Cfg.FlagToken := [] |}.

(** A configuration file of before the profiles. *)
Definition legacy_file : Cfg.ConfigFile :=
  {| Cfg.CurrentProfile := []; Cfg.Profiles := None;
     Cfg.LegacyBaseURL := go "https://api.verkada.com";
     Cfg.LegacyAuth := None; Cfg.LegacyHeaders := None |}.

Definition org_flags : Cfg.rootFlags :=
  {| Cfg.Profile := []; Cfg.FlagBaseURL := []; Cfg.FlagOrgID := go "ORG";
     Cfg.FlagAPIKey := []; Cfg.FlagToken := [] |}.

(** What the legacy file and the flag give. *)
Definition effective_sample : Cfg.Config :=
  {| Cfg.BaseURL := go "https://api.verkada.com"; Cfg.OrgID := go "ORG";
     Cfg.Auth := {| Cfg.APIKey := []; Cfg.Token := []; Cfg.TokenAcquiredAt := 0 |};
     Cfg.Headers := Some ∅;
     Cfg.Labels := Some {| Cfg.Cameras := Some ∅ |} |}.

(** ** Runes *)

Ltac rune_cases :=
  repeat match goal with
         | |- context [if ?b then _ else _] => destruct b eqn:?
         end;
  repeat match goal with
         | H : _ && _ = true |- _ => apply andb_true_iff in H; destruct H
         | H : _ || _ = false |- _ => apply orb_false_iff in H; destruct H
         | H : negb _ = true |- _ => apply negb_true_iff in H
         | H : negb _ = false |- _ => apply negb_false_iff in H
         | H : (_ <=? _) = true |- _ => apply Z.leb_le in H
         | H : (_ <=? _) = false |- _ => apply Z.leb_gt in H
         | H : (_ =? _) = true |- _ => apply Z.eqb_eq in H
         | H : (_ =? _) = false |- _ => apply Z.eqb_neq in H
         end.

Lemma token_rune_keeps r : is_token_rune r = true -> Query.token_rune r = r.
Proof.
  unfold is_token_rune, Query.token_rune. intros H.
  destruct (is_lower_az r); [done|]. destruct (is_digit_09 r); done.
Qed.

Lemma token_rune_blank r : is_token_rune r = false -> Query.token_rune r = 32.
Proof.
  unfold is_token_rune, Query.token_rune. intros H.
  destruct (is_lower_az r); [done|]. destruct (is_digit_09 r); done.
Qed.

Lemma token_rune_not_space r :
  is_token_rune r = true -> unicode_IsSpace r = false.
Proof.
  unfold is_token_rune, unicode_IsSpace, is_lower_az, is_digit_09, in_range.
  intros H. apply orb_true_iff in H.
  apply not_true_is_false. intros E.
  repeat (apply orb_true_iff in E; destruct E as [E|E]);
    destruct H as [H|H]; rune_cases; lia.
Qed.

(** ** [strings.Fields] *)

Lemma Fields_space r s : unicode_IsSpace r = true -> Fields (r :: s) = Fields s.
Proof. intros H. simpl. by rewrite H. Qed.

Lemma Fields_word r s :
  unicode_IsSpace r = false ->
  Fields (r :: s) = if starts_word s then push_rune r (Fields s) else [r] :: Fields s.
Proof.
  intros H. simpl. rewrite H. destruct s as [|r' s']; [done|].
  unfold starts_word. by destruct (unicode_IsSpace r').
Qed.

Lemma Fields_nil_iff s :
  Fields s = [] <-> Forall (fun r => unicode_IsSpace r = true) s.
Proof.
  induction s as [|r s IH].
  - split; [constructor | done].
  - destruct (unicode_IsSpace r) eqn:E.
    + rewrite Fields_space by done. rewrite IH. split.
      * intros H. by constructor.
      * intros H. by inversion H.
    + rewrite Fields_word by done. split.
      * destruct (starts_word s); [|done].
        destruct (Fields s); done.
      * intros H. inversion H; congruence.
Qed.

(** Every field is a non-empty run of runes of [s] that are not spaces. *)
Lemma Fields_tokens s :
  Forall (fun t => t ≠ [] /\ Forall (fun r => unicode_IsSpace r = false /\ r ∈ s) t)
         (Fields s).
Proof.
  induction s as [|r s IH]; [constructor|].
  assert (IH' : Forall (fun t => t ≠ [] /\
             Forall (fun x => unicode_IsSpace x = false /\ x ∈ r :: s) t) (Fields s)).
  { eapply Forall_impl; [exact IH|]. intros t [Hne Ht]. split; [done|].
    eapply Forall_impl; [exact Ht|]. intros x [? ?]. split; [done|]. by right. }
  destruct (unicode_IsSpace r) eqn:E.
  - by rewrite Fields_space.
  - rewrite Fields_word by done.
    assert (Hr : unicode_IsSpace r = false /\ r ∈ r :: s) by (split; [done|by left]).
    destruct (starts_word s).
    + destruct (Fields s) as [|t ts]; simpl.
      * constructor; [|constructor]. split; [done|]. by constructor.
      * inversion IH' as [|? ? [Hne Ht] Hts]; subst.
        constructor; [|done]. split; [done|]. by constructor.
    + constructor; [|done]. split; [done|]. by constructor.
Qed.

(** ** The tokenizer *)

Lemma tokenizeQuery_norm q : tokenizeQuery q = Fields (map norm q).
Proof. unfold tokenizeQuery, ToLower. by rewrite map_map. Qed.

Lemma ToLower_token r :
  is_token_rune r = true -> unicode_ToLower r = r.
Proof.
  unfold is_token_rune, is_lower_az, is_digit_09, unicode_ToLower, in_range.
  intros H. apply orb_true_iff in H. rune_cases; destruct H as [H|H]; rune_cases; lia.
Qed.

Lemma norm_token r :
  is_separator r = false -> norm r = unicode_ToLower r /\ is_token_rune (norm r) = true.
Proof.
  unfold is_separator, norm. intros H. apply negb_false_iff in H.
  rewrite token_rune_keeps by done. done.
Qed.

Lemma norm_separator r : is_separator r = true -> norm r = 32.
Proof.
  unfold is_separator, norm. intros H. apply negb_true_iff in H.
  by apply token_rune_blank.
Qed.

Lemma norm_space_iff r : unicode_IsSpace (norm r) = is_separator r.
Proof.
  destruct (is_separator r) eqn:E.
  - by rewrite norm_separator.
  - apply norm_token in E as [_ E]. by apply token_rune_not_space.
Qed.

Lemma norm_ToLower r : norm (unicode_ToLower r) = norm r.
Proof.
  destruct (is_separator r) eqn:E.
  - rewrite (norm_separator r) by done.
    unfold norm. apply token_rune_blank.
    unfold is_separator in E. apply negb_true_iff in E.
    revert E.
    unfold is_token_rune, is_lower_az, is_digit_09, unicode_ToLower, in_range.
    intros E. apply orb_false_iff in E as [E1 E2].
    apply orb_false_iff. revert E1 E2. rune_cases; intros; rune_cases; split;
      try (apply andb_false_iff; rewrite !Z.leb_gt; lia); rune_cases; try lia.
  - destruct (norm_token r E) as [H1 H2]. 
    unfold norm at 1. rewrite <- H1. rewrite (ToLower_token _ H2).
    by apply token_rune_keeps.
Qed.

Example squeeze_front_door :
  squeeze is_separator (go "Front-Door!") = go "Front Door "
  /\ squeeze is_punctuation (go "a -- b,,c") = go "a b c".
Proof. split; vm_compute; reflexivity. Qed.

Section Squeeze.

Variable sep : rune -> bool.
Hypothesis sep_separates : forall r, sep r = true -> is_separator r = true.

Lemma starts_word_squeeze s :
  starts_word (map norm (squeeze sep s)) = starts_word (map norm s).
Proof.
  induction s as [|r s IH]; [done|].
  simpl squeeze. destruct (sep r) eqn:E; [|done].
  apply sep_separates in E.
  transitivity false.
  - destruct s as [|r' s']; [reflexivity|].
    destruct (sep r') eqn:E'; [|reflexivity].
    apply sep_separates in E'.
    rewrite IH. simpl. by rewrite norm_space_iff, E'.
  - simpl. by rewrite norm_space_iff, E.
Qed.

Lemma Fields_cons_ext r s s' :
  Fields s = Fields s' -> starts_word s = starts_word s' ->
  Fields (r :: s) = Fields (r :: s').
Proof.
  intros HF Hw. destruct (unicode_IsSpace r) eqn:E.
  - by rewrite !Fields_space.
  - rewrite !Fields_word by done. by rewrite HF, Hw.
Qed.

Lemma Fields_squeeze s :
  Fields (map norm (squeeze sep s)) = Fields (map norm s).
Proof.
  induction s as [|r s IH]; [done|].
  simpl squeeze. destruct (sep r) eqn:E.
  - apply sep_separates in E.
    change (map norm (r :: s)) with (norm r :: map norm s).
    rewrite (Fields_space (norm r)) by (by rewrite norm_space_iff).
    destruct s as [|r' s']; [done|].
    destruct (sep r'); [done|].
    change (map norm (32 :: squeeze sep (r' :: s')))
      with (32 :: map norm (squeeze sep (r' :: s'))).
    by rewrite Fields_space.
  - change (Fields (norm r :: map norm (squeeze sep s))
            = Fields (norm r :: map norm s)).
    apply Fields_cons_ext; [exact IH|apply starts_word_squeeze].
Qed.

End Squeeze.

Lemma is_separator_ascii r :
  lowers_into_ascii r = false -> is_separator r = negb (is_ascii_alnum r).
Proof.
  unfold lowers_into_ascii, is_separator, is_ascii_alnum, is_token_rune,
    unicode_ToLower, is_lower_az, is_digit_09, in_range.
  intros H. apply orb_false_iff in H as [H1 H2]. rewrite H1, H2.
  apply Z.eqb_neq in H1, H2.
  destruct ((65 <=? r) && (r <=? 90)) eqn:E1.
  { rune_cases. simpl.
    replace (97 <=? r + 32) with true by (symmetry; apply Z.leb_le; lia).
    replace (r + 32 <=? 122) with true by (symmetry; apply Z.leb_le; lia). done. }
  simpl.
  destruct ((192 <=? r) && (r <=? 222) && negb (r =? 215)) eqn:E2; [|done].
  rune_cases;
    replace (97 <=? r + 32) with true by (symmetry; apply Z.leb_le; lia);
    replace (r + 32 <=? 122) with false by (symmetry; apply Z.leb_gt; lia);
    replace (r + 32 <=? 57) with false by (symmetry; apply Z.leb_gt; lia);
    replace (r <=? 122) with false by (symmetry; apply Z.leb_gt; lia);
    replace (r <=? 57) with false by (symmetry; apply Z.leb_gt; lia);
    by rewrite !andb_false_r.
Qed.

Lemma is_punctuation_separates r :
  is_punctuation r = true -> is_separator r = true.
Proof.
  unfold is_punctuation. intros [H1 H2]%andb_true_iff.
  apply negb_true_iff in H2. by rewrite is_separator_ascii.
Qed.

Lemma tokenizeQuery_tokens q : Forall is_token (tokenizeQuery q).
Proof.
  rewrite tokenizeQuery_norm.
  eapply Forall_impl; [apply Fields_tokens|].
  intros t [Hne Ht]. split; [done|].
  eapply Forall_impl; [exact Ht|]. intros r [Hsp Hin]. simpl in *.
  apply list_elem_of_fmap in Hin as (x & -> & _).
  rewrite norm_space_iff in Hsp. by apply norm_token in Hsp as [_ ?].
Qed.

(** C7. The tokens of a query are those of the query in lower case, and
    those of the query in which every run of non-alphanumeric characters is
    replaced by one space, for any class [sep] of such characters (runes
    that do not lower to an ASCII letter or digit: punctuation, spaces,
    symbols); every token is non-empty and made of ASCII lower-case letters
    and digits; ["Front-Door!"] and ["front door"] have the same tokens. *)
Theorem tokenizeQuery_normalizes (sep : rune -> bool) (s : gostring) :
  (forall r, sep r = true -> is_separator r = true) ->
  tokenizeQuery s = tokenizeQuery (ToLower s)
  /\ tokenizeQuery s = tokenizeQuery (squeeze sep s)
  /\ Forall is_token (tokenizeQuery s)
  /\ tokenizeQuery (go "Front-Door!") = tokenizeQuery (go "front door").
Proof.
  intros Hsep. split; [|split; [|split]].
  - rewrite !tokenizeQuery_norm. unfold ToLower. rewrite map_map.
    f_equal. apply map_ext. intros r. by rewrite norm_ToLower.
  - rewrite !tokenizeQuery_norm. by rewrite Fields_squeeze.
  - apply tokenizeQuery_tokens.
  - vm_compute. reflexivity.
Qed.

Lemma tokenizeQuery_normalizes_witness :
  tokenizeQuery (go "North--Door (D40)!")
  = tokenizeQuery (squeeze is_punctuation (go "North--Door (D40)!"))
  /\ squeeze is_punctuation (go "North--Door (D40)!") = go "North Door D40 ".
Proof.
  split.
  - exact (proj1 (proj2 (tokenizeQuery_normalizes is_punctuation
                           (go "North--Door (D40)!")
                           is_punctuation_separates))).
  - vm_compute. reflexivity.
Defined.

Lemma tokenizeQuery_nil_iff q :
  tokenizeQuery q = [] <-> Forall (fun r => is_separator r = true) q.
Proof.
  rewrite tokenizeQuery_norm, Fields_nil_iff, Forall_map.
  apply Forall_iff. intros r. simpl. by rewrite norm_space_iff.
Qed.

(** ** The filter loop *)

Lemma keep_loop_spec n : forall i k arr,
  (k <= i)%nat -> (i + n = length arr)%nat ->
  exists arr',
    keep_loop n i k arr
      = ((k + length (filter searchable (drop i arr)))%nat, arr')
    /\ length arr' = length arr
    /\ take (k + length (filter searchable (drop i arr))) arr'
       = take k arr ++ filter searchable (drop i arr)
    /\ (filter searchable (drop i arr) = [] -> arr' = arr).
Proof.
  induction n as [|n IH]; intros i k arr Hk Hn.
  - exists arr. simpl. rewrite drop_ge by lia. simpl.
    rewrite Nat.add_0_r, app_nil_r. done.
  - simpl. destruct (lookup_lt_is_Some_2 arr i) as [t Ht]; [lia|].
    rewrite Ht. rewrite (drop_S _ _ _ Ht).
    destruct (is_stopword t) eqn:Es.
    + destruct (IH (S i) k arr) as (arr' & Hl & Hlen & Htake & Hid); [lia|lia|].
      rewrite filter_cons_False by (unfold searchable; congruence).
      exists arr'. repeat split; assumption.
    + destruct (IH (S i) (S k) (<[k:=t]> arr)) as (arr' & Hl & Hlen & Htake & Hid);
        [lia|rewrite length_insert; lia|].
      rewrite filter_cons_True by done.
      rewrite drop_insert_lt in Hl, Htake by lia.
      rewrite length_insert in Hlen. simpl length.
      replace (k + S (length (filter searchable (drop (S i) arr))))%nat
        with (S k + length (filter searchable (drop (S i) arr)))%nat by lia.
      exists arr'. split; [done|]. split; [done|]. split; [|done].
      rewrite Htake.
      rewrite (take_S_r _ _ t) by (apply list_lookup_insert_eq; lia).
      rewrite take_insert_ge by lia. by rewrite <- app_assoc.
Qed.

Lemma prefix_terms_tokens keep :
  Forall is_token keep -> prefix_terms keep = map (fun t => t ++ go "*") keep.
Proof.
  induction 1 as [|t ts [Hne _] _ IH]; [done|].
  simpl. destruct t; [done|]. by rewrite IH.
Qed.

Lemma search_tokens_tokens q : Forall is_token (search_tokens q).
Proof.
  unfold search_tokens. pose proof (tokenizeQuery_tokens q) as H.
  destruct (filter searchable (tokenizeQuery q)) eqn:E; [done|].
  rewrite <- E. apply Forall_forall. intros t Ht.
  apply list_elem_of_filter in Ht as [_ Ht]. by apply (proj1 (Forall_forall _ _) H).
Qed.

(** In place or not, the loop filters: [keep] ends as the tokens that are
    not stopwords, and when there is none the array of [toks] is as it was. *)
Lemma keep_loop_filter toks :
  exists arr,
    keep_loop (length toks) 0 0 toks = (length (filter searchable toks), arr)
    /\ length arr = length toks
    /\ take (length (filter searchable toks)) arr = filter searchable toks
    /\ (filter searchable toks = [] -> arr = toks).
Proof.
  destruct (keep_loop_spec (length toks) 0 0 toks) as (arr & H1 & H2 & H3 & H4);
    [lia|lia|].
  rewrite drop_0 in *. exists arr. done.
Qed.

Lemma length_eqb_0 {A} (l : list A) :
  (length l =? 0)%nat = match l with [] => true | _ => false end.
Proof. by destruct l. Qed.

Lemma buildFTSQuery_spec q :
  buildFTSQuery q =
    match search_tokens q with
    | [] => Err no_tokens
    | keep => Ok (Join (map (fun t => t ++ go "*") keep) (go " AND "))
    end.
Proof.
  pose proof (search_tokens_tokens q) as Htok.
  unfold buildFTSQuery, search_tokens in *.
  destruct (keep_loop_filter (tokenizeQuery q)) as (arr & -> & Hlen & Htake & Hid).
  rewrite Htake.
  destruct (filter searchable (tokenizeQuery q)) as [|t ts] eqn:E.
  - rewrite Hid by done. rewrite take_ge by lia. cbn [length Nat.eqb].
    rewrite length_eqb_0.
    destruct (tokenizeQuery q) as [|t ts] eqn:Et; [done|].
    rewrite prefix_terms_tokens by done. done.
  - cbn [length Nat.eqb].
    rewrite prefix_terms_tokens by done. done.
Qed.

Lemma search_tokens_all_stopwords q :
  Forall (fun t => t ∈ camerasSearchStopwords) (tokenizeQuery q) ->
  search_tokens q = tokenizeQuery q.
Proof.
  intros H. unfold search_tokens.
  assert (filter searchable (tokenizeQuery q) = []) as ->; [|done].
  induction H as [|t ts Ht _ IH]; [done|].
  rewrite filter_cons_False; [done|].
  unfold searchable, is_stopword. by rewrite bool_decide_eq_true_2.
Qed.

(** C5. A query whose tokens are all stopwords, and not none, is not an
    error: its terms are the prefix terms of all its tokens, joined by
    [AND]. *)
Theorem buildFTSQuery_only_stopwords (q : gostring) :
  tokenizeQuery q ≠ [] ->
  Forall (fun t => t ∈ camerasSearchStopwords) (tokenizeQuery q) ->
  buildFTSQuery q = Ok (Join (map star (tokenizeQuery q)) (go " AND ")).
Proof.
  intros Hne Hall. rewrite buildFTSQuery_spec, search_tokens_all_stopwords by done.
  by destruct (tokenizeQuery q).
Qed.

Lemma buildFTSQuery_only_stopwords_witness :
  buildFTSQuery (go "the of") = Ok (go "the* AND of*").
Proof.
  apply (buildFTSQuery_only_stopwords (go "the of")).
  - vm_compute. discriminate.
  - repeat constructor; apply bool_decide_unpack; vm_compute; exact I.
Defined.

Lemma search_tokens_nil_iff q : search_tokens q = [] <-> tokenizeQuery q = [].
Proof.
  unfold search_tokens. split.
  - by destruct (filter searchable (tokenizeQuery q)).
  - intros ->. done.
Qed.

(** C6, amended. [buildFTSQuery] returns an error exactly when the query has
    no token, which is when no rune of the query lowers to an ASCII letter
    or digit; for a query without U+0130 and U+212A that is when it has no
    ASCII letter or digit.  With a token, a query string is returned. *)
Theorem buildFTSQuery_error_iff (q : gostring) :
  (is_err (buildFTSQuery q) = true <-> tokenizeQuery q = [])
  /\ (tokenizeQuery q = [] <-> Forall (fun r => is_separator r = true) q)
  /\ (Forall (fun r => lowers_into_ascii r = false) q ->
      (is_err (buildFTSQuery q) = true
       <-> Forall (fun r => is_ascii_alnum r = false) q))
  /\ (tokenizeQuery q ≠ [] -> exists s, buildFTSQuery q = Ok s).
Proof.
  assert (H1 : is_err (buildFTSQuery q) = true <-> tokenizeQuery q = []).
  { rewrite buildFTSQuery_spec, <- search_tokens_nil_iff.
    by destruct (search_tokens q). }
  split; [exact H1|]. split; [apply tokenizeQuery_nil_iff|]. split.
  - intros Hplain. rewrite H1, tokenizeQuery_nil_iff.
    rewrite !Forall_forall. split; intros H r Hr; specialize (H r Hr);
      rewrite (is_separator_ascii r) in *
        by (by apply (proj1 (Forall_forall _ _) Hplain));
      by destruct (is_ascii_alnum r).
  - intros Hne. rewrite buildFTSQuery_spec.
    destruct (search_tokens q) eqn:E; [|eauto].
    by apply search_tokens_nil_iff in E.
Qed.

Lemma buildFTSQuery_error_iff_witness :
  buildFTSQuery (go "lobby 2") = Ok (go "lobby* AND 2*")
  /\ is_err (buildFTSQuery (go " -- !")) = true.
Proof.
  split.
  - destruct (proj2 (proj2 (proj2 (buildFTSQuery_error_iff (go "lobby 2")))))
      as [s Hs].
    + vm_compute. discriminate.
    + vm_compute. reflexivity.
  - apply (proj1 (buildFTSQuery_error_iff (go " -- !"))). reflexivity.
Defined.

(** C6 as stated fails: the query made of the Kelvin sign (U+212A) has no
    ASCII letter or digit, [strings.ToLower] makes it [k], and [k*] is
    searched for. *)
Lemma buildFTSQuery_kelvin_sign :
  Forall (fun r => is_ascii_alnum r = false) [0x212A]
  /\ buildFTSQuery [0x212A] = Ok (go "k*").
Proof. split; [by repeat constructor|]. vm_compute. reflexivity. Qed.

(** ** Field extraction *)

Lemma pickString_cons m k keys :
  pickString m (k :: keys) =
    match text_at m k with
    | Some s => s
    | None => pickString m keys
    end.
Proof.
  unfold text_at. simpl. destruct (m !! k) as [v|]; [|done]. simpl.
  by destruct (stringOf v).
Qed.

Lemma pickString_skips m pre keys :
  Forall (fun k => text_at m k = None) pre ->
  pickString m (pre ++ keys) = pickString m keys.
Proof.
  induction 1 as [|k pre Hk _ IH]; [done|].
  rewrite <- app_comm_cons, pickString_cons, Hk. exact IH.
Qed.

Lemma pickString_no_empty_value m keys :
  Forall (fun k => text_at m k ≠ Some []) keys ->
  pickString m keys = first_non_empty_value m keys.
Proof.
  induction 1 as [|k keys Hk _ IH]; [done|].
  rewrite pickString_cons. simpl.
  destruct (text_at m k) as [[|r s]|]; done.
Qed.

(** C4, amended. [pickString] tries the candidate keys in order and returns
    the text of the first one under which the record holds a string, a
    Stringer, a number or a boolean, be that text empty or not; keys that
    are absent or hold a value of another type are passed over, and with no
    such key the result is empty.  It is the first non-empty value when no
    candidate key holds an empty text. *)
Theorem pickString_first_present
    (m : gmap gostring any) (keys : list gostring) :
  (forall pre k post s,
     keys = pre ++ k :: post ->
     Forall (fun k' => text_at m k' = None) pre ->
     text_at m k = Some s ->
     pickString m keys = s)
  /\ (Forall (fun k => text_at m k = None) keys -> pickString m keys = [])
  /\ (Forall (fun k => text_at m k ≠ Some []) keys ->
      pickString m keys = first_non_empty_value m keys).
Proof.
  split; [|split].
  - intros pre k post s -> Hpre Hk. rewrite pickString_skips by done.
    by rewrite pickString_cons, Hk.
  - intros H. rewrite <- (app_nil_r keys). by rewrite pickString_skips.
  - apply pickString_no_empty_value.
Qed.

Lemma pickString_first_present_witness :
  pickString cam_1_again id_keys = go "cam-1"
  /\ pickString cam_1 name_keys = first_non_empty_value cam_1 name_keys.
Proof.
  split.
  - apply (proj1 (pickString_first_present cam_1_again id_keys)
             [go "camera_id"] (go "cameraId") [go "cameraID"; go "id"]).
    + reflexivity.
    + repeat constructor.
    + reflexivity.
  - apply (proj2 (proj2 (pickString_first_present cam_1 name_keys))).
    repeat constructor; vm_compute; discriminate.
Defined.

(** C4 as stated fails: an empty [name] ends the search, and the
    [device_name] that the record has is not returned. *)
Lemma pickString_stops_at_empty_value :
  pickString lobby_record name_keys = []
  /\ first_non_empty_value lobby_record name_keys = go "Lobby".
Proof. split; vm_compute; reflexivity. Qed.

(** ** Trimming *)

Section Trimming.

Variable f : rune -> bool.

Lemma TrimLeftFunc_suffix s : exists pre, s = pre ++ TrimLeftFunc f s.
Proof.
  induction s as [|r s [pre IH]]; [by exists []|].
  simpl. destruct (f r).
  - exists (r :: pre). simpl. by rewrite <- IH.
  - by exists [].
Qed.

Lemma TrimLeftFunc_head s r t : TrimLeftFunc f s = r :: t -> f r = false.
Proof.
  induction s as [|x s IH]; [done|]. simpl.
  destruct (f x) eqn:E; [done|]. by intros [= <- _].
Qed.

Lemma TrimRightFunc_prefix s : exists suf, s = TrimRightFunc f s ++ suf.
Proof.
  unfold TrimRightFunc. destruct (TrimLeftFunc_suffix (rev s)) as [pre H].
  exists (rev pre). rewrite <- rev_app_distr, <- H. by rewrite rev_involutive.
Qed.

Lemma TrimRightFunc_last s t r : TrimRightFunc f s = t ++ [r] -> f r = false.
Proof.
  unfold TrimRightFunc. intros H. apply (f_equal (@rev _)) in H.
  rewrite rev_involutive, rev_app_distr in H. simpl in H.
  by apply TrimLeftFunc_head in H.
Qed.

Lemma TrimFunc_Forall (P : rune -> Prop) s :
  Forall P s -> Forall P (TrimFunc f s).
Proof.
  intros H. unfold TrimFunc.
  destruct (TrimLeftFunc_suffix s) as [pre Hp].
  destruct (TrimRightFunc_prefix (TrimLeftFunc f s)) as [suf Hs].
  rewrite Hp, Hs in H. apply Forall_app in H as [_ H].
  by apply Forall_app in H as [H _].
Qed.

Lemma TrimFunc_head s r t : TrimFunc f s = r :: t -> f r = false.
Proof.
  unfold TrimFunc. intros H.
  destruct (TrimRightFunc_prefix (TrimLeftFunc f s)) as [suf Hs].
  rewrite H in Hs. simpl in Hs. by apply TrimLeftFunc_head in Hs.
Qed.

Lemma TrimFunc_last s t r : TrimFunc f s = t ++ [r] -> f r = false.
Proof. apply TrimRightFunc_last. Qed.

End Trimming.

(** ** Sanitized path components *)

Lemma sanitize_rune_path r : is_path_rune (sanitize_rune r) = true.
Proof.
  unfold sanitize_rune, is_path_rune.
  destruct (is_lower_az r) eqn:E1; [by rewrite E1|].
  destruct (is_digit_09 r) eqn:E2; [by rewrite E2, orb_true_r|].
  destruct ((r =? 46) || (r =? 45) || (r =? 95)) eqn:E3; [|done].
  rewrite E1, E2. simpl. exact E3.
Qed.

Lemma unknown_sanitized : sanitized (go "unknown").
Proof.
  split.
  - done.
  - repeat constructor.
  - intros r t [= <- _]. done.
  - intros t r H. apply (f_equal (@rev _)) in H. rewrite rev_app_distr in H.
    simpl in H. injection H as <- _. done.
Qed.

Lemma sanitizePathComponent_sanitized s : sanitized (sanitizePathComponent s).
Proof.
  unfold sanitizePathComponent.
  destruct (TrimSpace s) as [|r0 s0]; [apply unknown_sanitized|].
  destruct (Trim _ _) as [|r1 s1] eqn:E; [apply unknown_sanitized|].
  rewrite <- E. unfold Trim in *. split.
  - by rewrite E.
  - apply TrimFunc_Forall. apply Forall_forall. intros r Hr.
    apply list_elem_of_fmap in Hr as (x & -> & _). apply sanitize_rune_path.
  - intros r t Hrt. apply TrimFunc_head in Hrt.
    apply bool_decide_eq_false in Hrt. intros ->. apply Hrt. by left.
  - intros t r Hrt. apply TrimFunc_last in Hrt.
    apply bool_decide_eq_false in Hrt. intros ->. apply Hrt. by left.
Qed.

Lemma path_rune_not_slash r : is_path_rune r = true -> r ≠ slash.
Proof.
  unfold is_path_rune, is_lower_az, is_digit_09, in_range, slash. intros H ->.
  vm_compute in H. done.
Qed.

Lemma sanitized_no_slash c : sanitized c -> no_slash c.
Proof.
  intros [_ H _ _] Hin. eapply Forall_forall in H; [|exact Hin].
  by apply path_rune_not_slash in H.
Qed.

Lemma word_plain (e : gostring) :
  sanitized e -> e ≠ dot -> e ≠ dotdot -> plain e.
Proof. intros [H _ _ _] ? ?. done. Qed.

Create HintDb paths.
#[local] Hint Resolve sanitized_no_slash word_plain : paths.

(** ** [filepath.Clean] on the elements of a path *)

Lemma Clean_stack_of s : Clean s = render (is_rooted s) (stack_of s).
Proof. reflexivity. Qed.

Lemma clean_step_plain rooted out e : plain e -> clean_step rooted out e = e :: out.
Proof.
  intros (H1 & H2 & H3). unfold clean_step.
  rewrite !bool_decide_eq_false_2 by done. done.
Qed.

Lemma clean_step_stack rooted out e :
  clean_stack rooted out -> clean_stack rooted (clean_step rooted out e).
Proof.
  intros (tops & dots & -> & Ht & Hd & Hr). unfold clean_step.
  destruct (bool_decide (e = [])) eqn:E1; [by exists tops, dots|].
  destruct (bool_decide (e = dot)) eqn:E2; [by exists tops, dots|].
  destruct (bool_decide (e = dotdot)) eqn:E3.
  - apply bool_decide_eq_true in E3 as ->.
    destruct tops as [|t tops]; simpl.
    + destruct dots as [|d dots].
      * destruct rooted; [by exists [], []|].
        exists [], [dotdot]. repeat split; try done. by repeat constructor.
      * inversion Hd; subst. rewrite bool_decide_eq_true_2 by done.
        exists [], (dotdot :: dotdot :: dots). repeat split; try done.
        -- by repeat constructor.
        -- intros Hroot. by specialize (Hr Hroot).
    + inversion Ht as [|? ? (_ & _ & Hne) Ht']; subst.
      rewrite bool_decide_eq_false_2 by done. by exists tops, dots.
  - exists (e :: tops), dots. repeat split; try done. constructor; [|done].
    apply bool_decide_eq_false in E1, E2, E3. done.
Qed.

Lemma clean_step_no_slash rooted out e :
  Forall no_slash out -> no_slash e -> Forall no_slash (clean_step rooted out e).
Proof.
  intros Ho He. unfold clean_step.
  repeat case_bool_decide; try done; try (by constructor).
  - destruct out as [|t out]; [destruct rooted; [done|by constructor]|].
    case_bool_decide; [by constructor|]. by inversion Ho.
Qed.

Lemma fold_clean_stack rooted es : forall out,
  clean_stack rooted out -> Forall no_slash out -> Forall no_slash es ->
  clean_stack rooted (fold_left (clean_step rooted) es out)
  /\ Forall no_slash (fold_left (clean_step rooted) es out).
Proof.
  induction es as [|e es IH]; intros out Hc Hn He; [done|].
  inversion He; subst. simpl. apply IH; [|by apply clean_step_no_slash|done].
  by apply clean_step_stack.
Qed.

Lemma push_rune_app r l1 l2 :
  l1 ≠ [] -> push_rune r (l1 ++ l2) = push_rune r l1 ++ l2.
Proof. by destruct l1. Qed.

Lemma split_path_nonempty s : split_path s ≠ [].
Proof.
  induction s as [|r s IH]; [done|]. simpl.
  destruct (r =? slash); [done|]. by destruct (split_path s).
Qed.

Lemma split_path_app a b :
  split_path (a ++ slash :: b) = split_path a ++ split_path b.
Proof.
  induction a as [|r a IH]; [done|]. simpl.
  destruct (r =? slash); [by rewrite IH|].
  rewrite IH. apply push_rune_app, split_path_nonempty.
Qed.

Lemma split_path_no_slash s : Forall no_slash (split_path s).
Proof.
  induction s as [|r s IH]; [repeat constructor; by intros H; inversion H|].
  simpl. destruct (r =? slash) eqn:E.
  - constructor; [|done]. intros H. inversion H.
  - apply Z.eqb_neq in E. destruct (split_path s) as [|t ts]; simpl.
    + repeat constructor. intros H. apply list_elem_of_singleton in H. done.
    + inversion IH; subst. constructor; [|done].
      intros H. apply elem_of_cons in H as [H|H]; [done|]. done.
Qed.

Lemma split_path_plain e : no_slash e -> split_path e = [e].
Proof.
  induction e as [|r e IH]; [done|]. intros H. simpl.
  assert (r ≠ slash) as Hr by (intros ->; apply H; by left).
  apply Z.eqb_neq in Hr. rewrite Hr. rewrite IH; [done|].
  intros Hin. apply H. by right.
Qed.

Lemma split_path_Join l :
  l ≠ [] -> Forall no_slash l -> split_path (Join l [slash]) = l.
Proof.
  induction l as [|e l IH]; [done|]. intros _ H. inversion H; subst.
  destruct l as [|e' l].
  - simpl. by apply split_path_plain.
  - change (Join (e :: e' :: l) [slash]) with (e ++ slash :: Join (e' :: l) [slash]).
    rewrite split_path_app, split_path_plain by done.
    rewrite IH by done. done.
Qed.

Lemma is_rooted_app s t : s ≠ [] -> is_rooted (s ++ t) = is_rooted s.
Proof. by destruct s. Qed.

Lemma stack_of_snoc s e :
  s ≠ [] -> plain e -> no_slash e ->
  is_rooted (s ++ slash :: e) = is_rooted s
  /\ stack_of (s ++ slash :: e) = e :: stack_of s.
Proof.
  intros Hs He Hn. split; [by apply is_rooted_app|].
  unfold stack_of. rewrite is_rooted_app by done.
  rewrite split_path_app, fold_left_app, split_path_plain by done.
  simpl. by apply clean_step_plain.
Qed.

Lemma stack_of_clean s :
  clean_stack (is_rooted s) (stack_of s) /\ Forall no_slash (stack_of s).
Proof.
  apply fold_clean_stack.
  - exists [], []. repeat split; done || constructor.
  - constructor.
  - apply split_path_no_slash.
Qed.

(** Reading the kept elements again keeps them all. *)
Lemma clean_replay rooted out :
  clean_stack rooted out -> fold_left (clean_step rooted) (rev out) [] = out.
Proof.
  induction out as [|e out IH]; [done|].
  intros (tops & dots & Heq & Ht & Hd & Hr).
  simpl. rewrite fold_left_app. simpl.
  destruct tops as [|t tops]; simpl in Heq.
  - subst dots. inversion Hd as [|? ? He Hd']; subst.
    destruct rooted; [by specialize (Hr eq_refl)|].
    rewrite IH by (exists [], out; repeat split; done || constructor).
    unfold clean_step. simpl.
    destruct out as [|d out]; [done|].
    inversion Hd'; subst. by rewrite bool_decide_eq_true_2.
  - injection Heq as <- ->. inversion Ht; subst.
    rewrite IH by (by exists tops, dots). by apply clean_step_plain.
Qed.

Lemma clean_stack_nonempty_elems rooted out :
  clean_stack rooted out -> Forall (fun e => e ≠ []) out.
Proof.
  intros (tops & dots & -> & Ht & Hd & _). apply Forall_app. split.
  - eapply Forall_impl; [exact Ht|]. by intros e (? & _).
  - eapply Forall_impl; [exact Hd|]. by intros e ->.
Qed.

Lemma Join_not_rooted (l : list gostring) :
  l ≠ [] -> Forall (fun e => e ≠ []) l -> Forall no_slash l ->
  is_rooted (Join l [slash]) = false.
Proof.
  destruct l as [|x rest]; [done|]. intros _ Hel Hn.
  apply Forall_cons in Hel as [Hx _]. apply Forall_cons in Hn as [Hxs _].
  destruct x as [|r x]; [by destruct Hx|].
  assert (r ≠ slash) as Hr by (intros ->; apply Hxs; by left).
  apply Z.eqb_neq in Hr. by destruct rest.
Qed.

Lemma stack_of_render rooted out :
  clean_stack rooted out -> Forall no_slash out ->
  is_rooted (render rooted out) = rooted
  /\ stack_of (render rooted out) = out.
Proof.
  intros Hc Hn.
  assert (Hrev : Forall no_slash (rev out)) by (by apply Forall_rev).
  destruct rooted.
  - split; [done|]. unfold stack_of.
    change (render true out) with (slash :: Join (rev out) [slash]).
    change (is_rooted (slash :: Join (rev out) [slash])) with true.
    change (split_path (slash :: Join (rev out) [slash]))
      with ([] :: split_path (Join (rev out) [slash])).
    change (fold_left (clean_step true) ([] :: ?l) []) with (fold_left (clean_step true) l []).
    destruct out as [|e out]; [reflexivity|].
    rewrite split_path_Join; [by apply clean_replay|
        simpl; by destruct (rev out)|done].
  - destruct out as [|e out]; [done|].
    assert (Hne : rev (e :: out) ≠ []) by (simpl; by destruct (rev out)).
    assert (Hroot : is_rooted (Join (rev (e :: out)) [slash]) = false).
    { apply Join_not_rooted; [done| |done].
      apply Forall_rev. by eapply clean_stack_nonempty_elems. }
    unfold render. split; [done|]. unfold stack_of. rewrite Hroot.
    rewrite split_path_Join by done. by apply clean_replay.
Qed.

Lemma Join_snoc_nonempty (l : list gostring) e sep :
  e ≠ [] -> Join (l ++ [e]) sep ≠ [].
Proof.
  intros He. induction l as [|x l IH]; [done|].
  simpl. destruct (l ++ [e]) eqn:E; [by destruct l|].
  intros H. apply app_eq_nil in H as [_ H]. by apply app_eq_nil in H as [_ H].
Qed.

Lemma render_nonempty rooted e out : e ≠ [] -> render rooted (e :: out) ≠ [].
Proof.
  intros He. destruct rooted; [done|]. by apply Join_snoc_nonempty.
Qed.

Lemma render_inj rooted out out' :
  out ≠ [] -> out' ≠ [] -> Forall no_slash out -> Forall no_slash out' ->
  render rooted out = render rooted out' -> out = out'.
Proof.
  intros Ho Ho' Hn Hn' H.
  assert (Join (rev out) [slash] = Join (rev out') [slash]) as HJ.
  { destruct out as [|e out], out' as [|e' out']; try done.
    destruct rooted; [|exact H].
    change (slash :: Join (rev (e :: out)) [slash]
            = slash :: Join (rev (e' :: out')) [slash]) in H.
    by injection H. }
  assert (Hrev : forall l : list gostring, l ≠ [] -> rev l ≠ []).
  { intros [|x l] Hl; [done|]. simpl. by destruct (rev l). }
  apply (f_equal split_path) in HJ.
  rewrite (split_path_Join (rev out)) in HJ by (auto using Forall_rev).
  rewrite (split_path_Join (rev out')) in HJ by (auto using Forall_rev).
  apply (f_equal (@rev _)) in HJ. by rewrite !rev_involutive in HJ.
Qed.

Lemma Join_snoc (l : list gostring) e sep :
  l ≠ [] -> Join (l ++ [e]) sep = Join l sep ++ sep ++ e.
Proof.
  induction l as [|x l IH]; [done|]. intros _.
  destruct l as [|y l]; [done|].
  change (Join ((x :: y :: l) ++ [e]) sep)
    with (x ++ sep ++ Join ((y :: l) ++ [e]) sep).
  rewrite IH by done.
  change (Join (x :: y :: l) sep) with (x ++ sep ++ Join (y :: l) sep).
  by rewrite <- !app_assoc.
Qed.

Lemma clean_stack_push rooted out e :
  clean_stack rooted out -> plain e -> clean_stack rooted (e :: out).
Proof.
  intros (tops & dots & -> & Ht & Hd & Hr) He.
  exists (e :: tops), dots. repeat split; try done. by constructor.
Qed.

(** ** The index path *)

Lemma drop_empty_app l1 l2 : drop_empty (l1 ++ l2) = drop_empty l1 ++ drop_empty l2.
Proof. apply filter_app. Qed.

Lemma drop_empty_keep e l : e ≠ [] -> drop_empty (e :: l) = e :: drop_empty l.
Proof. intros H. unfold drop_empty. by rewrite filter_cons_True. Qed.

Lemma drop_empty_nil : drop_empty [] = [].
Proof. reflexivity. Qed.

Lemma index_root_nonempty cacheDir : index_root cacheDir ≠ [].
Proof.
  unfold index_root. destruct (decide (cacheDir = [])) as [->|Hc].
  - done.
  - rewrite !drop_empty_keep by done. rewrite drop_empty_nil.
    change [cacheDir; go "verkcli"; go "index"] with ([cacheDir; go "verkcli"] ++ [go "index"]).
    by apply Join_snoc_nonempty.
Qed.

Lemma filepath_Join_partition cacheDir h o p :
  plain h -> plain o -> plain p -> no_slash h -> no_slash o -> no_slash p ->
  filepath_Join [cacheDir; go "verkcli"; go "index"; h; o; p]
  = render (is_rooted (index_root cacheDir))
      (p :: o :: h :: stack_of (index_root cacheDir)).
Proof.
  intros Hh Ho Hp Sh So Sp. unfold filepath_Join.
  change [cacheDir; go "verkcli"; go "index"; h; o; p]
    with ([cacheDir; go "verkcli"; go "index"] ++ [h; o; p]).
  rewrite drop_empty_app.
  assert (drop_empty [h; o; p] = [h; o; p]) as ->.
  { destruct Hh as [? _], Ho as [? _], Hp as [? _].
    rewrite !drop_empty_keep by done. done. }
  pose proof (index_root_nonempty cacheDir) as Hroot. unfold index_root in *.
  set (B := drop_empty [cacheDir; go "verkcli"; go "index"]) in *.
  assert (HB : B ≠ []) by (intros HB; by rewrite HB in Hroot).
  destruct (B ++ [h; o; p]) as [|x rest] eqn:E; [by destruct B|].
  rewrite <- E. clear E x rest.
  change (B ++ [h; o; p]) with (B ++ [h] ++ [o] ++ [p]).
  rewrite !app_assoc.
  rewrite !Join_snoc by (by destruct B).
  rewrite Clean_stack_of. simpl app.
  destruct (stack_of_snoc ((Join B [slash] ++ slash :: h) ++ slash :: o) p)
    as [-> ->]; [by destruct (Join B [slash] ++ slash :: h)|done|done|].
  destruct (stack_of_snoc (Join B [slash] ++ slash :: h) o)
    as [-> ->]; [by destruct (Join B [slash])|done|done|].
  destruct (stack_of_snoc (Join B [slash]) h) as [-> ->]; done.
Qed.

Lemma filepath_Join_file dir file :
  dir ≠ [] -> plain file -> no_slash file ->
  filepath_Join [dir; file]
  = render (is_rooted dir) (file :: stack_of dir).
Proof.
  intros Hd Hf Sf. unfold filepath_Join.
  destruct Hf as (Hf1 & Hf2 & Hf3).
  rewrite !drop_empty_keep by done. rewrite drop_empty_nil.
  change (Join [dir; file] [slash]) with (dir ++ slash :: file).
  rewrite Clean_stack_of.
  by destruct (stack_of_snoc dir file) as [-> ->].
Qed.

Lemma cameras_sqlite_plain :
  plain (go "cameras.sqlite") /\ no_slash (go "cameras.sqlite").
Proof.
  split; [done|]. unfold no_slash. intros H.
  repeat (apply elem_of_cons in H as [H|H]; [discriminate H|]). inversion H.
Qed.

Lemma index_path_partition cacheDir h o p :
  plain h -> plain o -> plain p -> no_slash h -> no_slash o -> no_slash p ->
  filepath_Join
    [filepath_Join [cacheDir; go "verkcli"; go "index"; h; o; p]; go "cameras.sqlite"]
  = partition_path cacheDir h o p.
Proof.
  intros Hh Ho Hp Sh So Sp.
  rewrite filepath_Join_partition by done.
  destruct cameras_sqlite_plain as [Hc Sc].
  destruct (stack_of_clean (index_root cacheDir)) as [Hclean Hslash].
  assert (clean_stack (is_rooted (index_root cacheDir))
            (p :: o :: h :: stack_of (index_root cacheDir))) as Hclean'.
  { by repeat apply clean_stack_push. }
  assert (Forall no_slash (p :: o :: h :: stack_of (index_root cacheDir))) as Hslash'.
  { by repeat constructor. }
  rewrite filepath_Join_file; [|apply render_nonempty; by destruct Hp|done|done].
  destruct (stack_of_render _ _ Hclean' Hslash') as [-> ->]. done.
Qed.

Lemma partition_path_inj cacheDir h o p h' o' p' :
  no_slash h -> no_slash o -> no_slash p ->
  no_slash h' -> no_slash o' -> no_slash p' ->
  partition_path cacheDir h o p = partition_path cacheDir h' o' p' ->
  h = h' /\ o = o' /\ p = p'.
Proof.
  intros Sh So Sp Sh' So' Sp' H. unfold partition_path in H.
  destruct cameras_sqlite_plain as [_ Sc].
  destruct (stack_of_clean (index_root cacheDir)) as [_ Hslash].
  apply render_inj in H; try done; try (by repeat constructor).
  by injection H.
Qed.

Lemma index_components_sanitized env rf cfg :
  all_sanitized (index_components env rf cfg).
Proof. repeat split; apply sanitizePathComponent_sanitized. Qed.

Lemma camerasIndexPath_components env rf cfg cacheDir :
  UserCacheDir env = Ok cacheDir ->
  camerasIndexPath env rf cfg =
    let '(h, o, p) := index_components env rf cfg in
    Ok (filepath_Join
          [filepath_Join [cacheDir; go "verkcli"; go "index"; h; o; p];
           go "cameras.sqlite"]).
Proof. intros H. unfold camerasIndexPath. by rewrite H. Qed.

(** C3, amended. The index path is derived from the sanitized host,
    organization id and profile name: each of the three is non-empty, made
    of runes of [a-z0-9._-] and neither starts nor ends with the separator
    that replaces other runes (an empty result being [unknown]); two
    triples with the same sanitized names resolve to one path; and two
    triples whose sanitized names differ, none of them [.] or [..], resolve
    to different paths. *)
Theorem index_path_by_sanitized_components
    (env env' : Env) (rf rf' : rootFlags) (cfg cfg' : Config)
    (cacheDir : gostring) :
  UserCacheDir env = Ok cacheDir -> UserCacheDir env' = Ok cacheDir ->
  let c := index_components env rf cfg in
  let c' := index_components env' rf' cfg' in
  all_sanitized c
  /\ (c = c' -> camerasIndexPath env rf cfg = camerasIndexPath env' rf' cfg')
  /\ (no_dots c -> no_dots c' ->
      camerasIndexPath env rf cfg = camerasIndexPath env' rf' cfg' -> c = c').
Proof.
  intros Hd Hd' c c'.
  split; [apply index_components_sanitized|].
  rewrite (camerasIndexPath_components env rf cfg cacheDir Hd).
  rewrite (camerasIndexPath_components env' rf' cfg' cacheDir Hd').
  pose proof (index_components_sanitized env rf cfg) as Hs.
  pose proof (index_components_sanitized env' rf' cfg') as Hs'.
  fold c in Hs. fold c' in Hs'. fold c c'.
  destruct c as [[h o] p], c' as [[h' o'] p'].
  split; [by intros [= -> -> ->]|].
  destruct Hs as (Hh & Ho & Hp), Hs' as (Hh' & Ho' & Hp').
  intros (N1 & N2 & N3 & N4 & N5 & N6) (N1' & N2' & N3' & N4' & N5' & N6') H.
  injection H as H.
  rewrite !index_path_partition in H
    by (auto with paths).
  apply partition_path_inj in H as (-> & -> & ->); auto with paths.
Qed.

Lemma index_path_by_sanitized_components_witness :
  all_sanitized (index_components test_env default_flags cfg_upper)
  /\ camerasIndexPath test_env default_flags cfg_upper
     = camerasIndexPath test_env default_flags cfg_lower.
Proof.
  destruct (index_path_by_sanitized_components test_env test_env
              default_flags default_flags cfg_upper cfg_lower
              (go "/home/u/.cache") eq_refl eq_refl) as (Hs & Hsame & _).
  split; [exact Hs|]. apply Hsame. vm_compute. reflexivity.
Defined.

(** C3 as stated fails: the organization ids [ORG] and [org] differ, and
    with one host and one profile both resolve to one index file. *)
Lemma index_path_collision :
  OrgID cfg_upper ≠ OrgID cfg_lower
  /\ camerasIndexPath test_env default_flags cfg_upper
     = Ok (go "/home/u/.cache/verkcli/index/api.verkada.com/org/default/cameras.sqlite")
  /\ camerasIndexPath test_env default_flags cfg_lower
     = Ok (go "/home/u/.cache/verkcli/index/api.verkada.com/org/default/cameras.sqlite").
Proof. split; [done|]. split; vm_compute; reflexivity. Qed.

(** ** Calls to the database *)

Lemma bind_Ok {A B} (m : DBM A) (k : A -> DBM B) c b c' :
  dbm_bind m k c = (Ok b, c') ->
  exists a c1, m c = (Ok a, c1) /\ k a c1 = (Ok b, c').
Proof.
  unfold dbm_bind. destruct (m c) as [[a|e] c1]; [|done]. intros H.
  exists a, c1. split; [reflexivity|exact H].
Qed.

Lemma bind_run {A B} (m : DBM A) (k : A -> DBM B) c a c1 :
  m c = (Ok a, c1) -> dbm_bind m k c = k a c1.
Proof. unfold dbm_bind. intros ->. reflexivity. Qed.

Lemma keeps_tables_bind {A B} (m : DBM A) (k : A -> DBM B) :
  keeps_tables m -> (forall a, keeps_tables (k a)) -> keeps_tables (dbm_bind m k).
Proof.
  intros Hm Hk c r c'. unfold dbm_bind.
  destruct (m c) as [[a|e] c1] eqn:E.
  - intros H. rewrite (Hk _ _ _ _ H). eapply Hm, E.
  - intros [= <- <-]. eapply Hm, E.
Qed.

Lemma keeps_tables_ignore {A} (m : DBM A) :
  keeps_tables m -> keeps_tables (ignore_error m).
Proof.
  intros Hm c r c'. unfold ignore_error. intros [= <- <-].
  destruct (m c) as [r1 c1] eqn:E. simpl. eapply Hm, E.
Qed.

Section Calls.

Variable w : World.

Lemma db_call_Ok f c c' :
  db_call w f c = (Ok tt, c') ->
  db_ok w (calls c) = true
  /\ f (tables c) = Ok (tables c') /\ calls c' = S (calls c).
Proof.
  unfold db_call. destruct (db_ok w (calls c)); [|done].
  destruct (f (tables c)) as [db|e]; [|done].
  intros [= <-]. done.
Qed.

Lemma db_call_tables f c r c' :
  db_call w f c = (r, c') ->
  calls c' = S (calls c)
  /\ (tables c' = tables c
      \/ (db_ok w (calls c) = true /\ r = Ok tt
          /\ f (tables c) = Ok (tables c'))).
Proof.
  unfold db_call. destruct (db_ok w (calls c)).
  - destruct (f (tables c)) as [db|e] eqn:E; intros [= <- <-]; simpl;
      split; auto.
  - intros [= <- <-]; simpl; split; auto.
Qed.

(** A database that is up until a call lets every call before it through. *)
Lemma db_up_ok n m : db_up w n = true -> (m <= n)%nat -> db_ok w m = true.
Proof.
  unfold db_up. intros H Hm.
  rewrite forallb_forall in H. apply H, in_seq. lia.
Qed.

Lemma db_up_before n m : db_up w n = true -> (m <= n)%nat -> db_up w m = true.
Proof.
  intros H Hm. unfold db_up. apply forallb_forall. intros k Hk.
  apply in_seq in Hk. apply (db_up_ok n); [exact H | lia].
Qed.

Lemma db_ok_up n : (forall m, (m <= n)%nat -> db_ok w m = true) -> db_up w n = true.
Proof.
  intros H. unfold db_up. apply forallb_forall. intros k Hk.
  apply in_seq in Hk. apply H. lia.
Qed.

Lemma Exec_Ok s c c' :
  Exec w s c = (Ok tt, c') ->
  db_ok w (calls c) = true /\ sql_exec s (tables c) = Ok (tables c')
  /\ calls c' = S (calls c).
Proof. apply db_call_Ok. Qed.

Lemma Exec_up s c db :
  db_ok w (calls c) = true -> sql_exec s (tables c) = Ok db ->
  Exec w s c = (Ok tt, {| tables := db; calls := S (calls c) |}).
Proof. intros Hup Hs. unfold Exec, db_call. by rewrite Hup, Hs. Qed.

Lemma Exec_calls s c : calls (snd (Exec w s c)) = S (calls c).
Proof.
  destruct (Exec w s c) as [r c'] eqn:E.
  by apply db_call_tables in E as [? _].
Qed.

Lemma keeps_tables_call : keeps_tables (db_call w Ok).
Proof.
  intros c r c' H. apply db_call_tables in H as [_ [H|(_ & _ & [= H])]]; done.
Qed.

Lemma keeps_tables_create n : keeps_tables (Exec w (CreateTableIfNotExists n)).
Proof.
  intros c r c' H. apply db_call_tables in H as [_ [H|(_ & _ & [= H])]]; done.
Qed.

Lemma keeps_tables_pragma : keeps_tables (Pragma w).
Proof.
  intros c r c' H. apply db_call_tables in H as [_ [H|(_ & _ & H)]]; [done|].
  destruct (pragmas_ok w); [|done]. by injection H.
Qed.

Lemma keeps_tables_schema : keeps_tables (initCamerasIndexSchema w).
Proof.
  unfold initCamerasIndexSchema.
  repeat (apply keeps_tables_bind; [|intros _]);
    try (apply keeps_tables_ignore, keeps_tables_pragma);
    apply keeps_tables_create.
Qed.

Lemma keeps_tables_schema_begin :
  keeps_tables (initCamerasIndexSchema w ;; Begin w).
Proof.
  apply keeps_tables_bind; [apply keeps_tables_schema|intros _].
  apply keeps_tables_call.
Qed.

Lemma keeps_tables_opening :
  keeps_tables (Open w ;; initCamerasIndexSchema w ;; Begin w).
Proof.
  apply keeps_tables_bind; [apply keeps_tables_call|intros _].
  apply keeps_tables_schema_begin.
Qed.

End Calls.

(** A pragma, whose error is dropped, is a call that changes nothing. *)
Lemma ignore_pragma w c :
  ignore_error (Pragma w) c = (Ok tt, {| tables := tables c; calls := S (calls c) |}).
Proof.
  unfold ignore_error, Pragma, db_call.
  destruct (db_ok w (calls c)); [destruct (pragmas_ok w)|]; reflexivity.
Qed.

Lemma InsertCamera_Ok id row db db' :
  sql_exec (InsertCamera id row) db = Ok db' ->
  cameras db !! id = None /\ db' = with_cameras db (<[id := row]> (cameras db)).
Proof.
  simpl. destruct (cameras db !! id); [done|]. by intros [= <-].
Qed.

Lemma InsertLabel_Ok id row db db' :
  sql_exec (InsertLabel id row) db = Ok db' ->
  labels db !! id = None /\ db' = with_labels db (<[id := row]> (labels db)).
Proof.
  simpl. destruct (labels db !! id); [done|]. by intros [= <-].
Qed.

(** One statement that went through, from a run that returned no error. *)
Ltac step_Ok H :=
  let c := fresh "c" in
  let Hs := fresh "Hs" in
  apply bind_Ok in H as ([] & c & Hs & H);
  apply Exec_Ok in Hs as (_ & Hs & _);
  simpl in Hs; injection Hs as Hs.

(** ** A rebuild that fails leaves the rows as they were *)

Lemma rebuild_error_keeps w rf cfg cams lbls st :
  let out := rebuildCamerasIndex w rf cfg cams lbls st in
  error out ≠ None -> tables_of (store out) = tables_of st.
Proof.
  unfold rebuildCamerasIndex.
  destruct (MkdirAll_ok w); simpl; [|done].
  destruct (Open w _) as [[[]|e] c] eqn:EO; simpl; [|done].
  pose proof (keeps_tables_call w _ _ _ EO) as HO. simpl in HO.
  destruct ((initCamerasIndexSchema w ;; Begin w) c) as [[[]|e] c1] eqn:ES; simpl.
  2:{ intros _. rewrite (keeps_tables_schema_begin w _ _ _ ES). done. }
  pose proof (keeps_tables_schema_begin w _ _ _ ES) as HS.
  destruct ((rebuild_tx w rf cfg cams lbls ;; Commit w) c1) as [[[]|e] c2] eqn:ET; simpl.
  - done.
  - intros _. congruence.
Qed.

(** ** What a rebuild is to leave *)

Lemma DB_eq (a b : DB) :
  cameras a = cameras b -> labels a = labels b ->
  cameras_fts a = cameras_fts b -> meta a = meta b -> a = b.
Proof. destruct a, b. simpl. by intros -> -> -> ->. Qed.

Lemma indexed_skip c cams : ¬ has_id c -> indexed (c :: cams) = indexed cams.
Proof. intros H. unfold indexed. by rewrite filter_cons_False. Qed.

Lemma indexed_keep c cams : has_id c -> indexed (c :: cams) = c :: indexed cams.
Proof. intros H. unfold indexed. by rewrite filter_cons_True. Qed.

Lemma label_entries_lookup_None w lbls l k :
  k ∉ camera_id_of <$> l ->
  (list_to_map (omap (label_entry w lbls) l) : gmap gostring LabelRow) !! k = None.
Proof.
  intros Hk. apply not_elem_of_list_to_map_1. intros Hin. apply Hk.
  apply list_elem_of_fmap in Hin as ([k' v] & -> & Hin).
  apply list_elem_of_omap in Hin as (x & Hx & Hl).
  apply list_elem_of_fmap. exists x. split; [|done].
  unfold label_entry in Hl. destruct (label_for _ _); [done|]. by inversion Hl.
Qed.

Lemma camera_entries_lookup_None w l k :
  k ∉ camera_id_of <$> l ->
  (list_to_map (camera_entry w <$> l) : gmap gostring CameraRow) !! k = None.
Proof.
  intros Hk. apply not_elem_of_list_to_map_1.
  rewrite <- list_fmap_compose. done.
Qed.

(** ** The loop over the records *)

Lemma insert_cams_Ok w lbls cams : forall c c',
  insert_cams w lbls cams c = (Ok tt, c') ->
  NoDup (camera_id_of <$> indexed cams)
  /\ (forall x, x ∈ indexed cams -> cameras (tables c) !! camera_id_of x = None)
  /\ cameras (tables c')
     = list_to_map (camera_entry w <$> indexed cams) ∪ cameras (tables c)
  /\ labels (tables c')
     = list_to_map (omap (label_entry w lbls) (indexed cams)) ∪ labels (tables c)
  /\ cameras_fts (tables c')
     = cameras_fts (tables c) ++ (shadow_entry w lbls <$> indexed cams)
  /\ meta (tables c') = meta (tables c).
Proof.
  induction cams as [|x rest IH]; intros c c' Hrun.
  - simpl in Hrun. inversion Hrun; subst. simpl.
    rewrite !(left_id_L ∅ (∪)), app_nil_r.
    split; [constructor|]. split; [intros ? H; inversion H|]. done.
  - simpl in Hrun. destruct (TrimSpace (camera_id_of x)) as [|r0 t0] eqn:Eid.
    { rewrite indexed_skip by (unfold has_id; congruence). by apply IH. }
    assert (Hx : has_id x) by (unfold has_id; congruence).
    rewrite indexed_keep by done.
    apply bind_Ok in Hrun as (raw & c0 & Hraw & Hrun).
    unfold lift in Hraw. injection Hraw as Hraw <-.
    apply bind_Ok in Hrun as ([] & c1 & Hcam & Hrun).
    apply Exec_Ok in Hcam as (_ & Hcam & _).
    apply InsertCamera_Ok in Hcam as [Hfresh Hc1].
    apply bind_Ok in Hrun as ([] & c2 & Hlbl & Hrun).
    apply bind_Ok in Hrun as ([] & c3 & Hfts & Hrun).
    apply Exec_Ok in Hfts as (_ & Hfts & _). simpl in Hfts.
    injection Hfts as Hc3.
    apply IH in Hrun as (Hnd & Hnew & Hcams & Hlbls & Hshadow & Hmeta).
    assert (Hraw' : raw_json_of w x = raw) by (unfold raw_json_of; by rewrite Hraw).
    assert (Hc2 : cameras (tables c2) = cameras (tables c1)
                  /\ cameras_fts (tables c2) = cameras_fts (tables c1)
                  /\ meta (tables c2) = meta (tables c1)
                  /\ labels (tables c2)
                     = list_to_map (omap (label_entry w lbls) [x]) ∪ labels (tables c1)).
    { simpl. unfold label_entry.
      destruct (label_for lbls (camera_id_of x)) as [|r1 l1] eqn:El.
      - inversion Hlbl; subst. simpl. by rewrite (left_id_L ∅ (∪)).
      - apply Exec_Ok in Hlbl as (_ & Hlbl & _).
        apply InsertLabel_Ok in Hlbl as [_ ->]. simpl.
        rewrite <- insert_union_l, (left_id_L ∅ (∪)). done. }
    destruct Hc2 as (Hc2c & Hc2f & Hc2m & Hc2l).
    rewrite <- Hc3 in *. simpl in *. rewrite Hc2c, Hc1 in *. simpl in *.
    assert (Hnotin : camera_id_of x ∉ camera_id_of <$> indexed rest).
    { intros Hin. apply list_elem_of_fmap in Hin as (y & Hy & Hin).
      specialize (Hnew y Hin). rewrite <- Hy in Hnew.
      by rewrite lookup_insert_eq in Hnew. }
    split; [by constructor|].
    split.
    { intros y Hy. apply elem_of_cons in Hy as [->|Hy]; [done|].
      specialize (Hnew y Hy). by apply lookup_insert_None in Hnew as [? _]. }
    split.
    { rewrite Hcams. unfold camera_entry at 2. rewrite Hraw'.
      rewrite <- insert_union_l. rewrite insert_union_r; [done|].
      by apply camera_entries_lookup_None. }
    split.
    { rewrite Hlbls, Hc2l. simpl. unfold label_entry at 2 3.
      destruct (label_for lbls (camera_id_of x)) as [|r1 l1] eqn:El.
      - simpl. by rewrite (left_id_L ∅ (∪)).
      - simpl. rewrite <- !insert_union_l, (left_id_L ∅ (∪)).
        rewrite insert_union_r; [done|].
        by apply label_entries_lookup_None. }
    split.
    { rewrite Hshadow, Hc2f. simpl. rewrite <- app_assoc. simpl.
      unfold shadow_entry at 2. by rewrite Hraw'. }
    by rewrite Hmeta, Hc2m.
Qed.

Lemma rebuild_tx_Ok w rf cfg cams lbls c c' :
  rebuild_tx w rf cfg cams lbls c = (Ok tt, c') ->
  NoDup (camera_id_of <$> indexed cams)
  /\ tables c' = rebuilt w rf cfg cams lbls (tables c).
Proof.
  unfold rebuild_tx. intros H.
  do 8 step_Ok H.
  apply bind_Ok in H as ([] & p1 & Hp1 & H).
  apply bind_Ok in H as ([] & p2 & Hp2 & H).
  apply bind_Ok in H as ([] & p3 & Hp3 & H).
  apply keeps_tables_call in Hp1, Hp2, Hp3.
  apply insert_cams_Ok in H as (Hnd & _ & Hcams & Hlbls & Hshadow & Hmeta).
  split; [done|].
  rewrite Hp3, Hp2, Hp1 in *.
  rewrite <- Hs6 in *. simpl in *. rewrite <- Hs5 in *. simpl in *.
  rewrite <- Hs4 in *. simpl in *. rewrite <- Hs3 in *. simpl in *.
  rewrite <- Hs2 in *. simpl in *. rewrite <- Hs1 in *. simpl in *.
  rewrite <- Hs0 in *. simpl in *. rewrite <- Hs in *. simpl in *.
  apply DB_eq; simpl.
  - by rewrite Hcams, (right_id_L ∅ (∪)).
  - by rewrite Hlbls, (right_id_L ∅ (∪)).
  - done.
  - done.
Qed.

(** When no error is returned, the transaction ran to its end and was
    committed on the tables found in the file. *)
Lemma rebuild_Ok_inv w rf cfg cams lbls st :
  error (rebuildCamerasIndex w rf cfg cams lbls st) = None ->
  exists c c',
    tables c = tables_of st
    /\ rebuild_tx w rf cfg cams lbls c = (Ok tt, c')
    /\ store (rebuildCamerasIndex w rf cfg cams lbls st) = Some (tables c').
Proof.
  unfold rebuildCamerasIndex.
  destruct (MkdirAll_ok w); simpl; [|done].
  destruct (Open w _) as [[[]|e] c] eqn:EO; simpl; [|done].
  pose proof (keeps_tables_call w _ _ _ EO) as HO. simpl in HO.
  destruct ((initCamerasIndexSchema w ;; Begin w) c) as [[[]|e] c1] eqn:ES;
    simpl; [|done].
  pose proof (keeps_tables_schema_begin w _ _ _ ES) as HS.
  destruct ((rebuild_tx w rf cfg cams lbls ;; Commit w) c1) as [[[]|e] c2] eqn:ET;
    simpl; [|done].
  intros _. apply bind_Ok in ET as ([] & c3 & Htx & Hcommit).
  apply keeps_tables_call in Hcommit.
  exists c1, c3. split; [congruence|]. split; [done|]. by rewrite Hcommit.
Qed.

Lemma rebuild_Ok_store w rf cfg cams lbls st :
  error (rebuildCamerasIndex w rf cfg cams lbls st) = None ->
  store (rebuildCamerasIndex w rf cfg cams lbls st)
  = Some (rebuilt w rf cfg cams lbls (tables_of st))
  /\ NoDup (camera_id_of <$> indexed cams).
Proof.
  intros H. apply rebuild_Ok_inv in H as (c & c' & Hc & Htx & ->).
  apply rebuild_tx_Ok in Htx as [Hnd ->]. by rewrite Hc.
Qed.

Lemma rebuild_mkdir_fails w rf cfg cams lbls st :
  MkdirAll_ok w = false ->
  rebuildCamerasIndex w rf cfg cams lbls st
  = {| store := st; error := Some "mkdir failed"%string; db_calls := 0 |}.
Proof. intros H. unfold rebuildCamerasIndex. by rewrite H. Qed.

(** C1. A rebuild either returns no error and leaves in the file the tables
    that reflect its input (a camera row and a shadow row for every record
    with an id, the label rows, the metadata of the build), or returns an
    error and leaves the rows of the four tables as they were: an insert
    that fails for one row keeps every row of the transaction out.  When
    the parent directory cannot be made, the rebuild returns an error,
    leaves the file as it was, and has made no call to the database. *)
Theorem rebuild_all_or_nothing
    (w : World) (rf : rootFlags) (cfg : Config)
    (cams : list (gmap gostring any)) (lbls : gmap gostring gostring)
    (st : Store) :
  let out := rebuildCamerasIndex w rf cfg cams lbls st in
  ((error out = None
    /\ store out = Some (rebuilt w rf cfg cams lbls (tables_of st)))
   \/ (error out ≠ None /\ tables_of (store out) = tables_of st))
  /\ (MkdirAll_ok w = false ->
      error out ≠ None /\ store out = st /\ db_calls out = 0%nat).
Proof.
  intros out. split.
  - destruct (error out) eqn:E.
    + right. split; [done|]. apply rebuild_error_keeps. fold out. by rewrite E.
    + left. split; [done|]. by apply rebuild_Ok_store.
  - intros H. subst out. by rewrite rebuild_mkdir_fails.
Qed.

Lemma rebuild_all_or_nothing_witness :
  store (rebuildCamerasIndex calm_world default_flags cfg_upper
           [cam_1; cam_2] front_desk None)
  = Some (rebuilt calm_world default_flags cfg_upper
            [cam_1; cam_2] front_desk empty_db).
Proof.
  destruct (rebuild_all_or_nothing calm_world default_flags cfg_upper
              [cam_1; cam_2] front_desk None) as [[[_ H]|[H _]] _].
  - exact H.
  - exfalso. apply H. vm_compute. reflexivity.
Defined.

(** ** A rebuild that meets no failure *)

Lemma db_call_always w f c :
  (forall n, db_fails w n = false) ->
  db_call w f c =
    match f (tables c) with
    | Ok db => (Ok tt, {| tables := db; calls := S (calls c) |})
    | Err e => (Err e, {| tables := tables c; calls := S (calls c) |})
    end.
Proof. intros H. unfold db_call, db_ok. rewrite H. reflexivity. Qed.

Lemma insert_cams_runs w lbls cams :
  (forall n, db_fails w n = false) ->
  Forall (fun x => is_err (json_Marshal w x) = false) (indexed cams) ->
  NoDup (camera_id_of <$> indexed cams) ->
  forall c,
    (forall x, x ∈ indexed cams ->
       cameras (tables c) !! camera_id_of x = None
       /\ labels (tables c) !! camera_id_of x = None) ->
    exists c', insert_cams w lbls cams c = (Ok tt, c').
Proof.
  intros Hdb. induction cams as [|x cams IH]; intros Hj Hnd c Hc.
  - exists c. reflexivity.
  - destruct (decide (has_id x)) as [Hx|Hx].
    + rewrite indexed_keep in Hj, Hnd, Hc by exact Hx.
      apply Forall_cons in Hj as [Hjx Hj].
      rewrite fmap_cons in Hnd. apply NoDup_cons in Hnd as [Hnx Hnd].
      destruct (Hc x) as [Hcx Hlx]; [left|].
      simpl. unfold has_id in Hx.
      destruct (TrimSpace (camera_id_of x)) eqn:Ht; [contradiction|].
      destruct (json_Marshal w x) as [raw|] eqn:Hraw; [|discriminate].
      unfold dbm_bind at 1. unfold lift at 1.
      unfold dbm_bind at 1. unfold Exec at 1. rewrite db_call_always by exact Hdb.
      simpl. rewrite Hcx.
      unfold dbm_bind at 1.
      set (c1 := {| tables := with_cameras (tables c) _; calls := _ |}).
      assert (exists c2,
        match label_for lbls (camera_id_of x) with
        | [] => dbm_ret ()
        | _ :: _ => Exec w (InsertLabel (camera_id_of x)
                      {| lbl_label := label_for lbls (camera_id_of x);
                         lbl_updated_at := now w |})
        end c1 = (Ok tt, c2)
        /\ forall y, camera_id_of y ≠ camera_id_of x ->
             cameras (tables c2) !! camera_id_of y = cameras (tables c) !! camera_id_of y
             /\ labels (tables c2) !! camera_id_of y = labels (tables c) !! camera_id_of y)
        as (c2 & -> & Hc2).
      { destruct (label_for lbls (camera_id_of x)).
        - exists c1. split; [reflexivity|]. intros y Hy. simpl.
          rewrite lookup_insert_ne by congruence. split; reflexivity.
        - unfold Exec. rewrite db_call_always by exact Hdb. simpl. rewrite Hlx.
          eexists. split; [reflexivity|]. intros y Hy. simpl.
          rewrite !lookup_insert_ne by congruence. split; reflexivity. }
      unfold dbm_bind at 1. unfold Exec at 1. rewrite db_call_always by exact Hdb.
      simpl. apply IH; [exact Hj | exact Hnd |].
      intros y Hy. simpl.
      assert (camera_id_of y ≠ camera_id_of x) as Hne.
      { intros E. apply Hnx. rewrite <- E. apply list_elem_of_fmap. eauto. }
      destruct (Hc2 y Hne) as [-> ->]. apply Hc. right. exact Hy.
    + rewrite indexed_skip in Hj, Hnd, Hc by exact Hx.
      simpl. unfold has_id in Hx.
      destruct (TrimSpace (camera_id_of x)) eqn:Ht; [|exfalso; apply Hx; discriminate].
      apply IH; assumption.
Qed.

Lemma insert_cams_Ok_json w lbls cams : forall c c',
  insert_cams w lbls cams c = (Ok tt, c') ->
  Forall (fun x => is_err (json_Marshal w x) = false) (indexed cams).
Proof.
  induction cams as [|x cams IH]; intros c c' H.
  - constructor.
  - destruct (decide (has_id x)) as [Hx|Hx].
    + rewrite indexed_keep by exact Hx. simpl in H. unfold has_id in Hx.
      destruct (TrimSpace (camera_id_of x)) eqn:Ht; [contradiction|].
      apply bind_Ok in H as (raw & c1 & Hraw & H).
      unfold lift in Hraw. injection Hraw as Hraw <-.
      apply bind_Ok in H as ([] & c2 & _ & H).
      apply bind_Ok in H as ([] & c3 & _ & H).
      apply bind_Ok in H as ([] & c4 & _ & H).
      constructor; [rewrite Hraw; reflexivity | eapply IH, H].
    + rewrite indexed_skip by exact Hx. simpl in H. unfold has_id in Hx.
      destruct (TrimSpace (camera_id_of x)) eqn:Ht; [|exfalso; apply Hx; discriminate].
      eapply IH, H.
Qed.

Lemma rebuild_tx_Ok_json w rf cfg cams lbls c c' :
  rebuild_tx w rf cfg cams lbls c = (Ok tt, c') ->
  Forall (fun x => is_err (json_Marshal w x) = false) (indexed cams).
Proof.
  unfold rebuild_tx. intros H.
  do 11 (apply bind_Ok in H as ([] & ? & _ & H)).
  eapply insert_cams_Ok_json, H.
Qed.

Lemma call_run w f c db :
  (forall n, db_fails w n = false) -> f (tables c) = Ok db ->
  db_call w f c = (Ok tt, {| tables := db; calls := S (calls c) |}).
Proof. intros H Hf. rewrite db_call_always by exact H. rewrite Hf. reflexivity. Qed.

Ltac run_call H :=
  erewrite bind_run; [|apply call_run; [exact H | simpl; reflexivity]].

Lemma call_up w f c db :
  db_ok w (calls c) = true -> f (tables c) = Ok db ->
  db_call w f c = (Ok tt, {| tables := db; calls := S (calls c) |}).
Proof. intros H Hf. unfold db_call. rewrite H, Hf. reflexivity. Qed.

(** The schema and [db.Begin] make seven calls. *)
Lemma opening_runs w c :
  db_up w (calls c + 6) = true ->
  (initCamerasIndexSchema w;; Begin w) c
  = (Ok tt, {| tables := tables c; calls := calls c + 7 |}).
Proof.
  intros Hup.
  assert (forall n, (n <= calls c + 6)%nat -> db_ok w n = true) as Hn
    by (intros n; apply db_up_ok; exact Hup).
  unfold initCamerasIndexSchema, Exec, Begin.
  erewrite bind_run.
  2:{ do 2 (erewrite bind_run; [|apply ignore_pragma]).
      do 3 (erewrite bind_run;
            [|apply call_up; [apply Hn; simpl; lia | reflexivity]]).
      apply call_up; [apply Hn; simpl; lia | reflexivity]. }
  rewrite call_up with (db := tables c) by (reflexivity || apply Hn; simpl; lia).
  simpl. do 2 f_equal. lia.
Qed.

Lemma db_up_always w n : (forall n, db_fails w n = false) -> db_up w n = true.
Proof.
  intros H. apply db_ok_up. intros m _. unfold db_ok. rewrite H. reflexivity.
Qed.

Lemma rebuild_tx_runs w rf cfg cams lbls c :
  (forall n, db_fails w n = false) ->
  NoDup (camera_id_of <$> indexed cams) ->
  Forall (fun x => is_err (json_Marshal w x) = false) (indexed cams) ->
  exists c', (rebuild_tx w rf cfg cams lbls;; Commit w) c = (Ok tt, c').
Proof.
  intros Hdb Hnd Hj. unfold rebuild_tx.
  edestruct (insert_cams_runs w lbls cams Hdb Hj Hnd) as (c' & Hc'); cycle 1.
  - erewrite bind_run.
    2:{ do 11 run_call Hdb. exact Hc'. }
    eexists. apply call_run; [exact Hdb | reflexivity].
  - intros x _. simpl. split; apply lookup_empty.
Qed.

(** Without a failure of the directory or of the database, a rebuild of
    records with different ids that [json.Marshal] encodes returns no
    error. *)
Lemma rebuild_runs w rf cfg cams lbls st :
  MkdirAll_ok w = true -> (forall n, db_fails w n = false) ->
  NoDup (camera_id_of <$> indexed cams) ->
  Forall (fun x => is_err (json_Marshal w x) = false) (indexed cams) ->
  error (rebuildCamerasIndex w rf cfg cams lbls st) = None.
Proof.
  intros Hmk Hdb Hnd Hj. unfold rebuildCamerasIndex. rewrite Hmk. simpl.
  unfold Open at 1. rewrite call_run with (db := tables_of st) by done.
  rewrite opening_runs by (apply db_up_always, Hdb).
  edestruct rebuild_tx_runs as (c2 & ->); [exact Hdb | exact Hnd | exact Hj |].
  reflexivity.
Qed.

(** A rebuild that returns an error leaves the file as it was, or an empty
    one where there was none. *)
Lemma rebuild_error_store w rf cfg cams lbls st :
  let out := rebuildCamerasIndex w rf cfg cams lbls st in
  error out ≠ None -> store out = st \/ (st = None /\ store out = Some empty_db).
Proof.
  unfold rebuildCamerasIndex.
  destruct (MkdirAll_ok w); simpl; [|by left].
  destruct (Open w _) as [[[]|e] c] eqn:EO; simpl; [|by left].
  pose proof (keeps_tables_call w _ _ _ EO) as HO. simpl in HO.
  destruct ((initCamerasIndexSchema w ;; Begin w) c) as [[[]|e] c1] eqn:ES; simpl.
  2:{ intros _. rewrite (keeps_tables_schema_begin w _ _ _ ES), HO.
      destruct st; [by left | by right]. }
  pose proof (keeps_tables_schema_begin w _ _ _ ES) as HS.
  destruct ((rebuild_tx w rf cfg cams lbls ;; Commit w) c1) as [[[]|e] c2] eqn:ET; simpl.
  - done.
  - intros _. rewrite HS, HO. destruct st; [by left | by right].
Qed.

(** ** Records without an id *)

Lemma insert_cams_indexed w lbls cams :
  insert_cams w lbls (indexed cams) = insert_cams w lbls cams.
Proof.
  induction cams as [|x rest IH]; [done|].
  destruct (decide (has_id x)) as [Hx|Hx].
  - rewrite indexed_keep by done. simpl. by rewrite IH.
  - rewrite indexed_skip by done. simpl.
    unfold has_id in Hx. destruct (TrimSpace (camera_id_of x)); [done|].
    by destruct Hx.
Qed.

Lemma rebuild_indexed w rf cfg cams lbls st :
  rebuildCamerasIndex w rf cfg (indexed cams) lbls st
  = rebuildCamerasIndex w rf cfg cams lbls st.
Proof.
  unfold rebuildCamerasIndex, rebuild_tx. by rewrite insert_cams_indexed.
Qed.

Lemma rebuilt_cameras_lookup w rf cfg cams lbls old x :
  NoDup (camera_id_of <$> indexed cams) ->
  x ∈ cams -> has_id x ->
  cameras (rebuilt w rf cfg cams lbls old) !! camera_id_of x
  = Some (camera_row (now w) (raw_json_of w x) x).
Proof.
  intros Hnd Hin Hx. simpl.
  apply elem_of_list_to_map_1.
  - by rewrite <- list_fmap_compose.
  - apply list_elem_of_fmap. exists x. split; [done|].
    unfold indexed. by apply list_elem_of_filter.
Qed.

Lemma rebuilt_cameras_dom w rf cfg cams lbls old :
  dom (cameras (rebuilt w rf cfg cams lbls old))
  = list_to_set (camera_id_of <$> indexed cams).
Proof.
  simpl. rewrite dom_list_to_map_L. by rewrite <- list_fmap_compose.
Qed.

Lemma blank_id_not_indexed cams x :
  ¬ has_id x -> camera_id_of x ∉ camera_id_of <$> indexed cams.
Proof.
  intros Hx Hin. apply list_elem_of_fmap in Hin as (y & Hy & Hin).
  unfold indexed in Hin. apply list_elem_of_filter in Hin as [Hy' _].
  unfold has_id in *. by rewrite Hy in Hx.
Qed.

(** C9. A rebuild does what it does on the records that have an id (a
    [camera_id] that is not blank), so a record without one neither fails
    the build nor changes what becomes of the others.  When the directory
    can be made, no call to the database fails, the records that have an id
    have different ids and [json.Marshal] encodes them, the rebuild returns
    no error, whatever records without an id the input has.  After a
    rebuild that returns no error, every record with an id has its camera
    row and its shadow row, and a record without an id has no row in any
    table. *)
Theorem rebuild_skips_blank_ids
    (w : World) (rf : rootFlags) (cfg : Config)
    (cams : list (gmap gostring any)) (lbls : gmap gostring gostring)
    (st : Store) :
  let out := rebuildCamerasIndex w rf cfg cams lbls st in
  out = rebuildCamerasIndex w rf cfg (indexed cams) lbls st
  /\ (MkdirAll_ok w = true -> (forall n, db_fails w n = false) ->
      NoDup (camera_id_of <$> indexed cams) ->
      Forall (fun x => is_err (json_Marshal w x) = false) (indexed cams) ->
      error out = None)
  /\ (error out = None ->
      forall x, x ∈ cams ->
        let db := tables_of (store out) in
        if decide (has_id x) then
          cameras db !! camera_id_of x
          = Some (camera_row (now w) (raw_json_of w x) x)
          /\ shadow_entry w lbls x ∈ cameras_fts db
        else
          cameras db !! camera_id_of x = None
          /\ labels db !! camera_id_of x = None
          /\ forall r, r ∈ cameras_fts db -> fts_camera_id r ≠ camera_id_of x).
Proof.
  intros out. split; [by rewrite rebuild_indexed|].
  split; [intros Hmk Hdb Hnd Hj; by apply rebuild_runs|].
  intros Hok x Hin db. subst db out.
  apply rebuild_Ok_store in Hok as [-> Hnd]. simpl tables_of.
  destruct (decide (has_id x)) as [Hx|Hx].
  - split; [by apply rebuilt_cameras_lookup|].
    simpl. apply list_elem_of_fmap. exists x. split; [done|].
    unfold indexed. by apply list_elem_of_filter.
  - pose proof (blank_id_not_indexed cams x Hx) as Hnot.
    split; [by apply camera_entries_lookup_None|].
    split; [by apply label_entries_lookup_None|].
    intros r Hr. simpl in Hr. apply list_elem_of_fmap in Hr as (y & -> & Hy).
    simpl. intros Heq. apply Hnot. apply list_elem_of_fmap. by exists y.
Qed.

Lemma rebuild_skips_blank_ids_witness :
  let out := rebuildCamerasIndex calm_world default_flags cfg_upper
               [cam_1; cam_without_id; cam_2] front_desk None in
  out = rebuildCamerasIndex calm_world default_flags cfg_upper
          (indexed [cam_1; cam_without_id; cam_2]) front_desk None
  /\ indexed [cam_1; cam_without_id; cam_2] = [cam_1; cam_2]
  /\ error out = None
  /\ cameras (tables_of (store out)) !! go "cam-2"
     = Some (camera_row 1700000000 (go "{}") cam_2)
  /\ shadow_entry calm_world front_desk cam_2 ∈ cameras_fts (tables_of (store out))
  /\ cameras (tables_of (store out)) !! camera_id_of cam_without_id = None.
Proof.
  intros out.
  destruct (rebuild_skips_blank_ids calm_world default_flags cfg_upper
              [cam_1; cam_without_id; cam_2] front_desk None)
    as (Heq & Hruns & Hrows).
  assert (error out = None) as Hok.
  { apply Hruns.
    - reflexivity.
    - intros n. reflexivity.
    - apply (bool_decide_unpack _). vm_compute. reflexivity.
    - apply Forall_forall. intros x _. reflexivity. }
  split; [exact Heq|].
  split; [exact (eq_refl [cam_1; cam_2]
                 <: indexed [cam_1; cam_without_id; cam_2] = [cam_1; cam_2])|].
  split; [exact Hok|].
  pose proof (Hrows Hok cam_2) as H2. cbv zeta in H2.
  destruct (decide (has_id cam_2)) as [_|Hn];
    [|exfalso; apply Hn; vm_compute; discriminate].
  destruct H2 as [H2 H2']; [right; right; left|].
  pose proof (Hrows Hok cam_without_id) as H0. cbv zeta in H0.
  destruct (decide (has_id cam_without_id)) as [Hy|_];
    [exfalso; apply Hy; vm_compute; reflexivity|].
  destruct H0 as [H0 _]; [right; left|].
  split; [exact H2|]. split; [exact H2'|exact H0].
Defined.

(** ** Two records with one id *)

Lemma NoDup_fmap_filter_lookup {A B} (f : A -> B) (P : A -> Prop)
    `{!forall x, Decision (P x)} (l : list A) :
  NoDup (f <$> filter P l) ->
  forall i j a b, l !! i = Some a -> l !! j = Some b -> P a -> P b ->
    f a = f b -> i = j.
Proof.
  induction l as [|x l IH]; intros Hnd i j a b Hi Hj Ha Hb Hf; [done|].
  assert (Hin : forall k y, l !! k = Some y -> P y -> f y ∈ f <$> filter P l).
  { intros k y Hk Hy. apply list_elem_of_fmap. exists y. split; [done|].
    apply list_elem_of_filter. split; [done|]. by eapply list_elem_of_lookup_2. }
  destruct i as [|i], j as [|j]; simpl in *.
  - done.
  - injection Hi as ->. rewrite filter_cons_True in Hnd by done.
    apply NoDup_cons in Hnd as [Hnot _]. destruct Hnot. rewrite Hf. by eapply Hin.
  - injection Hj as ->. rewrite filter_cons_True in Hnd by done.
    apply NoDup_cons in Hnd as [Hnot _]. destruct Hnot. rewrite <- Hf. by eapply Hin.
  - f_equal. eapply IH; try eassumption.
    destruct (decide (P x)).
    + rewrite filter_cons_True in Hnd by done. by apply NoDup_cons in Hnd as [_ ?].
    + by rewrite filter_cons_False in Hnd.
Qed.

(** C10, amended. When two records of the input have the same [camera_id],
    not blank, the rebuild returns an error and leaves the rows of the four
    tables as they were: the second insert into [cameras] breaks the primary
    key, and nothing is deduplicated or overwritten.  The file is left as it
    was, or empty where there was none. *)
Theorem rebuild_duplicate_id_fails
    (w : World) (rf : rootFlags) (cfg : Config)
    (cams : list (gmap gostring any)) (lbls : gmap gostring gostring)
    (st : Store) (i j : nat) (a b : gmap gostring any) :
  i ≠ j -> cams !! i = Some a -> cams !! j = Some b ->
  camera_id_of a = camera_id_of b -> has_id a ->
  let out := rebuildCamerasIndex w rf cfg cams lbls st in
  error out ≠ None /\ tables_of (store out) = tables_of st
  /\ (store out = st \/ (st = None /\ store out = Some empty_db)).
Proof.
  intros Hij Hi Hj Hid Ha out.
  assert (Herr : error out ≠ None).
  { intros Hok. apply rebuild_Ok_store in Hok as [_ Hnd]. apply Hij.
    eapply (NoDup_fmap_filter_lookup camera_id_of has_id cams Hnd); try eassumption.
    unfold has_id in *. by rewrite <- Hid. }
  split; [done|]. split; [by apply rebuild_error_keeps|].
  by apply rebuild_error_store.
Qed.

Lemma rebuild_duplicate_id_fails_witness :
  let out :=
    rebuildCamerasIndex calm_world default_flags cfg_upper
      [cam_1; cam_2; cam_1_again] front_desk None in
  error out ≠ None /\ tables_of (store out) = tables_of None
  /\ (store out = None \/ (@None DB = None /\ store out = Some empty_db)).
Proof.
  apply (rebuild_duplicate_id_fails calm_world default_flags cfg_upper
           [cam_1; cam_2; cam_1_again] front_desk None 0 2 cam_1 cam_1_again).
  - lia.
  - reflexivity.
  - reflexivity.
  - vm_compute. reflexivity.
  - vm_compute. discriminate.
Defined.

(** C10 as stated fails: two records with the same [camera_id], a string of
    spaces, which is not empty, are both skipped, and the rebuild returns no
    error. *)
Lemma rebuild_same_blank_id_succeeds :
  camera_id_of cam_without_id = go "  "
  /\ camera_id_of cam_without_id_again = go "  "
  /\ error (rebuildCamerasIndex calm_world default_flags cfg_upper
              [cam_without_id; cam_1; cam_without_id_again] front_desk None)
     = None
  /\ store (rebuildCamerasIndex calm_world default_flags cfg_upper
              [cam_without_id; cam_1; cam_without_id_again] front_desk None)
     = store (rebuildCamerasIndex calm_world default_flags cfg_upper
                [cam_1] front_desk None).
Proof. repeat split; vm_compute; reflexivity. Qed.

(** ** The label patch *)

Lemma patch_tx_unfold w cameraID label :
  patch_tx w cameraID label =
  (ignore_error (Exec w (label_stmt w cameraID label)) ;;
   ignore_error (Exec w (DeleteCamerasFtsWhere cameraID)) ;;
   ignore_error (Exec w (InsertCamerasFtsSelect (patch_label label) cameraID)) ;;
   Commit w).
Proof.
  unfold patch_tx, label_stmt, patch_label.
  destruct label as [l|]; [|done]. by destruct (TrimSpace l).
Qed.

Lemma patched_by_all w cameraID label db :
  patched_by true true true w cameraID label db = patched w cameraID label db.
Proof. reflexivity. Qed.

Lemma patched_by_none w cameraID label db :
  patched_by false false false w cameraID label db = db.
Proof. apply DB_eq; simpl; try done. apply app_nil_r. Qed.

(** A statement whose error is dropped: the tables are those that the
    statement leaves when the call goes through, and the same when not. *)
Lemma ignore_Exec w s c db :
  sql_exec s (tables c) = Ok db ->
  ignore_error (Exec w s) c
  = (Ok tt, {| tables := if db_ok w (calls c) then db else tables c;
               calls := S (calls c) |}).
Proof.
  intros Hs. unfold ignore_error, Exec, db_call. rewrite Hs.
  destruct (db_ok w (calls c)); reflexivity.
Qed.

(** A call that leaves the tables as they are. *)
Lemma call_keeps w f c :
  f (tables c) = Ok (tables c) ->
  db_call w f c
  = (if db_ok w (calls c) then Ok tt else Err db_down,
     {| tables := tables c; calls := S (calls c) |}).
Proof.
  intros Hf. unfold db_call. rewrite Hf.
  destruct (db_ok w (calls c)); reflexivity.
Qed.

(** The statements of a patch: each one acts on the tables when its call
    goes through, and the commit is the fourth call. *)
Lemma patch_tx_run w cameraID label c :
  exists c',
    patch_tx w cameraID label c
    = (if db_ok w (S (S (S (calls c)))) then Ok tt else Err db_down, c')
    /\ tables c'
       = patched_by (db_ok w (calls c)) (db_ok w (S (calls c)))
           (db_ok w (S (S (calls c)))) w cameraID label (tables c).
Proof.
  rewrite patch_tx_unfold.
  assert (exists db1, sql_exec (label_stmt w cameraID label) (tables c) = Ok db1
            /\ cameras db1 = cameras (tables c)
            /\ labels db1 = labels (patched w cameraID label (tables c))
            /\ cameras_fts db1 = cameras_fts (tables c)
            /\ meta db1 = meta (tables c)) as (db1 & Hs1 & Hc1 & Hl1 & Hf1 & Hm1).
  { unfold label_stmt. simpl. destruct (patch_label label); eexists; split; done. }
  erewrite bind_run; [|apply ignore_Exec; exact Hs1].
  erewrite bind_run; [|apply ignore_Exec; simpl; reflexivity].
  set (t1 := if db_ok w (calls c) then db1 else tables c).
  simpl calls. simpl tables.
  set (t2 := if db_ok w (S (calls c)) then _ else _).
  assert (exists db3, sql_exec (InsertCamerasFtsSelect (patch_label label) cameraID) t2
                      = Ok db3
            /\ cameras db3 = cameras t2 /\ labels db3 = labels t2
            /\ meta db3 = meta t2
            /\ cameras_fts db3
               = cameras_fts t2
                 ++ match cameras t2 !! cameraID with
                    | Some cam => [fts_of_camera cameraID (patch_label label) cam]
                    | None => []
                    end) as (db3 & Hs3 & Hc3 & Hl3 & Hm3 & Hf3).
  { simpl. destruct (cameras t2 !! cameraID); eexists; split; try done.
    repeat split; try done. by rewrite app_nil_r. }
  erewrite bind_run; [|apply ignore_Exec; exact Hs3].
  unfold Commit. rewrite call_keeps by reflexivity. simpl.
  eexists. split; [reflexivity|]. simpl.
  assert (cameras t2 = cameras (tables c)) as Ec2.
  { subst t2 t1. destruct (db_ok w (S (calls c))), (db_ok w (calls c)); simpl; done. }
  apply DB_eq; simpl.
  - destruct (db_ok w (S (S (calls c)))); [by rewrite Hc3|done].
  - assert (labels t2 = if db_ok w (calls c)
                        then labels (patched w cameraID label (tables c))
                        else labels (tables c)) as El2.
    { subst t2 t1. destruct (db_ok w (S (calls c))), (db_ok w (calls c)); simpl; done. }
    destruct (db_ok w (S (S (calls c)))); [by rewrite Hl3|done].
  - assert (cameras_fts t2
            = if db_ok w (S (calls c))
              then filter (fun r => fts_camera_id r ≠ cameraID) (cameras_fts (tables c))
              else cameras_fts (tables c)) as Ef2.
    { subst t2 t1. destruct (db_ok w (S (calls c))), (db_ok w (calls c)); simpl;
        by rewrite ?Hf1. }
    destruct (db_ok w (S (S (calls c)))).
    + by rewrite Hf3, Ef2, Ec2.
    + by rewrite Ef2, app_nil_r.
  - assert (meta t2 = meta (tables c)) as Em2.
    { subst t2 t1. destruct (db_ok w (S (calls c))), (db_ok w (calls c)); simpl; done. }
    destruct (db_ok w (S (S (calls c)))); [by rewrite Hm3|done].
Qed.

(** The calls of a patch before its statements: [sql.Open], the schema and
    [db.Begin] return no error when the calls other than the pragmas go
    through, and then they are eight. *)
Lemma opening_run w db :
  exists r c1,
    (Open w ;; initCamerasIndexSchema w ;; Begin w) {| tables := db; calls := 0 |}
    = (r, c1)
    /\ tables c1 = db
    /\ (forallb (db_ok w) [0; 3; 4; 5; 6; 7]%nat = true -> r = Ok tt /\ calls c1 = 8%nat)
    /\ (forallb (db_ok w) [0; 3; 4; 5; 6; 7]%nat = false -> is_err r = true).
Proof.
  unfold Open, initCamerasIndexSchema, Begin, Exec. simpl forallb.
  unfold dbm_bind at 1. rewrite call_keeps by reflexivity. simpl calls.
  destruct (db_ok w 0);
    [|do 2 eexists; split; [reflexivity|]; simpl; repeat split; done].
  unfold dbm_bind at 1. unfold dbm_bind at 1. rewrite ignore_pragma.
  unfold dbm_bind at 1. rewrite ignore_pragma. simpl calls. simpl tables.
  unfold dbm_bind at 1. rewrite call_keeps by reflexivity. simpl calls.
  destruct (db_ok w 3);
    [|do 2 eexists; split; [reflexivity|]; simpl; repeat split; done].
  unfold dbm_bind at 1. rewrite call_keeps by reflexivity. simpl calls.
  destruct (db_ok w 4);
    [|do 2 eexists; split; [reflexivity|]; simpl; repeat split; done].
  unfold dbm_bind at 1. rewrite call_keeps by reflexivity. simpl calls.
  destruct (db_ok w 5);
    [|do 2 eexists; split; [reflexivity|]; simpl; repeat split; done].
  rewrite call_keeps by reflexivity. simpl calls.
  destruct (db_ok w 6);
    [|do 2 eexists; split; [reflexivity|]; simpl; repeat split; done].
  rewrite call_keeps by reflexivity. simpl calls.
  destruct (db_ok w 7);
    do 2 eexists; (split; [reflexivity|]); simpl; repeat split; done.
Qed.

(** What a patch does: nothing when it is not committed, and else what those
    of its statements that went through have done. *)
Lemma tryUpdateIndexLabel_run w cameraID label st :
  tryUpdateIndexLabel w cameraID label st
  = if patch_commits w cameraID
    then patched_by (db_ok w 8) (db_ok w 9) (db_ok w 10) w cameraID label <$> st
    else st.
Proof.
  unfold tryUpdateIndexLabel, patch_commits.
  destruct (TrimSpace cameraID) as [|r0 t0] eqn:Ht; [reflexivity|].
  rewrite bool_decide_true by discriminate.
  destruct st as [db|]; [|destruct (_ && _); reflexivity].
  destruct (Stat_fails w); [reflexivity|].
  destruct (opening_run w db) as (r & c1 & -> & Ht1 & Hok & Hno).
  change (forallb (db_ok w) [0; 3; 4; 5; 6; 7; 11]%nat)
    with (db_ok w 0 && (db_ok w 3 && (db_ok w 4 && (db_ok w 5 && (db_ok w 6
            && (db_ok w 7 && (db_ok w 11 && true))))))).
  change (forallb (db_ok w) [0; 3; 4; 5; 6; 7]%nat)
    with (db_ok w 0 && (db_ok w 3 && (db_ok w 4 && (db_ok w 5 && (db_ok w 6
            && (db_ok w 7 && true)))))) in Hok, Hno.
  destruct (db_ok w 0 && (db_ok w 3 && (db_ok w 4 && (db_ok w 5 && (db_ok w 6
              && (db_ok w 7 && true)))))) eqn:Eo.
  - destruct Hok as [-> Hc1]; [reflexivity|].
    destruct (patch_tx_run w cameraID label c1) as (c2 & -> & Ht2).
    rewrite Hc1 in *. rewrite Ht2, Ht1.
    assert (db_ok w 0 && (db_ok w 3 && (db_ok w 4 && (db_ok w 5 && (db_ok w 6
              && (db_ok w 7 && (db_ok w 11 && true))))))
            = db_ok w 11) as ->.
    { repeat (apply andb_prop in Eo as [-> Eo]). simpl. apply andb_true_r. }
    simpl. destruct (db_ok w 11); reflexivity.
  - assert (db_ok w 0 && (db_ok w 3 && (db_ok w 4 && (db_ok w 5 && (db_ok w 6
              && (db_ok w 7 && (db_ok w 11 && true))))))
            = false) as ->.
    { destruct (db_ok w 0), (db_ok w 3), (db_ok w 4), (db_ok w 5), (db_ok w 6),
        (db_ok w 7); simpl in *; done. }
    simpl. destruct r; [by specialize (Hno eq_refl)|reflexivity].
Qed.

(** A patch leaves the file as it was, or with what some of its statements
    have done. *)
Lemma tryUpdateIndexLabel_cases w cameraID label st :
  tryUpdateIndexLabel w cameraID label st = st
  \/ exists db l d i, st = Some db /\ TrimSpace cameraID ≠ []
       /\ tryUpdateIndexLabel w cameraID label st
          = Some (patched_by l d i w cameraID label db).
Proof.
  rewrite tryUpdateIndexLabel_run.
  destruct (patch_commits w cameraID) eqn:E; [|by left].
  destruct st as [db|]; [|by left]. right.
  exists db, (db_ok w 8), (db_ok w 9), (db_ok w 10).
  split; [done|]. split; [|done].
  unfold patch_commits in E. apply andb_prop in E as [E _].
  apply andb_prop in E as [E _]. by apply bool_decide_eq_true in E.
Qed.

(** ** The shadow table follows the cameras and the labels *)

Lemma shadow_consistent_empty : shadow_consistent empty_db.
Proof.
  split.
  - unfold shadow_ids. simpl. by rewrite dom_empty_L.
  - intros r Hr. inversion Hr.
Qed.

Lemma label_entries_NoDup w lbls l :
  NoDup (camera_id_of <$> l) -> NoDup ((omap (label_entry w lbls) l).*1).
Proof.
  induction l as [|x l IH]; [constructor|].
  rewrite fmap_cons. intros [Hx Hnd]%NoDup_cons. simpl.
  destruct (label_entry w lbls x) as [[k v]|] eqn:E; [|by apply IH].
  simpl. apply NoDup_cons. split; [|by apply IH].
  intros Hin. apply Hx.
  unfold label_entry in E. destruct (label_for _ _); [done|]. injection E as <- _.
  apply list_elem_of_fmap in Hin as ([k' v'] & -> & Hin).
  apply list_elem_of_omap in Hin as (y & Hy & Hl).
  apply list_elem_of_fmap. exists y. split; [|done].
  unfold label_entry in Hl. destruct (label_for _ _); [done|]. by inversion Hl.
Qed.

Lemma rebuilt_stored_label w rf cfg cams lbls old x :
  NoDup (camera_id_of <$> indexed cams) -> x ∈ indexed cams ->
  stored_label (rebuilt w rf cfg cams lbls old) (camera_id_of x)
  = label_for lbls (camera_id_of x).
Proof.
  intros Hnd Hx. unfold stored_label. simpl.
  destruct (label_for lbls (camera_id_of x)) as [|r0 l0] eqn:El.
  - rewrite not_elem_of_list_to_map_1; [done|].
    intros Hin. apply list_elem_of_fmap in Hin as ([k v] & Hk & Hin). simpl in Hk.
    apply list_elem_of_omap in Hin as (y & Hy & Hl).
    unfold label_entry in Hl.
    destruct (label_for lbls (camera_id_of y)) eqn:Ey; [done|].
    injection Hl as <- _. rewrite <- Hk in Ey. congruence.
  - erewrite elem_of_list_to_map_1; [|by apply label_entries_NoDup|].
    2:{ apply list_elem_of_omap. exists x. split; [done|].
        unfold label_entry. rewrite El. reflexivity. }
    done.
Qed.

Lemma rebuilt_consistent w rf cfg cams lbls old :
  NoDup (camera_id_of <$> indexed cams) ->
  shadow_consistent (rebuilt w rf cfg cams lbls old).
Proof.
  intros Hnd. split.
  - unfold shadow_ids. rewrite rebuilt_cameras_dom. simpl.
    rewrite <- list_fmap_compose. done.
  - intros r Hr. simpl in Hr. apply list_elem_of_fmap in Hr as (x & -> & Hx).
    simpl. by rewrite rebuilt_stored_label.
Qed.

Lemma patched_consistent w cameraID label db :
  shadow_consistent db -> shadow_consistent (patched w cameraID label db).
Proof.
  intros [Hids Hlbl]. split.
  - unfold shadow_ids in *. simpl. rewrite <- Hids.
    apply set_eq. intros k.
    rewrite !elem_of_list_to_set, fmap_app, elem_of_app, !list_elem_of_fmap.
    split.
    + intros [(r & -> & Hr)|(r & -> & Hr)].
      * apply list_elem_of_filter in Hr as [_ Hr]. by exists r.
      * destruct (cameras db !! cameraID) as [c|] eqn:Ec; [|inversion Hr].
        apply list_elem_of_singleton in Hr as ->. simpl.
        assert (cameraID ∈ dom (cameras db)) as Hd by (apply elem_of_dom; eauto).
        rewrite <- Hids in Hd. apply elem_of_list_to_set in Hd.
        by apply list_elem_of_fmap in Hd.
    + intros (r & -> & Hr).
      destruct (decide (fts_camera_id r = cameraID)) as [Heq|Hne].
      * right.
        assert (cameraID ∈ dom (cameras db)) as Hd.
        { rewrite <- Hids. apply elem_of_list_to_set, list_elem_of_fmap. by exists r. }
        apply elem_of_dom in Hd as [c Hc]. rewrite Hc.
        exists (fts_of_camera cameraID (patch_label label) c).
        split; [done|]. by apply list_elem_of_singleton.
      * left. exists r. split; [done|]. by apply list_elem_of_filter.
  - intros r Hr. simpl in Hr. apply elem_of_app in Hr as [Hr|Hr].
    + apply list_elem_of_filter in Hr as [Hne Hr].
      rewrite (Hlbl r Hr). unfold stored_label. simpl.
      destruct (patch_label label).
      * by rewrite lookup_delete_ne.
      * by rewrite lookup_insert_ne.
    + destruct (cameras db !! cameraID) as [c|]; [|inversion Hr].
      apply list_elem_of_singleton in Hr as ->. unfold stored_label. simpl.
      destruct (patch_label label).
      * by rewrite lookup_delete_eq.
      * by rewrite lookup_insert_eq.
Qed.

Lemma patch_whole_cases w cameraID label st :
  patch_whole w cameraID = true ->
  tryUpdateIndexLabel w cameraID label st = st
  \/ exists db, st = Some db
       /\ tryUpdateIndexLabel w cameraID label st
          = Some (patched w cameraID label db).
Proof.
  intros H. rewrite tryUpdateIndexLabel_run.
  unfold patch_whole, patch_statements_run in H.
  destruct (patch_commits w cameraID); [|by left].
  destruct st as [db|]; [|by left]. right. exists db. split; [done|].
  simpl in H. apply andb_prop in H as [-> H]. apply andb_prop in H as [-> H].
  apply andb_prop in H as [-> _]. reflexivity.
Qed.

(** C2, amended. After a rebuild that returns no error, the shadow table has
    the cameras of the cameras table and every shadow row has the label that
    the labels table holds for its camera, empty without a label row; and a
    label patch on a file of which this is true leaves it true when no
    statement of the patch fails in a transaction that is committed: when
    the three statements go through, or the patch is not committed. *)
Theorem shadow_table_consistent
    (w : World) (rf : rootFlags) (cfg : Config)
    (cams : list (gmap gostring any)) (lbls : gmap gostring gostring)
    (cameraID : gostring) (label : option gostring) (st : Store) :
  (error (rebuildCamerasIndex w rf cfg cams lbls st) = None ->
   shadow_consistent
     (tables_of (store (rebuildCamerasIndex w rf cfg cams lbls st))))
  /\ (patch_whole w cameraID = true ->
      shadow_consistent (tables_of st) ->
      shadow_consistent (tables_of (tryUpdateIndexLabel w cameraID label st))).
Proof.
  split.
  - intros Hok. apply rebuild_Ok_store in Hok as [-> Hnd].
    by apply rebuilt_consistent.
  - intros Hw Hst.
    destruct (patch_whole_cases w cameraID label st Hw)
      as [->|(db & -> & ->)]; [done|].
    by apply patched_consistent.
Qed.

Lemma shadow_table_consistent_witness :
  let st := store (rebuildCamerasIndex calm_world default_flags cfg_upper
                     [cam_1; cam_2] front_desk None) in
  shadow_consistent (tables_of st)
  /\ shadow_consistent
       (tables_of (tryUpdateIndexLabel calm_world (go "cam-1")
                     (Some (go "Cathedral - Nave")) st))
  /\ shadow_consistent
       (tables_of (tryUpdateIndexLabel (world_failing_at 11) (go "cam-1")
                     (Some (go "Cathedral - Nave")) st)).
Proof.
  intros st.
  assert (H : shadow_consistent (tables_of st)).
  { apply (proj1 (shadow_table_consistent calm_world default_flags cfg_upper
                    [cam_1; cam_2] front_desk [] None None)).
    vm_compute. reflexivity. }
  split; [exact H|]. split.
  - exact (proj2 (shadow_table_consistent calm_world default_flags cfg_upper
                    [] ∅ (go "cam-1") (Some (go "Cathedral - Nave")) st)
                 eq_refl H).
  - exact (proj2 (shadow_table_consistent (world_failing_at 11) default_flags
                    cfg_upper [] ∅ (go "cam-1") (Some (go "Cathedral - Nave")) st)
                 eq_refl H).
Defined.

(** C2 as stated fails: a patch drops the error of each of its statements
    and commits.  On the index of two cameras, the second with the label
    [Front desk], a patch that gives the second camera the label [Lobby]
    leaves the old shadow row beside the new one when its DELETE fails, and
    no shadow row of the camera when its INSERT fails. *)
Lemma label_patch_commits_failed_statements :
  let st := store (rebuildCamerasIndex calm_world default_flags cfg_upper
                     [cam_1; cam_2] front_desk None) in
  let st9 := tryUpdateIndexLabel (world_failing_at 9) (go "cam-2")
               (Some (go "Lobby")) st in
  let st10 := tryUpdateIndexLabel (world_failing_at 10) (go "cam-2")
                (Some (go "Lobby")) st in
  shadow_labels st = [(go "cam-1", []); (go "cam-2", go "Front desk")]
  /\ stored_label (tables_of st9) (go "cam-2") = go "Lobby"
  /\ shadow_labels st9
     = [(go "cam-1", []); (go "cam-2", go "Front desk"); (go "cam-2", go "Lobby")]
  /\ ¬ shadow_consistent (tables_of st9)
  /\ bool_decide (go "cam-2" ∈ dom (cameras (tables_of st10))) = true
  /\ shadow_labels st10 = [(go "cam-1", [])]
  /\ ¬ shadow_consistent (tables_of st10).
Proof.
  intros st st9 st10.
  split; [vm_compute; reflexivity|].
  split; [vm_compute; reflexivity|].
  split; [vm_compute; reflexivity|].
  split.
  { intros [_ H].
    specialize (H (fts_of_camera (go "cam-2") (go "Front desk")
                     (camera_row 1700000000 (go "{}") cam_2))).
    assert (go "Front desk" = go "Lobby") as E; [|discriminate E].
    apply H. vm_compute. right. left. }
  split; [vm_compute; reflexivity|].
  split; [vm_compute; reflexivity|].
  intros [H _].
  apply (f_equal (fun s => bool_decide (go "cam-2" ∈ s))) in H.
  vm_compute in H. discriminate H.
Qed.

(** C8, amended. A label patch returns nothing, so no error reaches the
    caller.  It leaves the cameras table and the metadata as they are, and
    the label rows and shadow rows of every other camera; with no index
    file it does nothing.  For a camera that is not in the cameras table
    (and has no shadow row) it leaves the shadow table as it is: of the
    stored rows only the label row of that camera may change. *)
Theorem label_patch_frame
    (w : World) (cameraID : gostring) (label : option gostring) (st : Store) :
  let st' := tryUpdateIndexLabel w cameraID label st in
  cameras (tables_of st') = cameras (tables_of st)
  /\ meta (tables_of st') = meta (tables_of st)
  /\ (forall id, id ≠ cameraID ->
        labels (tables_of st') !! id = labels (tables_of st) !! id)
  /\ filter (fun r => fts_camera_id r ≠ cameraID) (cameras_fts (tables_of st'))
     = filter (fun r => fts_camera_id r ≠ cameraID) (cameras_fts (tables_of st))
  /\ (st = None -> st' = None)
  /\ (cameras (tables_of st) !! cameraID = None ->
      filter (fun r => fts_camera_id r = cameraID) (cameras_fts (tables_of st)) = [] ->
      cameras_fts (tables_of st') = cameras_fts (tables_of st)).
Proof.
  intros st'. subst st'.
  destruct (tryUpdateIndexLabel_cases w cameraID label st)
    as [->|(db & l & d & i & -> & _ & ->)].
  { repeat split; done. }
  simpl. split; [done|]. split; [done|]. split; [|split; [|split; [done|]]].
  - intros id Hid. destruct l; [|done]. simpl. destruct (patch_label label).
    + by rewrite lookup_delete_ne.
    + by rewrite lookup_insert_ne.
  - rewrite filter_app.
    assert (filter (fun r => fts_camera_id r ≠ cameraID)
              (if i then
                 match cameras db !! cameraID with
                 | Some c => [fts_of_camera cameraID (patch_label label) c]
                 | None => []
                 end
               else []) = []) as ->.
    { destruct i; [|done]. destruct (cameras db !! cameraID); [|done].
      by rewrite filter_cons_False by (simpl; tauto). }
    rewrite app_nil_r. destruct d; [|done].
    rewrite list_filter_filter. apply list_filter_iff. tauto.
  - intros -> Hnone.
    assert ((if i then [] else []) = @nil FtsRow) as -> by (by destruct i).
    rewrite app_nil_r. destruct d; [|done].
    induction (cameras_fts db) as [|r l' IH]; [done|].
    destruct (decide (fts_camera_id r = cameraID)) as [Heq|Hne].
    + by rewrite filter_cons_True in Hnone.
    + rewrite filter_cons_False in Hnone by done.
      rewrite filter_cons_True by done. by rewrite IH.
Qed.

Lemma label_patch_frame_witness :
  cameras_fts (tables_of (tryUpdateIndexLabel calm_world (go "cam-9")
                            (Some (go "Lobby")) (Some empty_db)))
  = cameras_fts empty_db.
Proof.
  destruct (label_patch_frame calm_world (go "cam-9") (Some (go "Lobby"))
              (Some empty_db)) as (_ & _ & _ & _ & _ & H).
  apply H; reflexivity.
Defined.

(** C8 as stated fails: a patch for a camera that is not in the cameras
    table is not without effect, it writes the label row of that camera. *)
Lemma label_patch_writes_label_of_unknown_camera :
  cameras empty_db !! go "cam-9" = None
  /\ labels empty_db !! go "cam-9" = None
  /\ tryUpdateIndexLabel calm_world (go "cam-9") (Some (go "Lobby")) (Some empty_db)
     = Some {| cameras := ∅;
               labels := {[ go "cam-9" :=
                 {| lbl_label := go "Lobby"; lbl_updated_at := 1700000000 |} ]};
               cameras_fts := [];
               meta := ∅ |}.
Proof.
  split; [done|]. split; [done|]. vm_compute. reflexivity.
Qed.

(** ** The model on the inputs of the tests *)

Example tokenize_front_door :
  tokenizeQuery (go "Front-Door!") = [go "front"; go "door"].
Proof. vm_compute. reflexivity. Qed.

Example search_by_site_token :
  buildFTSQuery (go "cameras in cathedral") = Ok (go "cathedral*")
  /\ buildFTSQuery (go "north door d40") = Ok (go "north* AND door* AND d40*").
Proof. split; vm_compute; reflexivity. Qed.

Example sanitize_examples :
  sanitizePathComponent (go "  My Org/1 ") = go "my_org_1"
  /\ sanitizePathComponent (go "__") = go "unknown"
  /\ sanitizePathComponent (go "api.verkada.com") = go "api.verkada.com".
Proof. repeat split; vm_compute; reflexivity. Qed.

Example clean_examples :
  Clean (go "a//b/./c/../../d/") = go "a/d"
  /\ Clean (go "/../a/..") = go "/"
  /\ Clean (go "../../a/../..") = go "../../.."
  /\ Clean (go "") = go ".".
Proof. repeat split; vm_compute; reflexivity. Qed.

Example FormatInt_examples :
  FormatInt 0 = go "0" /\ FormatInt (-120) = go "-120"
  /\ FormatInt 1700000000 = go "1700000000".
Proof. repeat split; vm_compute; reflexivity. Qed.

Example pickString_number :
  pickString {[ go "id" := AFloat64 (FIntegral 42) ]} id_keys = go "42"
  /\ pickString {[ go "camera_id" := AOther; go "id" := ABool true ]} id_keys
     = go "true".
Proof. split; vm_compute; reflexivity. Qed.

Example label_update_affects_shadow_row :
  let st := store (rebuildCamerasIndex calm_world default_flags cfg_upper
                     [cam_1; cam_2] front_desk None) in
  shadow_labels st = [(go "cam-1", []); (go "cam-2", go "Front desk")]
  /\ shadow_labels
       (tryUpdateIndexLabel calm_world (go "cam-1")
          (Some (go "Cathedral - Nave")) st)
     = [(go "cam-2", go "Front desk"); (go "cam-1", go "Cathedral - Nave")]
  /\ shadow_labels (tryUpdateIndexLabel calm_world (go "cam-2") None st)
     = [(go "cam-1", []); (go "cam-2", [])].
Proof. repeat split; vm_compute; reflexivity. Qed.

Example rebuild_with_no_record :
  let st := store (rebuildCamerasIndex calm_world default_flags cfg_upper
                     [cam_1; cam_2] front_desk None) in
  let out := rebuildCamerasIndex calm_world default_flags cfg_upper [] ∅ st in
  error out = None
  /\ cameras (tables_of (store out)) = ∅
  /\ cameras_fts (tables_of (store out)) = []
  /\ meta (tables_of (store out)) !! go "built_at" = Some (go "1700000000").
Proof. repeat split; vm_compute; reflexivity. Qed.

(** A database that fails from its tenth call on, in the middle of the rebuild. *)
Example rebuild_when_the_database_fails :
  let w :=
    {| now := 1700000001; MkdirAll_ok := true; Stat_fails := false;
       json_Marshal := fun _ => Ok (go "{}"); path_env := test_env;
       pragmas_ok := false; db_fails := fun n => (9 <=? n)%nat |} in
  let st := store (rebuildCamerasIndex calm_world default_flags cfg_upper
                     [cam_1; cam_2] front_desk None) in
  let out := rebuildCamerasIndex w default_flags cfg_lower [cam_2] ∅ st in
  error out = Some db_down /\ store out = st /\ db_calls out = 10%nat.
Proof. repeat split; vm_compute; reflexivity. Qed.

(** * More properties

    Properties of the index beyond those that its specification states, and
    of the code around it: the status and the search, the fetch of the
    inventory, the listing of cameras, and the configuration. *)

Import Listing.

(** ** A rebuild does not look at the rows it replaces *)

Lemma blind_ret P {A} (a : A) : blind P P (dbm_ret a).
Proof. intros c c' Hn H. repeat split; simpl; auto. Qed.

Lemma blind_lift P {A} (r : result A) : blind P P (lift r).
Proof. intros c c' Hn H. repeat split; simpl; auto. Qed.

Lemma blind_bind P Q R {A B} (m : DBM A) (k : A -> DBM B) :
  blind P Q m -> (forall a, blind Q R (k a)) -> blind P R (dbm_bind m k).
Proof.
  intros Hm Hk c c' Hn H. unfold dbm_bind.
  destruct (Hm c c' Hn H) as (Hr & Hc & Hq).
  destruct (m c) as [[a|e] c1], (m c') as [[a'|e'] c1']; simpl in *;
    try discriminate.
  - injection Hr as <-. apply Hk; auto.
  - injection Hr as <-. repeat split; auto. discriminate.
Qed.

Lemma blind_ignore P {A} (m : DBM A) :
  blind P any_rows m -> blind P any_rows (ignore_error m).
Proof.
  intros Hm c c' Hn H. destruct (Hm c c' Hn H) as (_ & Hc & _).
  unfold ignore_error; simpl. repeat split; auto.
Qed.

Lemma blind_call P Q w f : respects P Q f -> blind P Q (db_call w f).
Proof.
  intros Hf c c' Hn H. unfold db_call. rewrite <- Hn.
  destruct (db_ok w (calls c)); [|simpl; repeat split; auto; discriminate].
  specialize (Hf _ _ H).
  destruct (f (tables c)), (f (tables c')); simpl; try contradiction;
    subst; repeat split; auto; discriminate.
Qed.

Lemma respects_any f :
  (forall a b, match f a, f b with
               | Ok _, Ok _ => True
               | Err e, Err e' => e = e'
               | _, _ => False
               end) ->
  respects any_rows any_rows f.
Proof. intros H a b _. specialize (H a b). destruct (f a), (f b); auto. Qed.

Lemma sql_exec_blind s : respects same_rows same_rows (sql_exec s).
Proof.
  intros a b (Hc & Hl & Hf).
  destruct s; simpl; rewrite <- ?Hc, <- ?Hl, <- ?Hf;
    try match goal with
        | |- context [?m !! ?k] => destruct (m !! k)
        end;
    try reflexivity; repeat split; simpl; congruence.
Qed.

Lemma blind_Exec w s : blind same_rows same_rows (Exec w s).
Proof. apply blind_call, sql_exec_blind. Qed.

Lemma blind_schema w : blind any_rows any_rows (initCamerasIndexSchema w).
Proof.
  unfold initCamerasIndexSchema.
  repeat (eapply blind_bind; [|intros _]);
    try apply blind_ignore; apply blind_call, respects_any; intros a b;
    simpl; try exact I.
  all: unfold Pragma; destruct (pragmas_ok w); auto.
Qed.

Lemma blind_insert_cams w lbls cams :
  blind same_rows same_rows (insert_cams w lbls cams).
Proof.
  induction cams as [|x cams IH]; simpl.
  - apply blind_ret.
  - destruct (TrimSpace (camera_id_of x)); [exact IH|].
    eapply blind_bind; [apply blind_lift|]. intros raw.
    eapply blind_bind; [apply blind_Exec|]. intros _.
    eapply blind_bind.
    { destruct (label_for lbls (camera_id_of x));
        [apply blind_ret | apply blind_Exec]. }
    intros _. eapply blind_bind; [apply blind_Exec|]. intros _.
    exact IH.
Qed.

Lemma blind_rebuild_tx w rf cfg cams lbls :
  blind any_rows same_rows (rebuild_tx w rf cfg cams lbls;; Commit w).
Proof.
  unfold rebuild_tx.
  eapply blind_bind; [|intros _; apply blind_call; intros a b H; exact H].
  eapply (blind_bind _ (fun a b => cameras a = cameras b)).
  { apply blind_call. intros a b _. reflexivity. }
  intros _.
  eapply (blind_bind _ (fun a b => cameras a = cameras b /\ labels a = labels b)).
  { apply blind_call. intros a b H. split; [exact H | reflexivity]. }
  intros _. eapply (blind_bind _ same_rows).
  { apply blind_call. intros a b [H1 H2]. repeat split; assumption. }
  intros _.
  do 5 (eapply blind_bind; [apply blind_Exec | intros _]).
  do 3 (eapply blind_bind;
        [apply blind_call; intros a b H; exact H | intros _]).
  apply blind_insert_cams.
Qed.

Lemma blind_opening w :
  blind any_rows any_rows (initCamerasIndexSchema w;; Begin w).
Proof.
  eapply blind_bind; [apply blind_schema|]. intros _.
  apply blind_call. intros a b _. exact I.
Qed.

Lemma rebuild_error_blind w rf cfg cams lbls st st' :
  error (rebuildCamerasIndex w rf cfg cams lbls st)
  = error (rebuildCamerasIndex w rf cfg cams lbls st')
  /\ db_calls (rebuildCamerasIndex w rf cfg cams lbls st)
     = db_calls (rebuildCamerasIndex w rf cfg cams lbls st').
Proof.
  unfold rebuildCamerasIndex.
  destruct (negb (MkdirAll_ok w)); [split; reflexivity|].
  assert (blind any_rows any_rows (Open w)) as HO.
  { apply blind_call. intros a b _. exact I. }
  destruct (HO {| tables := tables_of st; calls := 0 |}
               {| tables := tables_of st'; calls := 0 |} eq_refl I)
    as (Hr & Hn & _).
  destruct (Open w _) as [[[]|e] c], (Open w _) as [[[]|e'] c'];
    simpl in Hr, Hn; try discriminate;
    [|injection Hr as <-; split; [reflexivity | exact Hn]].
  clear Hr. destruct (blind_opening w c c' Hn I) as (Hr & Hn1 & _).
  destruct (dbm_bind _ _ c) as [[[]|e] c1], (dbm_bind _ _ c') as [[[]|e'] c1'];
    simpl in Hr, Hn1; try discriminate;
    [|injection Hr as <-; split; [reflexivity | exact Hn1]].
  clear Hr.
  destruct (blind_rebuild_tx w rf cfg cams lbls c1 c1' Hn1 I) as (Hr & Hn2 & _).
  destruct (dbm_bind _ _ c1) as [[[]|e] c2], (dbm_bind _ _ c1') as [[[]|e'] c2'];
    simpl in Hr, Hn2; try discriminate;
    [|injection Hr as <-]; split; solve [reflexivity | exact Hn2].
Qed.

Lemma rebuilt_twice w rf cfg cams lbls old :
  rebuilt w rf cfg cams lbls (rebuilt w rf cfg cams lbls old)
  = rebuilt w rf cfg cams lbls old.
Proof.
  apply DB_eq; try reflexivity. simpl.
  apply map_eq. intros k. rewrite !lookup_insert.
  repeat case_decide; reflexivity.
Qed.

(** X1. A rebuild replaces the rows: whether it fails, with which error and
    after how many database calls does not depend on what the index file
    held before; when it succeeds the cameras, labels and shadow rows are
    the same whatever the file held, and the whole file is the same when
    the metadata were the same. *)
Theorem rebuild_replaces_rows
    (w : World) (rf : rootFlags) (cfg : Config)
    (cams : list (gmap gostring any)) (lbls : gmap gostring gostring)
    (st st' : Store) :
  let out := rebuildCamerasIndex w rf cfg cams lbls st in
  let out' := rebuildCamerasIndex w rf cfg cams lbls st' in
  error out = error out'
  /\ db_calls out = db_calls out'
  /\ (error out = None ->
      same_rows (tables_of (store out)) (tables_of (store out'))
      /\ (meta (tables_of st) = meta (tables_of st') -> store out = store out')).
Proof.
  intros out out'.
  destruct (rebuild_error_blind w rf cfg cams lbls st st') as [He Hn].
  split; [exact He|]. split; [exact Hn|]. intros H.
  assert (error out' = None) as H' by (subst out out'; rewrite <- He; exact H).
  apply rebuild_Ok_store in H as [H _]. apply rebuild_Ok_store in H' as [H' _].
  subst out out'. rewrite H, H'. split.
  - repeat split.
  - intros Hm. f_equal. apply DB_eq; try reflexivity. simpl. rewrite Hm.
    reflexivity.
Qed.

Lemma Outcome_eq (a b : Outcome) :
  store a = store b -> error a = error b -> db_calls a = db_calls b -> a = b.
Proof. destruct a, b; simpl; congruence. Qed.

(** X2. A rebuild is idempotent: after a rebuild that returned no error, a
    second rebuild of the same records and labels, by the same clock, gives
    the same outcome and leaves the file as it is. *)
Theorem rebuild_idempotent
    (w : World) (rf : rootFlags) (cfg : Config)
    (cams : list (gmap gostring any)) (lbls : gmap gostring gostring)
    (st : Store) :
  let out := rebuildCamerasIndex w rf cfg cams lbls st in
  error out = None ->
  rebuildCamerasIndex w rf cfg cams lbls (store out) = out.
Proof.
  intros out H.
  destruct (rebuild_error_blind w rf cfg cams lbls (store out) st) as [He Hn].
  fold out in He, Hn.
  apply Outcome_eq; [|exact He|exact Hn].
  assert (error (rebuildCamerasIndex w rf cfg cams lbls (store out)) = None)
    as H' by (rewrite He; exact H).
  apply rebuild_Ok_store in H' as [-> _].
  apply rebuild_Ok_store in H as [H _]. fold out in H. rewrite H. simpl.
  rewrite rebuilt_twice. reflexivity.
Qed.

Lemma rebuild_idempotent_witness :
  let out := rebuildCamerasIndex calm_world default_flags cfg_upper
               [cam_1; cam_2] front_desk None in
  rebuildCamerasIndex calm_world default_flags cfg_upper
    [cam_1; cam_2] front_desk (store out) = out.
Proof.
  apply (rebuild_idempotent calm_world default_flags cfg_upper
           [cam_1; cam_2] front_desk None).
  vm_compute. reflexivity.
Defined.

(** ** When a rebuild goes through *)

(** X3. When the directory can be made and the database does not fail, a
    rebuild returns no error if and only if the records with an id have
    different ids and [json.Marshal] encodes every one of them. *)
Theorem rebuild_succeeds_iff
    (w : World) (rf : rootFlags) (cfg : Config)
    (cams : list (gmap gostring any)) (lbls : gmap gostring gostring)
    (st : Store) :
  MkdirAll_ok w = true -> (forall n, db_fails w n = false) ->
  (error (rebuildCamerasIndex w rf cfg cams lbls st) = None
   <-> NoDup (camera_id_of <$> indexed cams)
       /\ Forall (fun x => is_err (json_Marshal w x) = false) (indexed cams)).
Proof.
  intros Hmk Hdb. split.
  - intros H. split; [apply rebuild_Ok_store in H as [_ H]; exact H|].
    apply rebuild_Ok_inv in H as (c & c' & _ & H & _).
    eapply rebuild_tx_Ok_json, H.
  - intros [Hnd Hj]. by apply rebuild_runs.
Qed.

Lemma rebuild_succeeds_iff_witness :
  error (rebuildCamerasIndex calm_world default_flags cfg_upper
           [cam_1; cam_without_id; cam_2] front_desk None) = None.
Proof.
  apply (rebuild_succeeds_iff calm_world default_flags cfg_upper
           [cam_1; cam_without_id; cam_2] front_desk None);
    [reflexivity | reflexivity |].
  split.
  - apply (bool_decide_unpack _). vm_compute. reflexivity.
  - apply Forall_forall. intros x _. reflexivity.
Defined.

(** ** Records sorted by their id *)

Lemma string_lt_total a : forall b,
  string_lt a b = false -> string_lt b a = false -> a = b.
Proof.
  induction a as [|x a IH]; intros [|y b] H1 H2; simpl in *;
    try reflexivity; try discriminate.
  apply orb_false_iff in H1 as [H1 H1'], H2 as [H2 H2'].
  apply Z.ltb_ge in H1, H2. assert (x = y) as -> by lia.
  rewrite Z.eqb_refl in H1', H2'. simpl in *. f_equal. apply IH; assumption.
Qed.

Lemma NoDup_fmap_elem {A B} (f : A -> B) (l : list A) x y :
  NoDup (f <$> l) -> x ∈ l -> y ∈ l -> f x = f y -> x = y.
Proof.
  intros Hnd Hx Hy E.
  apply list_elem_of_lookup in Hx as [i Hi], Hy as [j Hj].
  assert (i = j) as ->.
  { eapply NoDup_lookup; [exact Hnd| |].
    - rewrite list_lookup_fmap, Hi. reflexivity.
    - rewrite list_lookup_fmap, Hj. simpl. rewrite E. reflexivity. }
  congruence.
Qed.

Lemma StronglySorted_filter {A} (R : relation A) (P : A -> Prop)
    `{!forall x, Decision (P x)} (l : list A) :
  StronglySorted R l -> StronglySorted R (filter P l).
Proof.
  induction 1 as [|x l Hl IH Hx]; [constructor|].
  rewrite filter_cons. destruct (decide (P x)); [|exact IH].
  constructor; [exact IH|].
  apply Forall_forall. intros y Hy. apply list_elem_of_filter in Hy as [_ Hy].
  rewrite Forall_forall in Hx. apply Hx, Hy.
Qed.

Lemma indexed_sorted_unique cams1 cams2 :
  cams1 ≡ₚ cams2 -> sorted_by_id cams1 -> sorted_by_id cams2 ->
  NoDup (camera_id_of <$> indexed cams1) ->
  indexed cams1 = indexed cams2.
Proof.
  intros Hp H1 H2 Hnd.
  assert (indexed cams1 ≡ₚ indexed cams2) as Hpi
    by (unfold indexed; rewrite Hp; reflexivity).
  eapply StronglySorted_unique_strong;
    [|apply StronglySorted_filter, H1 | apply StronglySorted_filter, H2 | exact Hpi].
  intros x y Hx Hy Hxy Hyx. rewrite <- Hpi in Hy.
  eapply NoDup_fmap_elem; [exact Hnd | exact Hx | exact Hy |].
  apply string_lt_total; assumption.
Qed.

Lemma rebuild_sorted_agree
    (w : World) (rf : rootFlags) (cfg : Config)
    (cams1 cams2 : list (gmap gostring any)) (lbls : gmap gostring gostring)
    (st : Store) :
  cams1 ≡ₚ cams2 -> sorted_by_id cams1 -> sorted_by_id cams2 ->
  let out1 := rebuildCamerasIndex w rf cfg cams1 lbls st in
  let out2 := rebuildCamerasIndex w rf cfg cams2 lbls st in
  (error out1 = None <-> error out2 = None)
  /\ tables_of (store out1) = tables_of (store out2)
  /\ (error out1 = None -> out1 = out2).
Proof.
  intros Hp H1 H2 out1 out2.
  assert (error out1 = None -> out1 = out2) as Hok.
  { intros H. apply rebuild_Ok_store in H as [_ Hnd].
    subst out1 out2. rewrite <- (rebuild_indexed _ _ _ cams1), <- (rebuild_indexed _ _ _ cams2).
    rewrite (indexed_sorted_unique cams1 cams2) by assumption. reflexivity. }
  assert (error out2 = None -> out2 = out1) as Hok'.
  { intros H. apply rebuild_Ok_store in H as [_ Hnd].
    subst out1 out2. rewrite <- (rebuild_indexed _ _ _ cams1), <- (rebuild_indexed _ _ _ cams2).
    rewrite (indexed_sorted_unique cams2 cams1) by (assumption || symmetry; assumption).
    reflexivity. }
  split; [|split; [|exact Hok]].
  - split; intros H; [rewrite <- (Hok H) | rewrite <- (Hok' H)]; exact H.
  - destruct (error out1) eqn:E1.
    + destruct (error out2) eqn:E2; [|rewrite (Hok' eq_refl); reflexivity].
      subst out1 out2.
      rewrite !rebuild_error_keeps by congruence. reflexivity.
    + rewrite (Hok eq_refl). reflexivity.
Qed.

(** X4. The order in which the pages delivered the records does not matter
    to a rebuild: of two lists with the same records, both sorted by id as
    [sort.Slice] leaves them, either both rebuilds fail, the rows being as
    before, or both return no error and the same outcome. *)
Theorem rebuild_of_sorted_records
    (w : World) (rf : rootFlags) (cfg : Config)
    (cams1 cams2 : list (gmap gostring any)) (lbls : gmap gostring gostring)
    (st : Store) :
  cams1 ≡ₚ cams2 -> sorted_by_id cams1 -> sorted_by_id cams2 ->
  let out1 := rebuildCamerasIndex w rf cfg cams1 lbls st in
  let out2 := rebuildCamerasIndex w rf cfg cams2 lbls st in
  (error out1 = None <-> error out2 = None)
  /\ tables_of (store out1) = tables_of (store out2)
  /\ (error out1 = None -> out1 = out2).
Proof. apply rebuild_sorted_agree. Qed.

(** ** One shadow row for every camera *)

Lemma rebuilt_shadow_unique w rf cfg cams lbls old :
  NoDup (camera_id_of <$> indexed cams) ->
  shadow_rows_unique (rebuilt w rf cfg cams lbls old).
Proof.
  intros H. unfold shadow_rows_unique. simpl.
  rewrite <- list_fmap_compose.
  erewrite list_fmap_ext; [exact H|]. intros x. reflexivity.
Qed.

Lemma rebuild_of_sorted_records_witness :
  let out1 := rebuildCamerasIndex calm_world default_flags cfg_upper
                [cam_1; cam_1_again; cam_2] front_desk None in
  let out2 := rebuildCamerasIndex calm_world default_flags cfg_upper
                [cam_1_again; cam_1; cam_2] front_desk None in
  (error out1 = None <-> error out2 = None)
  /\ tables_of (store out1) = tables_of (store out2)
  /\ (error out1 = None -> out1 = out2).
Proof.
  apply (rebuild_of_sorted_records calm_world default_flags cfg_upper
           [cam_1; cam_1_again; cam_2] [cam_1_again; cam_1; cam_2]).
  - apply perm_swap.
  - repeat constructor.
  - repeat constructor.
Defined.

Lemma filter_shadow_unique cameraID (rows : list FtsRow) :
  NoDup (fts_camera_id <$> rows) ->
  NoDup (fts_camera_id <$> filter (fun r => fts_camera_id r ≠ cameraID) rows).
Proof.
  induction rows as [|r l IH]; [constructor|].
  rewrite fmap_cons. intros [Hr H]%NoDup_cons.
  rewrite filter_cons. destruct (decide _); [|auto].
  rewrite fmap_cons. apply NoDup_cons. split; [|auto].
  intros Hin. apply Hr. apply list_elem_of_fmap in Hin as (y & -> & Hy).
  apply list_elem_of_filter in Hy as [_ Hy]. apply list_elem_of_fmap. eauto.
Qed.

Lemma patched_by_shadow_unique l d i w cameraID label db :
  d = true \/ i = false ->
  shadow_rows_unique db ->
  shadow_rows_unique (patched_by l d i w cameraID label db).
Proof.
  unfold shadow_rows_unique. simpl. intros Hdi H.
  destruct i.
  - destruct Hdi as [->|Hi]; [|discriminate]. rewrite fmap_app.
    apply NoDup_app. split; [|split].
    + apply filter_shadow_unique, H.
    + intros x Hx Hx'. apply list_elem_of_fmap in Hx as (y & -> & Hy).
      apply list_elem_of_filter in Hy as [Hne _].
      destruct (cameras db !! cameraID); simpl in Hx'.
      * apply list_elem_of_singleton in Hx'. contradiction.
      * apply elem_of_nil in Hx'. contradiction.
    + destruct (cameras db !! cameraID); simpl; [apply NoDup_singleton | constructor].
  - rewrite app_nil_r. destruct d; [apply filter_shadow_unique, H | exact H].
Qed.

(** X5. No camera has two shadow rows: the ids of the rows of [cameras_fts]
    are all different after a rebuild that returns no error.  A label patch
    keeps them so when its DELETE of the shadow row goes through or its
    INSERT fails; when the patch is committed with the DELETE failed and the
    INSERT gone through, a camera that has a camera row and a shadow row
    gets a second shadow row. *)
Theorem shadow_table_one_row_per_camera
    (w : World) (rf : rootFlags) (cfg : Config)
    (cams : list (gmap gostring any)) (lbls : gmap gostring gostring)
    (cameraID : gostring) (label : option gostring) (st : Store) :
  (error (rebuildCamerasIndex w rf cfg cams lbls st) = None ->
   shadow_rows_unique
     (tables_of (store (rebuildCamerasIndex w rf cfg cams lbls st))))
  /\ (db_ok w 9 = true \/ db_ok w 10 = false ->
      shadow_rows_unique (tables_of st) ->
      shadow_rows_unique (tables_of (tryUpdateIndexLabel w cameraID label st)))
  /\ (patch_commits w cameraID = true ->
      db_ok w 9 = false -> db_ok w 10 = true ->
      is_Some (cameras (tables_of st) !! cameraID) ->
      cameraID ∈ fts_camera_id <$> cameras_fts (tables_of st) ->
      ¬ shadow_rows_unique (tables_of (tryUpdateIndexLabel w cameraID label st))).
Proof.
  split; [|split].
  - intros H. apply rebuild_Ok_store in H as [-> Hnd].
    apply rebuilt_shadow_unique, Hnd.
  - intros Hdi H. rewrite tryUpdateIndexLabel_run.
    destruct (patch_commits w cameraID); [|exact H].
    destruct st as [db|]; [|exact H]. simpl.
    apply patched_by_shadow_unique; [exact Hdi | exact H].
  - intros Hc H9 H10 [cam Hcam] Hin. rewrite tryUpdateIndexLabel_run, Hc, H9, H10.
    destruct st as [db|]; [|inversion Hin]. simpl in *.
    unfold shadow_rows_unique. simpl. rewrite Hcam, fmap_app.
    intros Hnd. apply NoDup_app in Hnd as (_ & Hnd & _).
    apply (Hnd cameraID Hin). simpl. left.
Qed.

(** ** The patch that goes through *)

(** X6. The last label patch of a camera wins: a patch that is committed
    with its three statements gone through leaves the file that it would
    have left without the patch of the same camera before it, whether that
    one went through, failed, or was committed with failed statements; in
    particular a patch made twice is the patch made once, a label set and
    then removed is a label removed, and what a patch with failed statements
    left of the camera is repaired. *)
Theorem label_patch_last_wins
    (w1 w2 : World) (cameraID : gostring) (l1 l2 : option gostring) (st : Store) :
  patch_commits w2 cameraID = true -> patch_statements_run w2 = true ->
  tryUpdateIndexLabel w2 cameraID l2 (tryUpdateIndexLabel w1 cameraID l1 st)
  = tryUpdateIndexLabel w2 cameraID l2 st.
Proof.
  intros Hc Hs. rewrite !tryUpdateIndexLabel_run. rewrite Hc.
  unfold patch_statements_run in Hs. simpl in Hs.
  apply andb_prop in Hs as [-> Hs]. apply andb_prop in Hs as [-> Hs].
  apply andb_prop in Hs as [-> _].
  destruct (patch_commits w1 cameraID); [|reflexivity].
  destruct st as [db|]; [|reflexivity]. simpl. f_equal.
  apply DB_eq; simpl; try reflexivity.
  - destruct (db_ok w1 8); [|reflexivity]. simpl.
    destruct (patch_label l2), (patch_label l1);
      rewrite ?insert_insert_eq, ?delete_insert_eq, ?insert_delete_eq, ?delete_delete_eq;
      reflexivity.
  - rewrite filter_app. f_equal.
    replace (filter _ (if db_ok w1 10 then _ else _)) with (@nil FtsRow).
    + rewrite app_nil_r. destruct (db_ok w1 9); [|reflexivity].
      rewrite list_filter_filter.
      apply list_filter_iff. intros r. tauto.
    + destruct (db_ok w1 10); [|reflexivity].
      destruct (cameras db !! cameraID); [|reflexivity].
      rewrite filter_cons. simpl. rewrite decide_False by (intros H; apply H; reflexivity).
      reflexivity.
Qed.

Lemma label_patch_last_wins_witness :
  let st := store (rebuildCamerasIndex calm_world default_flags cfg_upper
                     [cam_1; cam_2] front_desk None) in
  tryUpdateIndexLabel calm_world (go "cam-2") None
    (tryUpdateIndexLabel (world_failing_at 9) (go "cam-2") (Some (go "Lobby")) st)
  = tryUpdateIndexLabel calm_world (go "cam-2") None st.
Proof.
  intros st.
  apply (label_patch_last_wins (world_failing_at 9) calm_world (go "cam-2")
           (Some (go "Lobby")) None st); reflexivity.
Defined.

(** ** Queries of several words *)

Lemma Fields_app_space a r b :
  unicode_IsSpace r = true -> Fields (a ++ r :: b) = Fields a ++ Fields b.
Proof.
  intros Hr. induction a as [|x a IH].
  - simpl app. rewrite Fields_space by exact Hr. reflexivity.
  - rewrite <- app_comm_cons.
    destruct (unicode_IsSpace x) eqn:Hx.
    + rewrite !Fields_space by exact Hx. exact IH.
    + rewrite !Fields_word by exact Hx. rewrite IH.
      assert (starts_word (a ++ r :: b) = starts_word a) as ->.
      { destruct a; simpl; [rewrite Hr|]; reflexivity. }
      destruct (starts_word a) eqn:Hs; [|reflexivity].
      apply push_rune_app. destruct a as [|y a]; [discriminate|].
      simpl in Hs. apply negb_true_iff in Hs.
      intros E. apply Fields_nil_iff in E. apply Forall_cons in E as [E _].
      congruence.
Qed.

(** X7. The tokens of two texts joined by a rune that is not a letter or a
    digit are the tokens of the first followed by the tokens of the
    second. *)
Theorem tokenizeQuery_words (a b : gostring) (r : rune) :
  is_separator r = true ->
  tokenizeQuery (a ++ r :: b) = tokenizeQuery a ++ tokenizeQuery b.
Proof.
  intros Hr. rewrite !tokenizeQuery_norm, map_app, map_cons.
  apply Fields_app_space. rewrite norm_space_iff. exact Hr.
Qed.

Lemma tokenizeQuery_words_witness :
  tokenizeQuery (go "north door" ++ 44 :: go "D40")
  = tokenizeQuery (go "north door") ++ tokenizeQuery (go "D40")
  /\ tokenizeQuery (go "north door" ++ 44 :: go "D40")
     = [go "north"; go "door"; go "d40"].
Proof.
  split; [apply tokenizeQuery_words | vm_compute]; reflexivity.
Defined.

(** ** The expression given to MATCH *)

Lemma Join_Forall (P : rune -> Prop) l sep :
  Forall (Forall P) l -> Forall P sep -> Forall P (Join l sep).
Proof.
  intros Hl Hs. induction Hl as [|e l He Hl IH]; [constructor|].
  destruct l as [|e' l]; [exact He|].
  change (Join (e :: e' :: l) sep) with (e ++ sep ++ Join (e' :: l) sep).
  rewrite !Forall_app. auto.
Qed.

(** X8. The expression that [buildFTSQuery] returns is made of prefix terms
    joined by [" AND "], each term a token of the query followed by a star:
    no rune of the query other than [a-z0-9] reaches the MATCH expression,
    whose runes are those of the tokens, the star, the space and the
    capitals of [AND]. *)
Theorem buildFTSQuery_expression (q fts : gostring) :
  buildFTSQuery q = Ok fts ->
  (exists toks,
     toks ≠ [] /\ Forall is_token toks /\ toks ⊆ tokenizeQuery q
     /\ fts = Join (map star toks) (go " AND "))
  /\ Forall (fun r => is_match_rune r = true) fts.
Proof.
  rewrite buildFTSQuery_spec. intros H.
  pose proof (search_tokens_tokens q) as Ht.
  assert (search_tokens q ⊆ tokenizeQuery q) as Hsub.
  { unfold search_tokens. destruct (filter searchable (tokenizeQuery q)) eqn:E;
      [reflexivity|]. rewrite <- E. intros x Hx.
    apply list_elem_of_filter in Hx as [_ Hx]. exact Hx. }
  assert (Forall (fun r => is_match_rune r = true)
            (Join (map star (search_tokens q)) (go " AND "))) as Hall.
  { apply Join_Forall; [|vm_compute; repeat constructor].
    apply Forall_fmap. eapply Forall_impl; [exact Ht|].
    intros tok [_ Htok]. unfold star. simpl. apply Forall_app. split.
    - eapply Forall_impl; [exact Htok|]. intros r Hr. simpl.
      unfold is_match_rune. rewrite Hr. reflexivity.
    - repeat constructor. }
  destruct (search_tokens q) as [|t toks] eqn:E; [discriminate|].
  injection H as H. split.
  - exists (t :: toks). split; [discriminate|]. split; [exact Ht|].
    split; [exact Hsub | symmetry; exact H].
  - rewrite <- H. exact Hall.
Qed.

Lemma buildFTSQuery_expression_witness :
  buildFTSQuery (go "Lobby (2nd floor) OR 'x'") = Ok (go "lobby* AND 2nd* AND floor* AND x*")
  /\ Forall (fun r => is_match_rune r = true) (go "lobby* AND 2nd* AND floor* AND x*").
Proof.
  split; [vm_compute; reflexivity|].
  apply (buildFTSQuery_expression (go "Lobby (2nd floor) OR 'x'")).
  vm_compute. reflexivity.
Defined.

(** X9. When a query has a token that is not a stopword, its expression is
    made of the tokens that are not stopwords, in their order: the
    stopwords are dropped. *)
Theorem buildFTSQuery_drops_stopwords (q : gostring) :
  filter searchable (tokenizeQuery q) ≠ [] ->
  buildFTSQuery q
  = Ok (Join (map star (filter searchable (tokenizeQuery q))) (go " AND ")).
Proof.
  intros H. rewrite buildFTSQuery_spec. unfold search_tokens.
  destruct (filter searchable (tokenizeQuery q)); [contradiction | reflexivity].
Qed.

Lemma buildFTSQuery_drops_stopwords_witness :
  filter searchable (tokenizeQuery (go "the cameras near the Lobby"))
  = [go "lobby"]
  /\ buildFTSQuery (go "the cameras near the Lobby") = Ok (go "lobby*").
Proof.
  split; [vm_compute; reflexivity|].
  rewrite buildFTSQuery_drops_stopwords; vm_compute; [reflexivity | discriminate].
Defined.

(** ** Names that are sanitized already *)

Lemma TrimFunc_keeps f (s : gostring) :
  (forall r t, s = r :: t -> f r = false) ->
  (forall t r, s = t ++ [r] -> f r = false) ->
  TrimFunc f s = s.
Proof.
  intros Hh Hl. unfold TrimFunc, TrimRightFunc.
  assert (TrimLeftFunc f s = s) as ->.
  { destruct s as [|r t]; [reflexivity|]. simpl. rewrite (Hh r t eq_refl). reflexivity. }
  destruct (rev s) as [|r t] eqn:E.
  - apply (f_equal (@rev _)) in E. rewrite rev_involutive in E. subst s. reflexivity.
  - simpl. rewrite (Hl (rev t) r).
    + rewrite <- E. apply rev_involutive.
    + apply (f_equal (@rev _)) in E. rewrite rev_involutive in E. exact E.
Qed.

Lemma path_rune_fixed r :
  is_path_rune r = true ->
  unicode_IsSpace r = false /\ unicode_ToLower r = r /\ sanitize_rune r = r.
Proof.
  intros H. unfold sanitize_rune.
  assert (r = 45 \/ r = 46 \/ r = 95 \/ 48 <= r <= 57 \/ 97 <= r <= 122) as Hr.
  { unfold is_path_rune, is_lower_az, is_digit_09, in_range in H.
    repeat (apply orb_true_iff in H as [H|H]);
      try (apply andb_true_iff in H as [H1 H2]; apply Z.leb_le in H1, H2);
      try apply Z.eqb_eq in H; lia. }
  unfold unicode_IsSpace, unicode_ToLower, is_lower_az, is_digit_09, in_range.
  repeat split;
    repeat match goal with
           | |- context [?a <=? ?b] =>
               destruct (Z.leb_spec a b); simpl; try lia
           | |- context [?a =? ?b] =>
               destruct (Z.eqb_spec a b); simpl; try lia
           end; reflexivity.
Qed.

Lemma sanitized_fixed c : sanitized c -> sanitizePathComponent c = c.
Proof.
  intros [Hne Hr Hh Hl]. unfold sanitizePathComponent.
  assert (TrimSpace c = c) as ->.
  { apply TrimFunc_keeps.
    - intros r t ->. apply Forall_cons in Hr as [Hr _].
      apply path_rune_fixed in Hr as [Hr _]. exact Hr.
    - intros t r ->. apply Forall_app in Hr as [_ Hr].
      apply Forall_cons in Hr as [Hr _].
      apply path_rune_fixed in Hr as [Hr _]. exact Hr. }
  destruct c as [|r0 c0] eqn:Ec; [contradiction|]. rewrite <- Ec in *.
  assert (map sanitize_rune (ToLower c) = c) as ->.
  { unfold ToLower. rewrite map_map. clear -Hr.
    induction Hr as [|r c Hr _ IH]; [reflexivity|]. simpl.
    apply path_rune_fixed in Hr as (_ & -> & ->). f_equal. exact IH. }
  assert (Trim c (go "_") = c) as ->.
  { apply TrimFunc_keeps.
    - intros r t E. apply bool_decide_eq_false. intros Hin.
      apply list_elem_of_singleton in Hin. exact (Hh r t E Hin).
    - intros t r E. apply bool_decide_eq_false. intros Hin.
      apply list_elem_of_singleton in Hin. exact (Hl t r E Hin). }
  rewrite Ec. reflexivity.
Qed.

(** X10. [sanitizePathComponent] is idempotent, and the names it leaves as
    they are are the sanitized ones: not empty, made of [a-z0-9._-], with
    no underscore at either end. *)
Theorem sanitizePathComponent_idempotent (s : gostring) :
  sanitizePathComponent (sanitizePathComponent s) = sanitizePathComponent s
  /\ (sanitizePathComponent s = s <-> sanitized s).
Proof.
  split.
  - apply sanitized_fixed, sanitizePathComponent_sanitized.
  - split; [|apply sanitized_fixed].
    intros H. rewrite <- H. apply sanitizePathComponent_sanitized.
Qed.

(** ** The layout of the index directory *)

Lemma stack_of_index_root cacheDir : stack_of (index_root cacheDir) ≠ [].
Proof.
  unfold index_root. destruct (decide (cacheDir = [])) as [->|Hc].
  - vm_compute. discriminate.
  - rewrite !drop_empty_keep by done. rewrite drop_empty_nil.
    change [cacheDir; go "verkcli"; go "index"]
      with ([cacheDir; go "verkcli"] ++ [go "index"]).
    rewrite Join_snoc by done.
    change ([slash] ++ go "index") with (slash :: go "index").
    destruct (stack_of_snoc (Join [cacheDir; go "verkcli"] [slash]) (go "index"))
      as [_ ->]; [| | |discriminate].
    + change [cacheDir; go "verkcli"] with ([cacheDir] ++ [go "verkcli"]).
      apply Join_snoc_nonempty. discriminate.
    + repeat split; discriminate.
    + unfold no_slash. intros H.
      repeat (apply elem_of_cons in H as [H|H]; [discriminate H|]). inversion H.
Qed.

Lemma render_push rooted e out :
  out ≠ [] -> render rooted (e :: out) = render rooted out ++ slash :: e.
Proof.
  intros Hout. unfold render.
  assert (Join (rev (e :: out)) [slash] = Join (rev out) [slash] ++ slash :: e) as H.
  { simpl rev. rewrite Join_snoc; [reflexivity|].
    intros E. apply (f_equal (@rev _)) in E. rewrite rev_involutive in E.
    contradiction. }
  destruct rooted.
  - rewrite H. reflexivity.
  - destruct out; [contradiction|]. exact H.
Qed.

Lemma filepath_Join_root cacheDir :
  filepath_Join [cacheDir; go "verkcli"; go "index"]
  = render (is_rooted (index_root cacheDir)) (stack_of (index_root cacheDir)).
Proof.
  unfold filepath_Join. pose proof (index_root_nonempty cacheDir) as H.
  unfold index_root in *.
  destruct (drop_empty [cacheDir; go "verkcli"; go "index"]); [contradiction|].
  apply Clean_stack_of.
Qed.

(** X11. When none of the sanitized host, organization and profile is [.]
    or [..], the index file is [cameras.sqlite] in the directory
    [<cache>/verkcli/index/<host>/<org>/<profile>], where
    [<cache>/verkcli/index] is the cleaned join of the cache directory with
    the two names. *)
Theorem index_path_layout
    (env : Env) (rf : rootFlags) (cfg : Config) (cacheDir : gostring) :
  UserCacheDir env = Ok cacheDir ->
  no_dots (index_components env rf cfg) ->
  let '(h, o, p) := index_components env rf cfg in
  camerasIndexPath env rf cfg
  = Ok (filepath_Join [cacheDir; go "verkcli"; go "index"]
          ++ go "/" ++ h ++ go "/" ++ o ++ go "/" ++ p ++ go "/cameras.sqlite").
Proof.
  intros Hc Hd. rewrite (camerasIndexPath_components _ _ _ _ Hc).
  pose proof (index_components_sanitized env rf cfg) as Hs.
  destruct (index_components env rf cfg) as [[h o] p].
  destruct Hs as (Sh & So & Sp). destruct Hd as (? & ? & ? & ? & ? & ?).
  rewrite index_path_partition by auto with paths.
  unfold partition_path. pose proof (stack_of_index_root cacheDir) as Hne.
  rewrite filepath_Join_root.
  rewrite (render_push _ (go "cameras.sqlite")) by discriminate.
  rewrite (render_push _ p) by discriminate.
  rewrite (render_push _ o) by discriminate.
  rewrite (render_push _ h) by exact Hne.
  rewrite <- !app_assoc. reflexivity.
Qed.

Lemma index_path_layout_witness :
  camerasIndexPath test_env default_flags cfg_upper
  = Ok (filepath_Join [go "/home/u/.cache"; go "verkcli"; go "index"]
          ++ go "/" ++ go "api.verkada.com" ++ go "/" ++ go "org" ++ go "/"
          ++ go "default" ++ go "/cameras.sqlite")
  /\ filepath_Join [go "/home/u/.cache"; go "verkcli"; go "index"]
     = go "/home/u/.cache/verkcli/index".
Proof.
  split; [|vm_compute; reflexivity].
  apply (index_path_layout test_env default_flags cfg_upper (go "/home/u/.cache"));
    [reflexivity|].
  vm_compute. repeat split; discriminate.
Defined.

(** ** The profile that is selected *)

Lemma firstNonEmpty_skips pre vs :
  Forall blank pre -> firstNonEmpty (pre ++ vs) = firstNonEmpty vs.
Proof.
  induction 1 as [|v pre Hv _ IH]; [reflexivity|].
  simpl. unfold blank in Hv. rewrite Hv. exact IH.
Qed.

Lemma firstNonEmpty_next v vs :
  blank v -> firstNonEmpty (v :: vs) = firstNonEmpty vs.
Proof. unfold blank. intros Hv. simpl. rewrite Hv. reflexivity. Qed.

Lemma firstNonEmpty_takes v vs : ¬ blank v -> firstNonEmpty (v :: vs) = v.
Proof.
  unfold blank. intros Hv. simpl. destruct (TrimSpace v); [contradiction | reflexivity].
Qed.

Lemma firstNonEmpty_blank_iff vs : blank (firstNonEmpty vs) <-> Forall blank vs.
Proof.
  induction vs as [|v vs IH].
  - split; [constructor | reflexivity].
  - destruct (decide (blank v)) as [Hv|Hv].
    + change (v :: vs) with ([v] ++ vs).
      rewrite firstNonEmpty_skips by (constructor; [exact Hv | constructor]).
      rewrite IH. split; [constructor; assumption|].
      intros H. apply Forall_app in H as [_ H]. exact H.
    + rewrite firstNonEmpty_takes by exact Hv. split; [contradiction|].
      intros H. apply Forall_cons in H as [H _]. exact H.
Qed.

(** X12. The profile name that [selectedProfileNameFromConfig] returns is
    never blank; it is the flag when the flag is not blank, else the
    environment variable when that is not blank, else the current profile
    of the configuration file when the file could be loaded and names one,
    else [default]. *)
Theorem selected_profile_precedence (env : Env) (rf : rootFlags) :
  let p := selectedProfileNameFromConfig env rf in
  ¬ blank p
  /\ (¬ blank (Profile rf) -> p = Profile rf)
  /\ (blank (Profile rf) -> ¬ blank (env_profile env) -> p = env_profile env)
  /\ (blank (Profile rf) -> blank (env_profile env) ->
      p = match config_current_profile env with
          | Some current => if decide (blank current) then go "default" else current
          | None => go "default"
          end).
Proof.
  intros p. subst p. unfold selectedProfileNameFromConfig.
  assert (¬ blank (go "default")) as Hd by (vm_compute; discriminate).
  split; [|split; [|split]].
  - destruct (config_current_profile env); rewrite firstNonEmpty_blank_iff;
      intros H; apply Hd; eapply Forall_forall; [exact H | | exact H |];
      repeat (apply elem_of_cons; (left; reflexivity) || right).
  - intros Hf. destruct (config_current_profile env);
      apply firstNonEmpty_takes, Hf.
  - intros Hf He. destruct (config_current_profile env);
      rewrite firstNonEmpty_next by exact Hf; apply firstNonEmpty_takes, He.
  - intros Hf He. destruct (config_current_profile env) as [current|];
      rewrite !firstNonEmpty_next by assumption.
    + destruct (decide (blank current)) as [Hc|Hc].
      * rewrite firstNonEmpty_next by exact Hc. reflexivity.
      * apply firstNonEmpty_takes, Hc.
    + reflexivity.
Qed.

(** ** Numbers written and read back *)

Lemma digits_value_mono s : forall n, 0 <= n ->
  Forall (fun r => is_digit_09 r = true) s -> n <= digits_value n s.
Proof.
  induction s as [|c s IH]; intros n Hn Hs; simpl; [lia|].
  apply Forall_cons in Hs as [Hc Hs].
  unfold is_digit_09, in_range in Hc. apply andb_true_iff in Hc as [H1 H2].
  apply Z.leb_le in H1, H2.
  etransitivity; [|apply IH; [lia | exact Hs]]. lia.
Qed.

Lemma ParseUint_loop_digits s : forall n, 0 <= n ->
  Forall (fun r => is_digit_09 r = true) s ->
  digits_value n s <= maxUint64 ->
  ParseUint_loop s n = (digits_value n s, None).
Proof.
  induction s as [|c s IH]; intros n Hn Hs Hv; simpl; [reflexivity|].
  pose proof Hs as Hs'. apply Forall_cons in Hs' as [Hc Hs'].
  rewrite Hc.
  pose proof Hc as Hc'. unfold is_digit_09, in_range in Hc'.
  apply andb_true_iff in Hc' as [H1 H2]. apply Z.leb_le in H1, H2.
  assert (n * 10 + (c - 48) <= maxUint64) as Hb.
  { etransitivity; [|exact Hv]. simpl. apply digits_value_mono; [lia | exact Hs']. }
  unfold maxUint64 in *.
  destruct (n >=? _) eqn:E1.
  { apply Z.geb_le in E1. change ((2 ^ 64 - 1) / 10 + 1) with 1844674407370955162 in E1.
    change (2 ^ 64 - 1) with 18446744073709551615 in Hb. lia. }
  destruct (_ >? _) eqn:E2.
  { apply Z.gtb_lt in E2. lia. }
  apply IH; [lia | exact Hs' | exact Hv].
Qed.

Lemma uint_digits d :
  Forall (fun r => is_digit_09 r = true) (go (NilEmpty.string_of_uint d)).
Proof. induction d; simpl; constructor; auto. Qed.

Lemma uint_value_acc d : forall acc,
  digits_value (Z.pos acc) (go (NilEmpty.string_of_uint d))
  = Z.pos (Pos.of_uint_acc d acc).
Proof.
  induction d; intros acc; simpl; try reflexivity;
    unfold digits_value in *; simpl; rewrite <- IHd; f_equal;
    match goal with
    | |- context [rune_of_ascii ?c] =>
        let v := eval vm_compute in (rune_of_ascii c) in
        change (rune_of_ascii c) with v
    end;
    rewrite ?Pos2Z.inj_add, ?Pos2Z.inj_mul; lia.
Qed.

Lemma uint_value d :
  digits_value 0 (go (NilEmpty.string_of_uint d)) = Z.of_N (Pos.of_uint d).
Proof.
  induction d; simpl; try reflexivity; try exact IHd;
    unfold digits_value; simpl; apply (uint_value_acc d).
Qed.

Lemma ParseUint_to_uint p :
  Z.pos p <= maxUint64 ->
  ParseUint (go (NilEmpty.string_of_uint (Pos.to_uint p))) = (Z.pos p, None)
  /\ exists c s, go (NilEmpty.string_of_uint (Pos.to_uint p)) = c :: s
       /\ is_digit_09 c = true.
Proof.
  intros Hp.
  assert (digits_value 0 (go (NilEmpty.string_of_uint (Pos.to_uint p))) = Z.pos p)
    as Hv by (rewrite uint_value, DecimalPos.Unsigned.of_to; reflexivity).
  pose proof (uint_digits (Pos.to_uint p)) as Hd.
  pose proof (DecimalPos.Unsigned.to_uint_nonnil p) as Hnil.
  destruct (go (NilEmpty.string_of_uint (Pos.to_uint p))) as [|c s] eqn:E.
  { exfalso. destruct (Pos.to_uint p); discriminate || contradiction. }
  split.
  - unfold ParseUint. rewrite ParseUint_loop_digits; [rewrite Hv; reflexivity | lia | exact Hd |].
    rewrite Hv. exact Hp.
  - exists c, s. split; [reflexivity|]. apply Forall_cons in Hd as [Hc _]. exact Hc.
Qed.

Lemma ParseInt_FormatInt_eq i :
  - 2 ^ 63 <= i <= 2 ^ 63 - 1 -> ParseInt (FormatInt i) = (i, None).
Proof.
  intros Hi. unfold FormatInt. destruct i as [|p|p]; simpl.
  - reflexivity.
  - destruct (ParseUint_to_uint p) as (Hu & c & s & E & Hc); [unfold maxUint64; lia|].
    rewrite E in *. unfold ParseInt.
    unfold is_digit_09, in_range in Hc. apply andb_true_iff in Hc as [H1 H2].
    apply Z.leb_le in H1, H2.
    replace (c =? 45) with false by (symmetry; apply Z.eqb_neq; lia).
    replace (c =? 43) with false by (symmetry; apply Z.eqb_neq; lia).
    simpl orb. cbv iota. rewrite Hu. simpl.
    replace (Z.pos p >=? 2 ^ 63) with false; [reflexivity|].
    symmetry. rewrite Z.geb_leb. apply Z.leb_gt. lia.
  - destruct (ParseUint_to_uint p) as (Hu & c & s & E & Hc); [unfold maxUint64; lia|].
    unfold ParseInt.
    change (rune_of_ascii "-") with 45. simpl (45 =? 45). simpl (45 =? 43).
    simpl orb. cbv iota. rewrite Hu. simpl.
    replace (Z.pos p >? 2 ^ 63) with false; [reflexivity|].
    symmetry. rewrite Z.gtb_ltb. apply Z.ltb_ge. lia.
Qed.

(** X13. The numbers that the rebuild writes to the metadata are read back
    by the status: [strconv.ParseInt] and [strconv.Atoi] of the text of
    [strconv.FormatInt(i, 10)] return [i] and no error, for every [i] of
    64 bits. *)
Theorem ParseInt_FormatInt (i : Z) :
  - 2 ^ 63 <= i <= 2 ^ 63 - 1 ->
  ParseInt (FormatInt i) = (i, None) /\ Atoi (FormatInt i) = (i, None).
Proof. intros H. split; apply ParseInt_FormatInt_eq, H. Qed.

Lemma ParseInt_FormatInt_witness :
  ParseInt (FormatInt (- 1700000000)) = (- 1700000000, None)
  /\ FormatInt (- 1700000000) = go "-1700000000".
Proof.
  split; [apply (ParseInt_FormatInt (- 1700000000)); lia | vm_compute; reflexivity].
Defined.

(** ** The status of the index *)

Import Status.

Lemma QueryRow_up {A} w (zero : A) read c :
  db_ok w (calls c) = true ->
  QueryRow w zero read c
  = (read (tables c), {| tables := tables c; calls := S (calls c) |}).
Proof. unfold QueryRow. intros ->. reflexivity. Qed.

(** The schema makes six calls. *)
Lemma schema_runs w c :
  db_up w (calls c + 5) = true ->
  initCamerasIndexSchema w c
  = (Ok tt, {| tables := tables c; calls := calls c + 6 |}).
Proof.
  intros Hup.
  assert (forall n, (n <= calls c + 5)%nat -> db_ok w n = true) as Hn
    by (intros n; apply db_up_ok; exact Hup).
  unfold initCamerasIndexSchema, Exec.
  do 2 (erewrite bind_run; [|apply ignore_pragma]).
  do 3 (erewrite bind_run;
        [|apply call_up; [apply Hn; simpl; lia | reflexivity]]).
  rewrite call_up with (db := tables c) by (reflexivity || apply Hn; simpl; lia).
  simpl. do 2 f_equal. lia.
Qed.

Lemma status_reads w path db :
  Stat_fails w = false -> db_up w 12 = true ->
  readCamerasIndexStatus w path (Some db) = (status_of path db, None).
Proof.
  intros Hs Hup.
  assert (forall n, (n <= 12)%nat -> db_ok w n = true) as Hn
    by (intros n; apply db_up_ok; exact Hup).
  unfold readCamerasIndexStatus. rewrite Hs.
  unfold Open. rewrite call_up with (db := db) by (reflexivity || apply Hn; simpl; lia).
  rewrite schema_runs by (apply (db_up_before w 12); [exact Hup | simpl; lia]).
  unfold getMeta, count_cameras, QueryRow. simpl.
  rewrite (Hn 7%nat), (Hn 8%nat), (Hn 9%nat), (Hn 10%nat), (Hn 11%nat), (Hn 12%nat)
    by lia.
  reflexivity.
Qed.

Lemma rebuilt_status w rf cfg cams lbls old path :
  NoDup (camera_id_of <$> indexed cams) ->
  - 2 ^ 63 <= now w <= 2 ^ 63 - 1 ->
  status_of path (rebuilt w rf cfg cams lbls old)
  = {| Exists := true; Path := path;
       SchemaVersion := camerasIndexSchemaVersion;
       BuiltAt := now w;
       CameraCount := Z.of_nat (length (indexed cams));
       Status.BaseURL := Path.BaseURL cfg;
       Status.OrgID := Path.OrgID cfg;
       Status.Profile := selectedProfileNameFromConfig (path_env w) rf |}.
Proof.
  intros Hnd Hnow. unfold status_of. simpl.
  rewrite !lookup_insert.
  repeat (rewrite decide_False by (vm_compute; discriminate)).
  repeat (rewrite decide_True by reflexivity).
  repeat (rewrite decide_False by (vm_compute; discriminate)).
  simpl. rewrite map_size_list_to_map, length_fmap.
  2:{ rewrite <- list_fmap_compose. exact Hnd. }
  unfold Atoi. rewrite !ParseInt_FormatInt_eq by (exact Hnow || (unfold camerasIndexSchemaVersion; lia)).
  reflexivity.
Qed.

(** X14. After a rebuild that returned no error, the status read while the
    database is up reports the index as the rebuild made it: the schema
    version 1, the time of the build, the base URL, the organization and
    the profile of the build, and as many cameras as there were records
    with an id. *)
Theorem status_after_rebuild
    (w w' : World) (rf : rootFlags) (cfg : Config)
    (cams : list (gmap gostring any)) (lbls : gmap gostring gostring)
    (st : Store) (path : gostring) :
  let out := rebuildCamerasIndex w rf cfg cams lbls st in
  error out = None ->
  - 2 ^ 63 <= now w <= 2 ^ 63 - 1 ->
  Stat_fails w' = false -> db_up w' 12 = true ->
  readCamerasIndexStatus w' path (store out)
  = ({| Exists := true; Path := path;
        SchemaVersion := camerasIndexSchemaVersion;
        BuiltAt := now w;
        CameraCount := Z.of_nat (length (indexed cams));
        Status.BaseURL := Path.BaseURL cfg;
        Status.OrgID := Path.OrgID cfg;
        Status.Profile := selectedProfileNameFromConfig (path_env w) rf |},
     None).
Proof.
  intros out H Hnow Hs Hup. apply rebuild_Ok_store in H as [H Hnd].
  subst out. rewrite H, status_reads by assumption.
  rewrite rebuilt_status by assumption. reflexivity.
Qed.

Lemma status_after_rebuild_witness :
  readCamerasIndexStatus calm_world (go "cameras.sqlite")
    (store (rebuildCamerasIndex calm_world default_flags cfg_upper
              [cam_1; cam_without_id; cam_2] front_desk None))
  = ({| Exists := true; Status.Path := go "cameras.sqlite";
        SchemaVersion := 1; BuiltAt := 1700000000; CameraCount := 2;
        Status.BaseURL := go "https://api.verkada.com";
        Status.OrgID := go "ORG"; Status.Profile := go "default" |}, None).
Proof.
  apply (status_after_rebuild calm_world calm_world default_flags cfg_upper
           [cam_1; cam_without_id; cam_2] front_desk None (go "cameras.sqlite")).
  - vm_compute. reflexivity.
  - simpl. lia.
  - reflexivity.
  - reflexivity.
Defined.

Lemma bind_Err {A B} (m : DBM A) (k : A -> DBM B) c e c' :
  dbm_bind m k c = (Err e, c') ->
  m c = (Err e, c') \/ exists a c1, m c = (Ok a, c1) /\ k a c1 = (Err e, c').
Proof.
  unfold dbm_bind. destruct (m c) as [[a|e'] c1]; intros H.
  - right. exists a, c1. split; [reflexivity | exact H].
  - left. injection H as <- <-. reflexivity.
Qed.

Lemma db_call_Err w f c e c' :
  db_call w f c = (Err e, c') ->
  e = db_down \/ f (tables c) = Err e.
Proof.
  unfold db_call. destruct (db_ok w (calls c)).
  - destruct (f (tables c)); intros [= <- <-]. right. reflexivity.
  - intros [= <- <-]. left. reflexivity.
Qed.

Lemma create_Err w n c e c' :
  Exec w (CreateTableIfNotExists n) c = (Err e, c') -> e = db_down.
Proof. intros H. apply db_call_Err in H as [H|H]; [exact H | discriminate]. Qed.

(** The schema fails only with the database. *)
Lemma schema_Err w c e c' :
  initCamerasIndexSchema w c = (Err e, c') -> e = db_down.
Proof.
  unfold initCamerasIndexSchema. intros H.
  apply bind_Err in H as [H | ([] & c1 & _ & H)]; [discriminate|].
  apply bind_Err in H as [H | ([] & c2 & _ & H)]; [discriminate|].
  apply bind_Err in H as [H | ([] & c3 & _ & H)]; [eapply create_Err, H|].
  apply bind_Err in H as [H | ([] & c4 & _ & H)]; [eapply create_Err, H|].
  apply bind_Err in H as [H | ([] & c5 & _ & H)]; [eapply create_Err, H|].
  eapply create_Err, H.
Qed.

(** X15. The status of an index returns the error of a file that does not
    exist exactly when there is no index file; it reports the file as
    existing exactly when there is one and [os.Stat] finds it; and the path
    it reports is the path it was asked for. *)
Theorem status_not_found_iff (w : World) (path : gostring) (st : Store) :
  let r := readCamerasIndexStatus w path st in
  (snd r = Some ErrNotExist <-> st = None)
  /\ (Exists (fst r) = true <-> st <> None /\ Stat_fails w = false)
  /\ Status.Path (fst r) = path.
Proof.
  unfold readCamerasIndexStatus. destruct st as [db|]; simpl.
  2:{ split; [tauto|]. split; [|reflexivity].
      split; [discriminate | intros [H _]; contradiction]. }
  destruct (Stat_fails w); simpl.
  { split; [split; discriminate|]. split; [|reflexivity].
    split; [discriminate | intros [_ H]; discriminate]. }
  destruct (Open w _) as [[[]|e] c] eqn:HO; simpl.
  - destruct (initCamerasIndexSchema w c) as [[[]|e] c1] eqn:HS; simpl.
    + unfold getMeta, count_cameras, QueryRow. simpl.
      repeat split; try discriminate.
    + apply schema_Err in HS as ->. repeat split; try discriminate.
  - apply db_call_Err in HO as [-> | HO]; [|discriminate].
    repeat split; try discriminate.
Qed.

(** ** The search in the index *)

Import Search.

Lemma clamp_limit_range limit :
  1 <= clamp_limit limit <= 500
  /\ (limit <= 0 -> clamp_limit limit = 20)
  /\ (500 < limit -> clamp_limit limit = 500)
  /\ (1 <= limit <= 500 -> clamp_limit limit = limit).
Proof.
  unfold clamp_limit.
  destruct (limit <=? 0) eqn:E1; [apply Z.leb_le in E1 | apply Z.leb_gt in E1].
  - simpl. lia.
  - destruct (limit >? 500) eqn:E2;
      [apply Z.gtb_lt in E2 | rewrite Z.gtb_ltb in E2; apply Z.ltb_ge in E2]; lia.
Qed.

Lemma read_rows_spec w e rows : forall n out,
  exists more,
    fst (read_rows w e rows n out) = out ++ more
    /\ (length more <= length rows)%nat
    /\ Forall (fun r => exists raw rank,
                 (raw, CameraID r, rank) ∈ rows
                 /\ Rank r = rank
                 /\ json_Unmarshal e raw = Some (Camera r)) more.
Proof.
  induction rows as [|[[raw id] rank] rows IH]; intros n out; simpl.
  - exists []. rewrite app_nil_r. split; [reflexivity|]. split; [simpl; lia | constructor].
  - destruct (db_ok w n).
    + destruct (json_Unmarshal e raw) as [cam|] eqn:Hc.
      * destruct (IH (S n) (out ++ [{| CameraID := id; Rank := rank; Camera := cam |}]))
          as (more & -> & Hl & Hm).
        exists ({| CameraID := id; Rank := rank; Camera := cam |} :: more).
        rewrite <- app_assoc. split; [reflexivity|]. split; [simpl; lia|].
        constructor.
        -- exists raw, rank. simpl. split; [left|]. split; [reflexivity | exact Hc].
        -- eapply Forall_impl; [exact Hm|]. intros r (raw' & rank' & Hin & H).
           exists raw', rank'. split; [right; exact Hin | exact H].
      * destruct (IH (S n) out) as (more & -> & Hl & Hm).
        exists more. split; [reflexivity|]. split; [lia|].
        eapply Forall_impl; [exact Hm|]. intros r (raw' & rank' & Hin & H).
        exists raw', rank'. split; [right; exact Hin | exact H].
    + exists []. rewrite app_nil_r. split; [reflexivity|]. split; [simpl; lia | constructor].
Qed.

Lemma db_Query_Ok w e fts limit c rows c' :
  db_Query w e fts limit c = (Ok rows, c') ->
  tables c' = tables c
  /\ exists matched,
       fts5_match e (cameras_fts (tables c)) fts = Ok matched
       /\ rows = take (Z.to_nat limit) (join_cameras (tables c) matched).
Proof.
  unfold db_Query. destruct (db_ok w (calls c)); [|discriminate].
  destruct (fts5_match e _ fts) as [matched|]; [|discriminate].
  intros [= <- <-]. split; [reflexivity|]. exists matched. split; reflexivity.
Qed.

Lemma search_Ok_rows w e limit db fts rows c :
  (Open w;; initCamerasIndexSchema w;; db_Query w e fts limit)
    {| tables := db; calls := 0 |} = (Ok rows, c) ->
  exists matched,
    fts5_match e (cameras_fts db) fts = Ok matched
    /\ rows = take (Z.to_nat limit) (join_cameras db matched).
Proof.
  intros H. apply bind_Ok in H as ([] & c1 & H1 & H).
  apply bind_Ok in H as ([] & c2 & H2 & H).
  apply keeps_tables_call in H1. apply keeps_tables_schema in H2.
  apply db_Query_Ok in H as (_ & matched & Hm & ->).
  rewrite H2, H1 in *. simpl in *. exists matched. split; [exact Hm | reflexivity].
Qed.

Lemma join_cameras_elem db matched raw id rank :
  (raw, id, rank) ∈ join_cameras db matched ->
  exists r c, (r, rank) ∈ matched /\ fts_camera_id r = id
    /\ cameras db !! id = Some c /\ cam_raw_json c = raw.
Proof.
  unfold join_cameras. intros H.
  apply list_elem_of_omap in H as ([r rank'] & Hin & H).
  destruct (cameras db !! fts_camera_id r) as [c|] eqn:Hc; [|discriminate].
  simpl in H. injection H as <- <- <-.
  exists r, c. repeat split; assumption.
Qed.

(** X16. A search returns no more results than its limit, also when it
    returns an error: the limit is 20 when the one asked for is zero or
    negative, 500 when it is above 500, and the one asked for
    otherwise. *)
Theorem search_within_limit
    (w : World) (e : Engine) (query : gostring) (limit : Z) (st : Store) :
  let results := fst (searchCamerasIndex w e query limit st) in
  Z.of_nat (length results) <= clamp_limit limit
  /\ 1 <= clamp_limit limit <= 500
  /\ (limit <= 0 -> clamp_limit limit = 20)
  /\ (500 < limit -> clamp_limit limit = 500)
  /\ (1 <= limit <= 500 -> clamp_limit limit = limit).
Proof.
  intros results. split; [|apply clamp_limit_range].
  pose proof (clamp_limit_range limit) as [Hr _].
  subst results. unfold searchCamerasIndex.
  destruct st as [db|]; [|simpl; lia].
  destruct (Stat_fails w); [simpl; lia|].
  destruct (buildFTSQuery query) as [fts|]; [|simpl; lia].
  destruct (dbm_bind _ _ _) as [[rows|msg] c] eqn:H; [|simpl; lia].
  apply search_Ok_rows in H as (matched & _ & ->).
  destruct (read_rows_spec w e (take (Z.to_nat (clamp_limit limit))
                                  (join_cameras db matched)) (calls c) [])
    as (more & -> & Hl & _).
  simpl. rewrite length_take in Hl. lia.
Qed.

(** X17. Every result of a search is a row of the cameras table: its camera
    id has a camera row, and its camera is what [json.Unmarshal] decodes
    from the [raw_json] of that row. *)
Theorem search_results_are_camera_rows
    (w : World) (e : Engine) (query : gostring) (limit : Z) (st : Store) :
  Forall (fun r => exists c,
            cameras (tables_of st) !! CameraID r = Some c
            /\ json_Unmarshal e (cam_raw_json c) = Some (Camera r))
    (fst (searchCamerasIndex w e query limit st)).
Proof.
  unfold searchCamerasIndex.
  destruct st as [db|]; [|constructor].
  destruct (Stat_fails w); [constructor|].
  destruct (buildFTSQuery query) as [fts|]; [|constructor].
  destruct (dbm_bind _ _ _) as [[rows|msg] c] eqn:H; [|constructor].
  apply search_Ok_rows in H as (matched & _ & ->).
  destruct (read_rows_spec w e (take (Z.to_nat (clamp_limit limit))
                                  (join_cameras db matched)) (calls c) [])
    as (more & -> & _ & Hm).
  simpl. eapply Forall_impl; [exact Hm|].
  intros r (raw & rank & Hin & _ & Hc).
  apply elem_of_take in Hin as (i & Hin & _). apply list_elem_of_lookup_2 in Hin.
  apply join_cameras_elem in Hin as (_ & cam & _ & _ & Hcam & <-).
  exists cam. split; assumption.
Qed.

(** X18. A search of an index that does not exist returns the error of a
    missing file, whatever the query; a search with a query without a
    letter or a digit, of an index that exists, returns the error of a
    query without tokens, whatever the database and the engine do. *)
Theorem search_fails_before_database
    (w : World) (e : Engine) (query : gostring) (limit : Z) (st : Store) :
  (st = None ->
   searchCamerasIndex w e query limit st = ([], Some ErrNotExist))
  /\ (st <> None -> Stat_fails w = false ->
      Forall (fun r => is_separator r = true) query ->
      searchCamerasIndex w e query limit st = ([], Some no_tokens)).
Proof.
  split.
  - intros ->. reflexivity.
  - intros Hst Hs Hq. unfold searchCamerasIndex.
    destruct st as [db|]; [|contradiction]. rewrite Hs.
    rewrite buildFTSQuery_spec.
    apply tokenizeQuery_nil_iff, search_tokens_nil_iff in Hq. rewrite Hq.
    reflexivity.
Qed.

(** ** The array of devices in a response *)

Lemma first_array_Some t keys arr :
  first_array t keys = Some arr -> exists k, k ∈ keys /\ array_at t k = Some arr.
Proof.
  induction keys as [|k keys IH]; [discriminate|]. simpl.
  destruct (array_at t k) as [arr'|] eqn:E.
  - intros [= <-]. exists k. split; [left | exact E].
  - intros H. destruct (IH H) as (k' & Hin & Hk'). exists k'.
    split; [right; exact Hin | exact Hk'].
Qed.

Lemma first_array_None t keys :
  first_array t keys = None <-> Forall (fun k => array_at t k = None) keys.
Proof.
  induction keys as [|k keys IH]; simpl.
  - split; [constructor | reflexivity].
  - destruct (array_at t k) eqn:E.
    + split; [discriminate|]. intros H. apply Forall_cons in H as [H _]. congruence.
    + rewrite IH. split; [constructor; assumption|].
      intros H. apply Forall_cons in H as [_ H]. exact H.
Qed.

Lemma array_at_Some t k arr : array_at t k = Some arr <-> t !! k = Some (JArray arr).
Proof.
  unfold array_at. destruct (t !! k) as [[]|]; split; intros H;
    try discriminate; congruence.
Qed.

Lemma arrays_of_delete t k arr :
  array_at t k = Some arr -> arrays_of t ≡ₚ arr :: arrays_of (delete k t).
Proof.
  intros H. apply array_at_Some in H. unfold arrays_of.
  rewrite <- (map_to_list_delete t k (JArray arr)) by exact H. reflexivity.
Qed.

Lemma arrays_of_nil t : arrays_of t = [] <-> forall k, array_at t k = None.
Proof.
  unfold arrays_of. split.
  - intros H k. destruct (array_at t k) as [arr|] eqn:E; [|reflexivity].
    apply array_at_Some in E. apply elem_of_map_to_list in E.
    assert (arr ∈ @nil (list jvalue)) as Hin; [|inversion Hin].
    rewrite <- H. apply list_elem_of_omap. exists (k, JArray arr).
    split; [exact E | reflexivity].
  - intros H. destruct (omap _ _) as [|arr l] eqn:E; [reflexivity|].
    assert (arr ∈ arr :: l) as Hin by left. rewrite <- E in Hin.
    apply list_elem_of_omap in Hin as ([k v] & Hkv & Hv).
    apply elem_of_map_to_list in Hkv. simpl in Hv.
    destruct v; try discriminate. injection Hv as ->.
    apply array_at_Some in Hkv. rewrite H in Hkv. discriminate.
Qed.

Lemma array_at_delete t k k' : k' ≠ k -> array_at (delete k t) k' = array_at t k'.
Proof. intros H. unfold array_at. rewrite lookup_delete_ne by congruence. reflexivity. Qed.

Lemma array_at_delete_eq t k : array_at (delete k t) k = None.
Proof. unfold array_at. rewrite lookup_delete_eq. reflexivity. Qed.

(** X19. Of a response object with exactly one field that holds an array,
    whatever its name, [extractDeviceArray] returns the objects of that
    array. *)
Theorem extractDeviceArray_single_array
    (decode : Decoder) (body : gostring) (t : gmap gostring jvalue)
    (k : gostring) (arr : list jvalue) :
  decode body = Ok (JObject t) ->
  array_at t k = Some arr ->
  (forall k', k' ≠ k -> array_at t k' = None) ->
  extractDeviceArray decode body = Ok (coerceMapSlice arr).
Proof.
  intros Hd Hk Hother. unfold extractDeviceArray. rewrite Hd.
  fold envelope_keys.
  destruct (first_array t envelope_keys) as [arr'|] eqn:E.
  - apply first_array_Some in E as (k' & _ & Hk').
    destruct (decide (k' = k)) as [->|Hne]; [congruence|].
    rewrite Hother in Hk' by exact Hne. discriminate.
  - assert (arrays_of t ≡ₚ [arr]) as Hp.
    { rewrite (arrays_of_delete t k arr) by exact Hk.
      assert (arrays_of (delete k t) = []) as ->; [|reflexivity].
      apply arrays_of_nil. intros k'. destruct (decide (k' = k)) as [->|Hne].
      - apply array_at_delete_eq.
      - rewrite array_at_delete by exact Hne. apply Hother, Hne. }
    apply Permutation_singleton_r in Hp. rewrite Hp. reflexivity.
Qed.

Lemma extractDeviceArray_single_array_witness :
  extractDeviceArray sample_decoder (go "4") = Ok [camera_b].
Proof.
  eapply (extractDeviceArray_single_array sample_decoder (go "4") _ (go "items")
            [JString (go "x"); JObject camera_b] eq_refl).
  - vm_compute. reflexivity.
  - intros k Hk. unfold array_at.
    rewrite lookup_insert_ne by congruence.
    destruct (decide (k = go "count")) as [->|Hc].
    + rewrite lookup_singleton_eq. reflexivity.
    + rewrite lookup_singleton_ne by congruence. reflexivity.
Defined.

(** X20. Of a response object, [extractDeviceArray] returns the objects of
    the array under the first of the keys [cameras], [devices], [data],
    [results] that holds one; when none does and two fields hold arrays it
    returns the error of an ambiguous response, and when no field holds an
    array the error of a missing array. *)
Theorem extractDeviceArray_envelope_or_ambiguous
    (decode : Decoder) (body : gostring) (t : gmap gostring jvalue) :
  decode body = Ok (JObject t) ->
  (forall pre k post arr,
     envelope_keys = pre ++ k :: post ->
     Forall (fun k' => array_at t k' = None) pre ->
     array_at t k = Some arr ->
     extractDeviceArray decode body = Ok (coerceMapSlice arr))
  /\ (forall k1 k2 a1 a2,
        Forall (fun k' => array_at t k' = None) envelope_keys ->
        k1 ≠ k2 -> array_at t k1 = Some a1 -> array_at t k2 = Some a2 ->
        extractDeviceArray decode body
        = Err "ambiguous response: multiple arrays present")
  /\ ((forall k, array_at t k = None) ->
      extractDeviceArray decode body = Err "no device array found in response").
Proof.
  intros Hd. unfold extractDeviceArray. rewrite Hd. fold envelope_keys.
  split; [|split].
  - intros pre k post arr -> Hpre Hk.
    assert (first_array t (pre ++ k :: post) = Some arr) as ->; [|reflexivity].
    induction Hpre as [|k' pre Hk' _ IH]; simpl; [rewrite Hk; reflexivity|].
    rewrite Hk'. exact IH.
  - intros k1 k2 a1 a2 Henv Hne H1 H2.
    apply first_array_None in Henv. rewrite Henv.
    assert (arrays_of t ≡ₚ a1 :: a2 :: arrays_of (delete k2 (delete k1 t))) as Hp.
    { rewrite (arrays_of_delete t k1 a1) by exact H1.
      rewrite (arrays_of_delete (delete k1 t) k2 a2); [reflexivity|].
      rewrite array_at_delete by congruence. exact H2. }
    apply Permutation_length in Hp.
    destruct (arrays_of t) as [|x [|y l]]; try discriminate. reflexivity.
  - intros Hnone.
    assert (first_array t envelope_keys = None) as ->.
    { apply first_array_None, Forall_forall. intros k _. apply Hnone. }
    apply arrays_of_nil in Hnone. rewrite Hnone. reflexivity.
Qed.

Lemma extractDeviceArray_envelope_or_ambiguous_witness :
  extractDeviceArray sample_decoder (go "1") = Ok [camera_b].
Proof.
  eapply (proj1 (extractDeviceArray_envelope_or_ambiguous sample_decoder (go "1") _ eq_refl)
            [] (go "cameras") (go <$> ["devices"; "data"; "results"]%string)
            [JObject camera_b; JNull]).
  - reflexivity.
  - constructor.
  - vm_compute. reflexivity.
Defined.

(** X21. The fetch and the listing read a page alike: when
    [extractCamerasAndNextToken] returns the cameras of a body,
    [extractDeviceArray] returns the same cameras of it. *)
Theorem extract_cameras_as_listed
    (decode : Decoder) (body : gostring)
    (cams : list (gmap gostring jvalue)) (token : gostring) :
  extractCamerasAndNextToken decode body = Ok (cams, token) ->
  extractDeviceArray decode body = Ok cams.
Proof.
  unfold extractCamerasAndNextToken, extractDeviceArray, decode_object.
  destruct (decode body) as [[| | | | |m]|]; try discriminate.
  intros H.
  change (first_array m _)
    with (match array_at m (go "cameras") with
          | Some a => Some a
          | None =>
              match array_at m (go "devices") with
              | Some a => Some a
              | None => first_array m [go "data"; go "results"]
              end
          end).
  destruct (array_at m (go "cameras")) as [arr|] eqn:E1.
  - injection H as <- <-. reflexivity.
  - destruct (array_at m (go "devices")) as [arr|] eqn:E2; [|discriminate].
    injection H as <- <-. reflexivity.
Qed.

Lemma extract_cameras_as_listed_witness :
  extractDeviceArray sample_decoder (go "2") = Ok [camera_a].
Proof.
  apply (extract_cameras_as_listed sample_decoder (go "2") [camera_a] []).
  vm_compute. reflexivity.
Defined.

(** ** The pages of the inventory *)

Lemma clamp_pageSize_range pageSize :
  1 <= clamp_pageSize pageSize <= 200
  /\ (1 <= pageSize <= 200 -> clamp_pageSize pageSize = pageSize).
Proof.
  unfold clamp_pageSize.
  destruct (pageSize <=? 0) eqn:E1; [apply Z.leb_le in E1 | apply Z.leb_gt in E1].
  - simpl. lia.
  - destruct (pageSize >? 200) eqn:E2;
      [apply Z.gtb_lt in E2 | rewrite Z.gtb_ltb in E2; apply Z.ltb_ge in E2]; lia.
Qed.

Lemma fetch_pages_ext fuel server server' decode pageSize : forall n next agg,
  (forall n next, is_request n next ->
     server n next pageSize = server' n next pageSize) ->
  is_request n next ->
  fetch_pages fuel server decode n next pageSize agg
  = fetch_pages fuel server' decode n next pageSize agg.
Proof.
  induction fuel as [|fuel IH]; intros n next agg Hs Hn; [reflexivity|].
  simpl. rewrite <- (Hs n next Hn).
  destruct (server n next pageSize) as [[b status]|]; [|reflexivity].
  destruct (looksLikeHTML [] b); [reflexivity|].
  destruct (status >=? 400); [reflexivity|].
  destruct (extractCamerasAndNextToken decode b) as [[cams token]|]; [|reflexivity].
  destruct (TrimSpace token) eqn:E; [reflexivity|].
  apply IH; [exact Hs|]. simpl. rewrite E. discriminate.
Qed.

Section FetchProperties.

Variable sort_Slice :
  list (gmap gostring jvalue) ->
  (gmap gostring jvalue -> gmap gostring jvalue -> bool) ->
  list (gmap gostring jvalue).

(** X22. [fetchAllCameras] makes its first request without a page token and
    the later ones with a token that is not blank, all with a page size
    between 1 and 200: two servers that answer such requests alike give the
    same result. *)
Theorem fetchAllCameras_requests
    (fuel : nat) (server server' : Server) (decode : Decoder) (pageSize : Z) :
  (forall n next size,
     is_request n next -> 1 <= size <= 200 ->
     server n next size = server' n next size) ->
  fetchAllCameras sort_Slice fuel server decode pageSize
  = fetchAllCameras sort_Slice fuel server' decode pageSize.
Proof.
  intros H. unfold fetchAllCameras.
  rewrite (fetch_pages_ext fuel server server'); [reflexivity| |reflexivity].
  intros n next Hn. apply H; [exact Hn | apply clamp_pageSize_range].
Qed.

Lemma fetch_pages_endless server decode pageSize fuel : forall n next agg,
  endless server decode pageSize ->
  fetch_pages fuel server decode n next pageSize agg = None.
Proof.
  induction fuel as [|fuel IH]; intros n next agg H; [reflexivity|].
  simpl. destruct (H n next) as (b & status & cams & token & -> & -> & Hst & -> & Ht).
  replace (status >=? 400) with false
    by (symmetry; rewrite Z.geb_leb; apply Z.leb_gt; lia).
  destruct (TrimSpace token); [contradiction|]. apply IH, H.
Qed.

(** X23. [fetchAllCameras] does not return from a server that answers every
    request with a page and a token that is not blank, for instance the
    same token again: the loop goes on after any number of requests. *)
Theorem fetchAllCameras_endless
    (server : Server) (decode : Decoder) (pageSize : Z) (fuel : nat) :
  endless server decode (clamp_pageSize pageSize) ->
  fetchAllCameras sort_Slice fuel server decode pageSize = None.
Proof.
  intros H. unfold fetchAllCameras. rewrite fetch_pages_endless by exact H.
  reflexivity.
Qed.

Lemma fetch_pages_more_fuel server decode pageSize fuel : forall n next agg r,
  fetch_pages fuel server decode n next pageSize agg = Some r ->
  forall fuel', (fuel <= fuel')%nat ->
    fetch_pages fuel' server decode n next pageSize agg = Some r.
Proof.
  induction fuel as [|fuel IH]; intros n next agg r H fuel' Hle; [discriminate|].
  destruct fuel' as [|fuel']; [lia|]. simpl in *.
  destruct (server n next pageSize) as [[b status]|]; [|exact H].
  destruct (looksLikeHTML [] b); [exact H|].
  destruct (status >=? 400); [exact H|].
  destruct (extractCamerasAndNextToken decode b) as [[cams token]|]; [|exact H].
  destruct (TrimSpace token); [exact H|].
  apply IH; [exact H | lia].
Qed.

End FetchProperties.

Lemma insert_by_Permutation {A} (less : A -> A -> bool) x l :
  insert_by less x l ≡ₚ x :: l.
Proof.
  induction l as [|y l IH]; simpl; [reflexivity|].
  destruct (less x y); [reflexivity|]. rewrite IH. apply perm_swap.
Qed.

Lemma insertion_sort_Permutation {A} (l : list A) less :
  insertion_sort l less ≡ₚ l.
Proof.
  induction l as [|x l IH]; simpl; [reflexivity|].
  rewrite insert_by_Permutation. constructor. exact IH.
Qed.

Lemma fetchAllCameras_requests_witness :
  fetchAllCameras insertion_sort 5 server_1 sample_decoder 1000
  = fetchAllCameras insertion_sort 5 server_strict sample_decoder 1000.
Proof.
  apply (fetchAllCameras_requests insertion_sort 5 server_1 server_strict
           sample_decoder 1000).
  intros n next size _ Hsize. unfold server_strict.
  destruct (Z.ltb_spec size 1); [lia|]. destruct (Z.ltb_spec 200 size); [lia|].
  reflexivity.
Defined.

Lemma fetchAllCameras_endless_witness :
  fetchAllCameras insertion_sort 1000 server_loop sample_decoder 0 = None.
Proof.
  apply (fetchAllCameras_endless insertion_sort server_loop sample_decoder 0 1000).
  intros n next. exists (go "3"), 200, [camera_a], (go "next").
  split; [reflexivity|]. split; [vm_compute; reflexivity|]. split; [lia|].
  split; [vm_compute; reflexivity | vm_compute; discriminate].
Defined.

(** ** The build of the index from the pages *)

Import Build.

Section BuildProperties.

Variable sort_Slice :
  list (gmap gostring jvalue) ->
  (gmap gostring jvalue -> gmap gostring jvalue -> bool) ->
  list (gmap gostring jvalue).

Lemma sorts_sorted l :
  sorts sort_Slice l -> sorted_by_id (fields <$> sort_Slice l less_id).
Proof.
  intros [_ H]. unfold sorted_by_id.
  eapply StronglySorted_fmap; [|exact H]. intros x y Hxy. exact Hxy.
Qed.

(** X24. The index that the build command leaves does not depend on how the
    server cut the inventory into pages: of two fetches that deliver the
    same records, in any order, either both builds fail, the rows being as
    before, or both return no error and leave the same file. *)
Theorem index_build_reproducible
    (w : World) (rf : rootFlags) (cfg : Config)
    (labels : gmap gostring gostring) (st : Store)
    (fuel fuel' : nat) (server server' : Server) (decode decode' : Decoder)
    (pageSize pageSize' : Z) (agg agg' : list (gmap gostring jvalue)) :
  fetched fuel server decode pageSize = Some (Ok agg) ->
  fetched fuel' server' decode' pageSize' = Some (Ok agg') ->
  agg ≡ₚ agg' ->
  sorts sort_Slice agg -> sorts sort_Slice agg' ->
  exists out out',
    newCamerasIndexBuildCmd sort_Slice w fuel server decode rf cfg labels pageSize st
    = Some out
    /\ newCamerasIndexBuildCmd sort_Slice w fuel' server' decode' rf cfg labels pageSize' st
       = Some out'
    /\ (error out = None <-> error out' = None)
    /\ tables_of (store out) = tables_of (store out')
    /\ (error out = None -> out = out').
Proof.
  intros Hf Hf' Hp Hs Hs'. unfold newCamerasIndexBuildCmd, fetchAllCameras.
  unfold fetched in Hf, Hf'. rewrite Hf, Hf'.
  destruct (camerasIndexPath (path_env w) rf cfg) as [path|e].
  - eexists _, _. split; [reflexivity|]. split; [reflexivity|].
    apply rebuild_sorted_agree.
    + apply fmap_Permutation. destruct Hs as [Hs _], Hs' as [Hs' _].
      rewrite Hs, Hs'. exact Hp.
    + apply sorts_sorted, Hs.
    + apply sorts_sorted, Hs'.
  - eexists _, _. split; [reflexivity|]. split; [reflexivity|].
    simpl. repeat split; discriminate.
Qed.

End BuildProperties.

Lemma sample_sorts l sorted :
  insertion_sort l less_id = sorted ->
  StronglySorted (fun a b => less_id b a = false) sorted ->
  sorts insertion_sort l.
Proof.
  intros <- H. split; [apply insertion_sort_Permutation | exact H].
Qed.

Lemma index_build_reproducible_witness :
  exists out out',
    newCamerasIndexBuildCmd insertion_sort calm_world 5 server_1 sample_decoder
      default_flags cfg_upper front_desk 0 None = Some out
    /\ newCamerasIndexBuildCmd insertion_sort calm_world 5 server_2 sample_decoder
         default_flags cfg_upper front_desk 0 None = Some out'
    /\ (error out = None <-> error out' = None)
    /\ tables_of (store out) = tables_of (store out')
    /\ (error out = None -> out = out').
Proof.
  apply (index_build_reproducible insertion_sort calm_world default_flags cfg_upper
           front_desk None 5 5 server_1 server_2 sample_decoder sample_decoder 0 0
           [camera_b; camera_a] [camera_a; camera_b]).
  - vm_compute. reflexivity.
  - vm_compute. reflexivity.
  - apply perm_swap.
  - apply (sample_sorts _ [camera_a; camera_b]); [vm_compute; reflexivity|].
    repeat constructor.
  - apply (sample_sorts _ [camera_a; camera_b]); [vm_compute; reflexivity|].
    repeat constructor.
Defined.

(** ** The listing of cameras *)

Import Table.

(** X25. [trunc] returns the trimmed text when its bytes are no more than
    [n], and [n] bytes of it otherwise, the last three being dots when [n]
    is above 3; it returns nothing when [n] is zero or negative. *)
Theorem trunc_length (s : gostring) (n : Z) :
  let whole := bytes_of (TrimSpace s) in
  Z.of_nat (length (trunc s n)) = Z.max 0 (Z.min n (Z.of_nat (length whole)))
  /\ (0 < n -> Z.of_nat (length whole) <= n -> trunc s n = whole)
  /\ (3 < n < Z.of_nat (length whole) ->
      trunc s n = take (Z.to_nat (n - 3)) whole ++ [46; 46; 46]).
Proof.
  intros whole. unfold trunc. fold whole.
  destruct (Z.leb_spec n 0) as [H0|H0].
  { simpl. split; [lia|]. split; intros; lia. }
  destruct (Z.leb_spec (Z.of_nat (length whole)) n) as [H1|H1].
  { split; [lia|]. split; [reflexivity | lia]. }
  destruct (Z.leb_spec n 1) as [H2|H2].
  { rewrite length_take. split; [lia|]. split; intros; lia. }
  destruct (Z.leb_spec n 3) as [H3|H3].
  { rewrite length_take. split; [lia|]. split; intros; lia. }
  rewrite length_app, length_take. split; [simpl; lia|].
  split; [lia | reflexivity].
Qed.

Section FilterProperties.

Variable strings_ToLower : gostring -> gostring.

Lemma filterCameras_cases cams cameraID q labels :
  filterCameras strings_ToLower cams cameraID q labels = cams
  \/ filterCameras strings_ToLower cams cameraID q labels
     = List.filter (keeps strings_ToLower (TrimSpace cameraID)
                      (strings_ToLower (TrimSpace q)) labels) cams.
Proof.
  unfold filterCameras.
  destruct (TrimSpace cameraID); [destruct (strings_ToLower _)|]; auto.
Qed.

Lemma List_filter_sublist {A} (f : A -> bool) l : List.filter f l `sublist_of` l.
Proof.
  induction l as [|x l IH]; simpl; [constructor|].
  destruct (f x); [apply sublist_skip | apply sublist_cons]; exact IH.
Qed.

Lemma List_filter_twice {A} (f : A -> bool) l :
  List.filter f (List.filter f l) = List.filter f l.
Proof.
  induction l as [|x l IH]; simpl; [reflexivity|].
  destruct (f x) eqn:E; [simpl; rewrite E, IH; reflexivity | exact IH].
Qed.

(** X26. [filterCameras] returns cameras of the list in their order; it
    returns the list itself when the camera id and the query are blank;
    filtering its result again changes nothing; and with a camera id that
    is not blank every camera returned has that id. *)
Theorem filterCameras_selects
    (cams : list (gmap gostring jvalue)) (cameraID q : gostring)
    (labels : gmap gostring gostring) :
  let out := filterCameras strings_ToLower cams cameraID q labels in
  out `sublist_of` cams
  /\ filterCameras strings_ToLower out cameraID q labels = out
  /\ (TrimSpace cameraID = [] -> strings_ToLower (TrimSpace q) = [] -> out = cams)
  /\ (TrimSpace cameraID ≠ [] ->
      Forall (fun c => pickString (fields c) id_keys = TrimSpace cameraID) out).
Proof.
  intros out. subst out. split; [|split; [|split]].
  - destruct (filterCameras_cases cams cameraID q labels) as [-> | ->];
      [reflexivity | apply List_filter_sublist].
  - unfold filterCameras.
    destruct (TrimSpace cameraID); [destruct (strings_ToLower _)|];
      try reflexivity; apply List_filter_twice.
  - intros Hid Hq. unfold filterCameras. rewrite Hid, Hq. reflexivity.
  - intros Hid. unfold filterCameras.
    destruct (TrimSpace cameraID) as [|r id] eqn:E; [contradiction|].
    apply Forall_forall. intros c Hc. apply list_elem_of_In, filter_In in Hc as [_ Hc].
    unfold keeps in Hc. rewrite (bool_decide_false (r :: id = [])) in Hc by discriminate.
    destruct (bool_decide_reflect (pickString (fields c) id_keys = r :: id))
      as [Heq|Hne]; [exact Heq | simpl in Hc; discriminate].
Qed.

End FilterProperties.

(** ** The configuration *)

Import Cfg.

Lemma ensure_maps_has_maps p : has_maps (ensure_maps p).
Proof.
  split; [discriminate|]. unfold ensure_maps. simpl.
  destruct (Labels p); eauto.
Qed.

Lemma ensure_maps_twice p : ensure_maps (ensure_maps p) = ensure_maps p.
Proof. unfold ensure_maps. simpl. destruct (Labels p); reflexivity. Qed.

Lemma legacy_data_bool cfg :
  legacy_data cfg <->
  not_blank (LegacyBaseURL cfg)
  || match LegacyAuth cfg with
     | Some a => not_blank (APIKey a) || not_blank (Token a)
     | None => false
     end
  || bool_decide (LegacyHeaders cfg ≠ None) = true.
Proof.
  unfold legacy_data. rewrite !orb_true_iff, bool_decide_eq_true.
  split.
  - intros [H | [(a & -> & H) | H]]; auto.
    left. right. apply orb_true_iff. exact H.
  - intros [[H | H] | H]; auto.
    destruct (LegacyAuth cfg) as [a|]; [|discriminate].
    right. left. exists a. split; [reflexivity|]. apply orb_true_iff. exact H.
Qed.

Section NormalizeProperties.

Variable range_first : gmap gostring Cfg.Config -> gostring.

(** X27. [normalizeConfigFile] leaves a file with a map of profiles that has
    the profiles of before, each with its maps of headers and of camera
    labels made; a file with legacy data has a [default] profile and a
    current profile that is not blank; and a current profile that is not
    blank is kept. *)
Theorem normalizeConfigFile_normal (cfg : ConfigFile) :
  let cfg' := normalizeConfigFile range_first cfg in
  exists profiles,
    Profiles cfg' = Some profiles
    /\ dom (default ∅ (Profiles cfg)) ⊆ dom profiles
    /\ (forall k p, profiles !! k = Some p -> has_maps p)
    /\ (legacy_data cfg ->
        is_Some (profiles !! go "default") /\ not_blank (CurrentProfile cfg') = true)
    /\ (not_blank (CurrentProfile cfg) = true ->
        CurrentProfile cfg' = CurrentProfile cfg).
Proof.
  intros cfg'. subst cfg'. unfold normalizeConfigFile.
  set (L := _ || _ || bool_decide _).
  assert (legacy_data cfg <-> L = true) as HL by apply legacy_data_bool.
  set (P1 := if L then _ else _).
  exists (ensure_maps <$> P1). cbn [Profiles CurrentProfile].
  split; [reflexivity|].
  assert (dom (default ∅ (Profiles cfg)) ⊆ dom P1) as Hdom.
  { subst P1. destruct L; [|reflexivity].
    destruct (_ !! go "default"); [reflexivity|].
    rewrite dom_insert. apply union_subseteq_r. }
  split; [rewrite dom_fmap; exact Hdom|]. split; [|split].
  - intros k p Hk. apply lookup_fmap_Some in Hk as (p0 & <- & _).
    apply ensure_maps_has_maps.
  - intros Hleg. apply (proj1 HL) in Hleg.
    assert (is_Some (P1 !! go "default")) as [p Hd].
    { subst P1. rewrite Hleg.
      destruct (default ∅ (Profiles cfg) !! go "default") eqn:E;
        [rewrite E; eauto | rewrite lookup_insert_eq; eauto]. }
    split; [rewrite lookup_fmap, Hd; simpl; eauto|].
    rewrite Hleg. cbn [andb].
    destruct (not_blank (CurrentProfile cfg)) eqn:Hc; cbn [negb].
    + rewrite Hc. exact Hc.
    + reflexivity.
  - intros Hc. rewrite Hc. rewrite andb_false_r. rewrite Hc. reflexivity.
Qed.

Lemma normalizeConfigFile_fixed
    (range_first' : gmap gostring Cfg.Config -> gostring)
    (current : gostring) (P : gmap gostring Cfg.Config) (base : gostring)
    (auth : option AuthConfig) (headers : option (gmap gostring gostring)) :
  let cfg := {| CurrentProfile := current; Profiles := Some P;
                LegacyBaseURL := base; LegacyAuth := auth;
                LegacyHeaders := headers |} in
  (legacy_data cfg -> is_Some (P !! go "default") /\ not_blank current = true) ->
  (forall k p, P !! k = Some p -> ensure_maps p = p) ->
  (not_blank current = false -> P = ∅) ->
  normalizeConfigFile range_first' cfg = cfg.
Proof.
  intros cfg Hleg Hmaps Hcur. unfold normalizeConfigFile.
  pose proof (legacy_data_bool cfg) as HL.
  destruct (_ || _ || bool_decide _) eqn:EL.
  - destruct Hleg as [[p Hp] Hc]; [apply HL; reflexivity|].
    subst cfg. cbn [Profiles CurrentProfile LegacyBaseURL LegacyAuth LegacyHeaders] in *.
    change (default ∅ (Some P)) with P.
    rewrite Hp, Hc. cbn [negb andb].
    assert (ensure_maps <$> P = P) as ->.
    { rewrite <- (map_fmap_id P) at 2. apply map_fmap_ext. intros k q Hq. apply Hmaps in Hq. exact Hq. }
    rewrite Hc. reflexivity.
  - subst cfg. cbn [Profiles CurrentProfile LegacyBaseURL LegacyAuth LegacyHeaders andb] in *.
    change (default ∅ (Some P)) with P.
    assert (ensure_maps <$> P = P) as ->.
    { rewrite <- (map_fmap_id P) at 2. apply map_fmap_ext. intros k q Hq. apply Hmaps in Hq. exact Hq. }
    destruct (not_blank current) eqn:Hc; cbn [negb andb]; [reflexivity|].
    rewrite (Hcur eq_refl), map_size_empty. reflexivity.
Qed.

(** X28. [normalizeConfigFile] is idempotent on a file whose profiles have
    names that are not blank, whichever profile [range] gives first: the
    file that [loadConfig] normalized is written back by [writeConfig] as
    it is. *)
Theorem normalizeConfigFile_idempotent
    (range_first' : gmap gostring Cfg.Config -> gostring) (cfg : ConfigFile) :
  (forall m, m ≠ ∅ -> is_Some (m !! range_first m)) ->
  (forall k, is_Some (default ∅ (Profiles cfg) !! k) -> not_blank k = true) ->
  normalizeConfigFile range_first' (normalizeConfigFile range_first cfg)
  = normalizeConfigFile range_first cfg.
Proof.
  intros Hpick Hnames.
  pose proof (legacy_data_bool cfg) as HL.
  unfold normalizeConfigFile at 2 3.
  destruct (_ || _ || bool_decide _) eqn:EL.
  - set (P1 := match default ∅ (Profiles cfg) !! go "default" with
               | Some _ => _ | None => _ end).
    assert (is_Some (P1 !! go "default")) as [p Hp].
    { subst P1. destruct (default ∅ (Profiles cfg) !! go "default") eqn:E;
        [rewrite E | rewrite lookup_insert_eq]; eauto. }
    cbn [andb].
    set (c1 := if negb (not_blank (CurrentProfile cfg)) then _ else _).
    assert (not_blank c1 = true) as Hc1.
    { subst c1. destruct (not_blank (CurrentProfile cfg)) eqn:Hc;
        cbn [negb]; [exact Hc | reflexivity]. }
    rewrite Hc1. cbn [negb andb].
    apply normalizeConfigFile_fixed.
    + intros _. split; [rewrite lookup_fmap, Hp; simpl; eauto | exact Hc1].
    + intros k q Hq. apply lookup_fmap_Some in Hq as (q0 & <- & _).
      apply ensure_maps_twice.
    + rewrite Hc1. discriminate.
  - cbn [andb].
    set (P2 := ensure_maps <$> default ∅ (Profiles cfg)).
    set (c2 := if negb _ && _ then _ else _).
    apply normalizeConfigFile_fixed.
    + intros Hleg. exfalso.
      assert (legacy_data cfg) as Hleg' by exact Hleg.
      apply HL in Hleg'. congruence.
    + intros k q Hq. apply lookup_fmap_Some in Hq as (q0 & <- & _).
      apply ensure_maps_twice.
    + subst c2. destruct (not_blank (CurrentProfile cfg)) eqn:Hc; cbn [negb andb].
      * congruence.
      * destruct (0 <? Z.of_nat (size P2)) eqn:E2.
        -- destruct (P2 !! go "default") eqn:E3; [discriminate|].
           intros Hb. exfalso.
           assert (P2 ≠ ∅) as Hne.
           { intros E. rewrite E, map_size_empty in E2. discriminate. }
           destruct (Hpick P2 Hne) as [q Hq].
           subst P2. apply lookup_fmap_Some in Hq as (q0 & _ & Hq).
           rewrite Hnames in Hb by eauto. discriminate.
        -- intros _. apply map_size_empty_iff. apply Z.ltb_ge in E2. lia.
Qed.

(** X29. The configuration that [effectiveProfileConfig] returns has a base
    URL that is not empty and a map of headers; it is the profile whose
    name is returned, not blank, with the labels of that profile; a flag
    that is not empty gives the base URL and the organization, and without
    flag and environment variable they are those of the profile. *)
Theorem effectiveProfileConfig_result
    (env : gmap gostring gostring) (decoded : result ConfigFile)
    (rf : Cfg.rootFlags) (name : gostring) (cfg : Cfg.Config) :
  effectiveProfileConfig range_first env decoded rf = Ok (name, cfg) ->
  BaseURL cfg ≠ []
  /\ Headers cfg ≠ None
  /\ ¬ blank name
  /\ (exists cf profile,
        loadConfig range_first decoded = Ok cf
        /\ default ∅ (Profiles cf) !! name = Some profile
        /\ Labels cfg = Labels profile
        /\ (FlagBaseURL rf ≠ [] -> BaseURL cfg = FlagBaseURL rf)
        /\ (FlagOrgID rf ≠ [] -> OrgID cfg = FlagOrgID rf)
        /\ (FlagBaseURL rf = [] ->
            envFirst env [] base_url_keys = [] ->
            BaseURL cfg = BaseURL profile)
        /\ (FlagOrgID rf = [] ->
            envFirst env [] org_id_keys = [] ->
            OrgID cfg = OrgID profile)).
Proof.
  unfold effectiveProfileConfig.
  destruct (loadConfig range_first decoded) as [cf|]; [|discriminate].
  set (n := firstNonEmpty _).
  assert (¬ blank n) as Hn.
  { subst n. rewrite firstNonEmpty_blank_iff. intros H.
    assert (blank (go "default")) as Hd; [|vm_compute in Hd; discriminate].
    eapply Forall_forall; [exact H|].
    repeat (apply elem_of_cons; (left; reflexivity) || right). }
  destruct (default ∅ (Profiles cf) !! n) as [profile|] eqn:Hp; [|discriminate].
  set (b := override (FlagBaseURL rf) _).
  set (o := override (FlagOrgID rf) _).
  set (k := override (FlagAPIKey rf) _).
  set (t := override (FlagToken rf) _).
  destruct b as [|r b0] eqn:Hb; [discriminate|].
  intros H. injection H as <- <-. cbn [BaseURL Headers Labels OrgID].
  split; [discriminate|]. split; [discriminate|]. split; [exact Hn|].
  exists cf, profile. split; [reflexivity|]. split; [exact Hp|].
  split; [reflexivity|].
  subst b o. unfold override in *.
  repeat split.
  - destruct (FlagBaseURL rf); [contradiction | intros _; symmetry; exact Hb].
  - destruct (FlagOrgID rf); [contradiction | reflexivity].
  - intros Hf He. rewrite Hf, He in Hb. symmetry. exact Hb.
  - intros Hf He. rewrite Hf, He. reflexivity.
Qed.

(** The current profile that [normalizeConfigFile] leaves does not hang on
    the range over the profiles when the file names it, or holds legacy data
    or a profile [default]. *)
Lemma normalizeConfigFile_current
    (range_first' : gmap gostring Cfg.Config -> gostring) (cfg : ConfigFile) :
  not_blank (CurrentProfile cfg) = true
  \/ legacy_data cfg
  \/ is_Some (default ∅ (Profiles cfg) !! go "default") ->
  CurrentProfile (normalizeConfigFile range_first' cfg)
  = CurrentProfile (normalizeConfigFile range_first cfg).
Proof.
  intros H. rewrite legacy_data_bool in H. unfold normalizeConfigFile.
  cbn [CurrentProfile].
  set (L := _ || _ || bool_decide _) in *.
  set (P1 := if L then _ else _).
  destruct (not_blank (CurrentProfile cfg)) eqn:Hc.
  { rewrite andb_false_r, Hc. reflexivity. }
  rewrite andb_true_r. cbn [negb].
  destruct L eqn:EL; [reflexivity|].
  rewrite Hc. cbn [negb andb].
  destruct H as [H|[H|[p Hp]]]; [discriminate | discriminate |].
  subst P1. rewrite lookup_fmap, Hp. reflexivity.
Qed.

(** X30. The index is partitioned by the profile that the configuration is
    taken from, when the name of the profile does not hang on the order in
    which the profiles are ranged over (a flag, the environment or the file
    names it, or the file holds legacy data or a profile [default]): when
    [effectiveProfileConfig] returns a profile name,
    [selectedProfileNameFromConfig], which loads the file once more and
    ranges over its profiles in an order of its own, returns the same name
    from the same flags, environment and file. *)
Theorem effective_profile_is_index_profile
    (range_first' : gmap gostring Cfg.Config -> gostring)
    (env : gmap gostring gostring) (decoded : result ConfigFile)
    (rf : Cfg.rootFlags) (name : gostring) (cfg : Cfg.Config)
    (cacheDir : result gostring) (host : gostring -> option gostring) :
  profile_named env decoded rf ->
  effectiveProfileConfig range_first env decoded rf = Ok (name, cfg) ->
  selectedProfileNameFromConfig
    (index_env range_first' env decoded cacheDir host)
    {| Path.Profile := Cfg.Profile rf |}
  = name.
Proof.
  intros Hnamed H.
  unfold selectedProfileNameFromConfig, index_env.
  cbn [config_current_profile env_profile Path.Profile].
  unfold effectiveProfileConfig in H. unfold loadConfig in *.
  destruct decoded as [file|]; [|discriminate].
  set (n := firstNonEmpty _) in H.
  assert (name = n) as ->.
  { destruct (_ !! n); [|discriminate].
    destruct (override (FlagBaseURL rf) _); [discriminate|].
    injection H as Hn _. symmetry. exact Hn. }
  subst n. clear H.
  destruct Hnamed as [Hf|[He|Hc]].
  - rewrite !firstNonEmpty_takes by exact Hf. reflexivity.
  - destruct (decide (blank (Cfg.Profile rf))) as [Hf|Hf].
    + rewrite !(firstNonEmpty_next (Cfg.Profile rf)) by exact Hf.
      rewrite !firstNonEmpty_takes by exact He. reflexivity.
    + rewrite !firstNonEmpty_takes by exact Hf. reflexivity.
  - rewrite (normalizeConfigFile_current range_first' file Hc). reflexivity.
Qed.

End NormalizeProperties.

Lemma first_name_in m : m ≠ ∅ -> is_Some (m !! first_name m).
Proof.
  intros H. unfold first_name.
  destruct (map_to_list m) as [|[k p] l] eqn:E.
  - apply map_to_list_empty_iff in E. contradiction.
  - exists p. apply elem_of_map_to_list. rewrite E. left.
Qed.

Lemma normalizeConfigFile_idempotent_witness :
  Cfg.normalizeConfigFile first_name (Cfg.normalizeConfigFile first_name legacy_file)
  = Cfg.normalizeConfigFile first_name legacy_file.
Proof.
  apply (normalizeConfigFile_idempotent first_name first_name legacy_file).
  - exact first_name_in.
  - intros k [p Hp]. simpl in Hp. rewrite lookup_empty in Hp. discriminate.
Defined.

Lemma effective_sample_eq :
  Cfg.effectiveProfileConfig first_name ∅ (Ok legacy_file) org_flags
  = Ok (go "default", effective_sample).
Proof. vm_compute. reflexivity. Qed.

Lemma effectiveProfileConfig_result_witness :
  Cfg.BaseURL effective_sample ≠ [] /\ Cfg.Headers effective_sample ≠ None.
Proof.
  destruct (effectiveProfileConfig_result first_name ∅ (Ok legacy_file) org_flags
              (go "default") effective_sample effective_sample_eq)
    as (H1 & H2 & _).
  split; [exact H1 | exact H2].
Defined.

Lemma effective_profile_is_index_profile_witness :
  selectedProfileNameFromConfig
    (Cfg.index_env last_name ∅ (Ok legacy_file) (Ok (go "/home/u/.cache"))
       (fun _ => Some (go "api.verkada.com")))
    {| Path.Profile := [] |}
  = go "default".
Proof.
  apply (effective_profile_is_index_profile first_name last_name ∅ (Ok legacy_file)
           org_flags (go "default") effective_sample).
  - right. right. right. left. left. reflexivity.
  - exact effective_sample_eq.
Defined.

(** Without a name for the profile the two loads of the file may choose
    different profiles: of the file with the profiles [home] and [work],
    the configuration is that of the one and the index that of the other. *)
Example profile_of_the_range :
  (exists cfg,
     Cfg.effectiveProfileConfig first_name ∅ (Ok two_profiles_file) no_flags
     = Ok (first_name (default ∅ (Cfg.Profiles two_profiles_file)), cfg))
  /\ selectedProfileNameFromConfig
       (Cfg.index_env last_name ∅ (Ok two_profiles_file) (Ok (go "/home/u/.cache"))
          (fun _ => Some (go "api.verkada.com")))
       {| Path.Profile := [] |}
     = last_name (default ∅ (Cfg.Profiles two_profiles_file))
  /\ first_name (default ∅ (Cfg.Profiles two_profiles_file))
     ≠ last_name (default ∅ (Cfg.Profiles two_profiles_file)).
Proof.
  split; [eexists; vm_compute; reflexivity|].
  split; [vm_compute; reflexivity|].
  vm_compute. discriminate.
Qed.
